(** * Gaussian naive Bayes classifier ([naiveBayes.js]): shallow embedding

    The class [NaiveBayes] keeps one private field, [#data], an object that
    maps a class code to an object with the fields [sortedAttributes],
    [mean] and [stDev].  The methods are embedded as functions that pass
    this object explicitly.

    Numbers.  A JavaScript number is modelled as a real number or one of the
    three special values of IEEE-754.  Finite arithmetic is exact (no
    rounding, no overflow, no underflow) and zero carries no sign (it
    behaves as +0, the only zero a divisor takes on a fitted model);
    the special values follow the IEEE-754 rules of [+], [-], [*], [/],
    [Math.sqrt], [Math.exp], [Math.log], [Math.pow] and [>].  The
    statements over this model are about the structure of the
    computation, the special values, the order of values and quotients of
    two counts.

    Rounding.  The value of a sum, a mean, a deviation or a normalized
    value depends on how every operation rounds.  The loops that compute
    them are therefore given a second time with the number type and its
    operations as parameters ([attributeMeanWith], [standardDeviationWith],
    [normalizeProbabilitiesWith]), and read in three arithmetics: the exact
    one, binary64 itself (the primitive floats, for values that are
    computed) and the reals with operations that round with a relative
    error (for bounds).  [Math.pow] and [Math.sqrt], whose precision the
    language leaves to the implementation, stay parameters in binary64.

    Failure.  The source has no [throw]; the only failures are the
    [TypeError]s of reading a property of [undefined].  They are modelled
    by the [result] type.  A call of [fit] that throws leaves a partly
    built [#data] behind; the embedding does not keep it.

    Labels and predictions are natural numbers; a label 0 is never a key
    of [#data].  Keys are class codes, far below the bound 2^32 - 1 under
    which [for ... in] enumerates integer keys in ascending order.

    The caller ([app.js]).  [formatCsvData] and [runNaiveBayes] are
    embedded from the parsed rows on: a row is the list of its values in
    the order of [Object.keys].  Reading the file and printing the
    percentage are left out; [parseFloat] and the set of names that an
    object literal inherits from [Object.prototype] are parameters. *)

From Stdlib Require Import String.
From Stdlib Require Import PrimFloat Uint63.
From Stdlib Require Import Reals Lra List Arith Lia Bool Sorted.
Import ListNotations.

Open Scope R_scope.

(** ** Numbers *)

Inductive number : Type :=
| Fin (r : R)
| PInf
| NInf
| NaN.

(** Array cells and variables that can hold [undefined]. *)
Inductive jsval : Type :=
| JNum (n : number)
| JUndefined.

(** [ToNumber] of the language: [undefined] converts to [NaN]. *)
Definition ToNumber (v : jsval) : number :=
  match v with
  | JNum n => n
  | JUndefined => NaN
  end.

Definition sgn (r : R) : comparison :=
  if Rlt_dec 0 r then Gt else if Rlt_dec r 0 then Lt else Eq.

Definition neg (x : number) : number :=
  match x with
  | Fin r => Fin (- r)
  | PInf => NInf
  | NInf => PInf
  | NaN => NaN
  end.

Definition add (x y : number) : number :=
  match x, y with
  | NaN, _ | _, NaN => NaN
  | Fin a, Fin b => Fin (a + b)
  | PInf, NInf | NInf, PInf => NaN
  | PInf, _ | _, PInf => PInf
  | NInf, _ | _, NInf => NInf
  end.

Definition sub (x y : number) : number := add x (neg y).

Definition mul (x y : number) : number :=
  match x, y with
  | NaN, _ | _, NaN => NaN
  | Fin a, Fin b => Fin (a * b)
  | PInf, Fin b | Fin b, PInf =>
      match sgn b with Gt => PInf | Lt => NInf | Eq => NaN end
  | NInf, Fin b | Fin b, NInf =>
      match sgn b with Gt => NInf | Lt => PInf | Eq => NaN end
  | PInf, PInf | NInf, NInf => PInf
  | PInf, NInf | NInf, PInf => NInf
  end.

Definition div (x y : number) : number :=
  match x, y with
  | NaN, _ | _, NaN => NaN
  | Fin a, Fin b =>
      if Req_dec_T b 0
      then match sgn a with Gt => PInf | Lt => NInf | Eq => NaN end
      else Fin (a / b)
  | Fin _, (PInf | NInf) => Fin 0
  | PInf, Fin b => match sgn b with Lt => NInf | _ => PInf end
  | NInf, Fin b => match sgn b with Lt => PInf | _ => NInf end
  | (PInf | NInf), (PInf | NInf) => NaN
  end.

(** [x > y] of the language: false as soon as one side is [NaN]. *)
Definition gt (x y : number) : bool :=
  match x, y with
  | NaN, _ | _, NaN => false
  | Fin a, Fin b => if Rlt_dec b a then true else false
  | PInf, PInf => false
  | PInf, _ => true
  | _, PInf => false
  | NInf, _ => false
  | Fin _, NInf => true
  end.

(** [x >= y] of the language (used in statements only). *)
Definition ge (x y : number) : bool :=
  match x, y with
  | NaN, _ | _, NaN => false
  | Fin a, Fin b => if Rlt_dec a b then false else true
  | PInf, _ => true
  | _, NInf => true
  | _, PInf => false
  | NInf, _ => false
  end.

Definition Math_PI : number := Fin PI.

Definition Math_sqrt (x : number) : number :=
  match x with
  | Fin r => if Rlt_dec r 0 then NaN else Fin (sqrt r)
  | PInf => PInf
  | NInf | NaN => NaN
  end.

Definition Math_exp (x : number) : number :=
  match x with
  | Fin r => Fin (exp r)
  | PInf => PInf
  | NInf => Fin 0
  | NaN => NaN
  end.

Definition Math_log (x : number) : number :=
  match x with
  | Fin r =>
      match sgn r with Gt => Fin (ln r) | Eq => NInf | Lt => NaN end
  | PInf => PInf
  | NInf | NaN => NaN
  end.

(** [Math.pow(x, k)] and [x ** k] for a literal exponent [k] that is a
    natural number (the source only uses [2]). *)
Fixpoint Math_pow (x : number) (k : nat) : number :=
  match k with
  | O => Fin 1
  | S k' => mul x (Math_pow x k')
  end.

(** A length or a counter as a number. *)
Definition of_nat (n : nat) : number := Fin (INR n).

(** ** Failure *)

Inductive result (A : Type) : Type :=
| Ok (a : A)
| TypeError.
Arguments Ok {A} a.
Arguments TypeError {A}.

Definition bind {A B : Type} (m : result A) (k : A -> result B) : result B :=
  match m with
  | Ok a => k a
  | TypeError => TypeError
  end.

Notation "x <- m ;; k" := (bind m (fun x => k))
  (at level 61, m at next level, right associativity).

(** Reading a property of something that may be [undefined]. *)
Definition defined {A : Type} (o : option A) : result A :=
  match o with
  | Some a => Ok a
  | None => TypeError
  end.

Fixpoint mapM {A B : Type} (f : A -> result B) (l : list A) : result (list B) :=
  match l with
  | [] => Ok []
  | a :: l' => b <- f a ;; bs <- mapM f l' ;; Ok (b :: bs)
  end.

(** ** Arrays *)

(** [a[i]]: [undefined] outside the array. *)
Definition array_get (a : list jsval) (i : nat) : jsval :=
  nth i a JUndefined.

(** [a[i] = v]: an index past the end extends the array, the cells in
    between read as [undefined]. *)
Fixpoint array_set (a : list jsval) (i : nat) (v : jsval) : list jsval :=
  match a, i with
  | [], O => [v]
  | [], S i' => JUndefined :: array_set [] i' v
  | _ :: a', O => v :: a'
  | x :: a', S i' => x :: array_set a' i' v
  end.

(** ** The object [#data] *)

Record category : Type := mkCategory {
  sortedAttributes : option (list (list jsval));
  mean : option (list number);
  stDev : option (list number)
}.

(** The object literal [{}]. *)
Definition emptyCategory : category := mkCategory None None None.

Definition set_sortedAttributes (c : category) (v : list (list jsval)) : category :=
  mkCategory (Some v) (mean c) (stDev c).
Definition set_mean (c : category) (v : list number) : category :=
  mkCategory (sortedAttributes c) (Some v) (stDev c).
Definition set_stDev (c : category) (v : list number) : category :=
  mkCategory (sortedAttributes c) (mean c) (Some v).

(** An object whose keys are class codes.  Integer keys are enumerated by
    [for ... in] in ascending order whatever the order of creation, so the
    entries are kept sorted by key. *)
Definition data : Type := list (nat * category).

Fixpoint obj_get (k : nat) (d : data) : option category :=
  match d with
  | [] => None
  | (k', c) :: d' => if Nat.eqb k k' then Some c else obj_get k d'
  end.

Fixpoint obj_set (k : nat) (c : category) (d : data) : data :=
  match d with
  | [] => [(k, c)]
  | (k', c') :: d' =>
      if Nat.eqb k k' then (k, c) :: d'
      else if Nat.ltb k k' then (k, c) :: (k', c') :: d'
      else (k', c') :: obj_set k c d'
  end.

Definition keys (d : data) : list nat := map fst d.

(** [a[i]] for an array of numbers: [undefined] outside the array. *)
Definition num_get (a : list number) (i : nat) : jsval :=
  match nth_error a i with
  | Some x => JNum x
  | None => JUndefined
  end.

(** [a[j].push(v)] inside an array of arrays; [a[j]] must exist. *)
Fixpoint push_at (a : list (list jsval)) (j : nat) (v : jsval)
  : option (list (list jsval)) :=
  match a, j with
  | [], _ => None
  | col :: a', O => Some ((col ++ [v]) :: a')
  | col :: a', S j' => option_map (cons col) (push_at a' j' v)
  end.

(** ** [fit] *)

(** First loop of [#formatData]: a label above the counter creates (or
    resets) the object of that label and increments the counter. *)
Fixpoint addCategories (labels : list nat) (numOfUniqueLabels : nat) (d : data)
  : nat * data :=
  match labels with
  | [] => (numOfUniqueLabels, d)
  | l :: rest =>
      if Nat.ltb numOfUniqueLabels l
      then addCategories rest (numOfUniqueLabels + 1) (obj_set l emptyCategory d)
      else addCategories rest numOfUniqueLabels d
  end.

(** Second loop: [this.#data[i].sortedAttributes] becomes an array of
    [numOfAttributes] empty arrays, for [i] from 1 to the counter. *)
Fixpoint addAttributeArrays (cats : list nat) (numOfAttributes : nat) (d : data)
  : result data :=
  match cats with
  | [] => Ok d
  | i :: rest =>
      c <- defined (obj_get i d) ;;
      addAttributeArrays rest numOfAttributes
        (obj_set i (set_sortedAttributes c (repeat [] numOfAttributes)) d)
  end.

(** [this.#data[category].sortedAttributes[j].push(v)], where [category]
    is [labels[i]] and may be [undefined]. *)
Definition pushValue (d : data) (category : option nat) (j : nat) (v : jsval)
  : result data :=
  k <- defined category ;;
  c <- defined (obj_get k d) ;;
  attrs <- defined (sortedAttributes c) ;;
  attrs' <- defined (push_at attrs j v) ;;
  Ok (obj_set k (set_sortedAttributes c attrs') d).

Fixpoint pushRow (js : list nat) (category : option nat) (row : list number)
  (d : data) : result data :=
  match js with
  | [] => Ok d
  | j :: js' =>
      d' <- pushValue d category j (num_get row j) ;;
      pushRow js' category row d'
  end.

(** Third loop, from row [i] on. *)
Fixpoint pushRows (rows : list (list number)) (i : nat) (labels : list nat)
  (numOfAttributes : nat) (d : data) : result data :=
  match rows with
  | [] => Ok d
  | row :: rest =>
      d' <- pushRow (seq 0 numOfAttributes) (nth_error labels i) row d ;;
      pushRows rest (S i) labels numOfAttributes d'
  end.

Definition formatData (attributeValues : list (list number)) (labels : list nat)
  : result data :=
  let '(numOfUniqueLabels, d) := addCategories labels 0 [] in
  row0 <- defined (nth_error attributeValues 0) ;;
  let numOfAttributes := length row0 in
  d1 <- addAttributeArrays (seq 1 numOfUniqueLabels) numOfAttributes d ;;
  pushRows attributeValues 0 labels numOfAttributes d1.

(** The running sum of the inner loop of [#meanEachAttributeCategory]. *)
Definition attributeSum (attributeValues : list jsval) : number :=
  fold_left (fun s v => add s (ToNumber v)) attributeValues (Fin 0).

Definition attributeMean (attributeValues : list jsval) : number :=
  div (attributeSum attributeValues) (of_nat (length attributeValues)).

Definition meanCategory (c : category) : result category :=
  attributesValues <- defined (sortedAttributes c) ;;
  Ok (set_mean c (map attributeMean attributesValues)).

(** Apply a step to the object of every key, in [for ... in] order. *)
Definition forIn (f : category -> result category) (d : data) : result data :=
  mapM (fun kc => c' <- f (snd kc) ;; Ok (fst kc, c')) d.

Definition meanEachAttributeCategory (d : data) : result data :=
  forIn meanCategory d.

(** The running sum of the inner loop of [#standardDeviation]. *)
Definition squaredDifferences (attribute : list jsval) (attributeMeanValue : jsval)
  : number :=
  fold_left
    (fun s v => add s (Math_pow (sub (ToNumber v) (ToNumber attributeMeanValue)) 2))
    attribute (Fin 0).

(** One turn of the outer loop of [#standardDeviation]; the mean array is
    only read when the inner loop runs. *)
Definition standardDeviationAttribute (attributesMeanValue : option (list number))
  (i : nat) (attribute : list jsval) : result number :=
  sq <- match attribute with
        | [] => Ok (Fin 0)
        | _ :: _ =>
            m <- defined attributesMeanValue ;;
            Ok (squaredDifferences attribute (num_get m i))
        end ;;
  let variance := div sq (of_nat (length attribute)) in
  Ok (Math_sqrt variance).

Fixpoint standardDeviationAttributes (attributesMeanValue : option (list number))
  (i : nat) (attributes : list (list jsval)) : result (list number) :=
  match attributes with
  | [] => Ok []
  | attribute :: rest =>
      s <- standardDeviationAttribute attributesMeanValue i attribute ;;
      ss <- standardDeviationAttributes attributesMeanValue (S i) rest ;;
      Ok (s :: ss)
  end.

Definition standardDeviationCategory (c : category) : result category :=
  attributes <- defined (sortedAttributes c) ;;
  ss <- standardDeviationAttributes (mean c) 0 attributes ;;
  Ok (set_stDev c ss).

Definition standardDeviation (d : data) : result data :=
  forIn standardDeviationCategory d.

(** [fit(x, y)]: the value of [#data] when the call returns.  A call that
    throws yields [TypeError]. *)
Definition fit (x : list (list number)) (y : list nat) : result data :=
  d <- formatData x y ;;
  d1 <- meanEachAttributeCategory d ;;
  standardDeviation d1.

(** ** [predict] *)

Definition pdf (xInput : number) (meanTraining stdTraining : jsval) : number :=
  let mu := ToNumber meanTraining in
  let sigma := ToNumber stdTraining in
  mul (div (Fin 1) (mul (Math_sqrt (mul (Fin 2) Math_PI)) sigma))
      (Math_exp (div (neg (Math_pow (sub xInput mu) 2))
                     (mul (Fin 2) (Math_pow sigma 2)))).

(** Inner loop of [#calculatePDFPredictions]: the density of attribute [j]
    in every category. *)
Definition attributePredictions (d : data) (xInput : number) (j : nat)
  : result (list number) :=
  mapM (fun kc =>
          m <- defined (mean (snd kc)) ;;
          s <- defined (stDev (snd kc)) ;;
          Ok (pdf xInput (num_get m j) (num_get s j))) d.

Fixpoint calculatePDFPredictionsFrom (d : data) (row : list number) (j : nat)
  : result (list (list number)) :=
  match row with
  | [] => Ok []
  | xInput :: rest =>
      ap <- attributePredictions d xInput j ;;
      aps <- calculatePDFPredictionsFrom d rest (S j) ;;
      Ok (ap :: aps)
  end.

Definition calculatePDFPredictions (d : data) (row : list number)
  : result (list (list number)) :=
  calculatePDFPredictionsFrom d row 0.

Definition convertPDFPredictionsToLog (pdfPredictions : list (list number))
  : list (list number) :=
  map (map Math_log) pdfPredictions.

(** One turn of the inner loop of [#sumLogPDF]. *)
Definition sumLogStep (logs : list number) (sumLogPDF : list jsval) (h : nat)
  : list jsval :=
  match array_get sumLogPDF h with
  | JUndefined => array_set sumLogPDF h (num_get logs h)
  | JNum s => array_set sumLogPDF h (JNum (add s (ToNumber (num_get logs h))))
  end.

Definition sumLogPDF (pdfPredictionsLog : list (list number)) : result (list jsval) :=
  first <- defined (nth_error pdfPredictionsLog 0) ;;
  let numOfAttributes := length first in
  Ok (fold_left
        (fun acc logs => fold_left (sumLogStep logs) (seq 0 numOfAttributes) acc)
        pdfPredictionsLog []).

Definition convertLogToOriginal (sumLog : list jsval) : list number :=
  map (fun v => Math_exp (ToNumber v)) sumLog.

Definition pSum (expSumLogPDF : list number) : number :=
  fold_left add expSumLogPDF (Fin 0).

Definition normalizeProbabilities (expSumLogPDF : list number) : list number :=
  map (fun e => div e (pSum expSumLogPDF)) expSumLogPDF.

Definition findHighestProbabilityIndex (normalizedProbabilities : list number)
  : nat :=
  fold_left
    (fun maxValueIndex j =>
       if gt (ToNumber (num_get normalizedProbabilities j))
             (ToNumber (num_get normalizedProbabilities maxValueIndex))
       then j else maxValueIndex)
    (seq 0 (length normalizedProbabilities)) 0%nat.

(** The values that [predict] hands to [#normalizeProbabilities] for one
    input row. *)
Definition expSumLogPDF (d : data) (row : list number) : result (list number) :=
  pdfPredictions <- calculatePDFPredictions d row ;;
  s <- sumLogPDF (convertPDFPredictionsToLog pdfPredictions) ;;
  Ok (convertLogToOriginal s).

(** The values that [predict] hands to [#findHighestProbabilityIndex]. *)
Definition normalizedProbabilities (d : data) (row : list number)
  : result (list number) :=
  e <- expSumLogPDF d row ;;
  Ok (normalizeProbabilities e).

(** One turn of the loop of [predict]. *)
Definition predictRow (d : data) (row : list number) : result nat :=
  p <- normalizedProbabilities d row ;;
  Ok (findHighestProbabilityIndex p).

(** [predict(x)] on an instance whose [#data] is [d].  On an instance that
    was never fitted [#data] is [undefined], over which [for ... in] runs no
    turn, as over the empty object [[]]. *)
Definition predict (d : data) (x : list (list number)) : result (list nat) :=
  mapM (predictRow d) x.

(** ** [accuracyScore] *)

(** [y[i] === predictions[i] + 1]; a missing cell makes it false. *)
Definition correctAt (predictions y : list nat) (i : nat) : bool :=
  match nth_error y i, nth_error predictions i with
  | Some l, Some p => Nat.eqb l (p + 1)
  | _, _ => false
  end.

Definition countCorrectlyClassifiedPredictions (predictions y : list nat)
  (totalPredictionsCount : nat) : nat :=
  fold_left
    (fun correctlyClassified i =>
       if correctAt predictions y i then (correctlyClassified + 1)%nat
       else correctlyClassified)
    (seq 0 totalPredictionsCount) 0%nat.

Definition accuracyScore (predictions y : list nat) : number :=
  let totalPredictionsCount := length predictions in
  let correctlyClassified :=
    countCorrectlyClassifiedPredictions predictions y totalPredictionsCount in
  div (of_nat correctlyClassified) (of_nat totalPredictionsCount).

(** * The arithmetic loops over any arithmetic

    The loops of [#meanEachAttributeCategory], [#standardDeviation] and
    [#normalizeProbabilities] once more, over a number type [N] with its
    zero, [+], [-], [/], [Math.pow(., 2)], [Math.sqrt] and the conversion of
    a length.  The cells are numbers already ([ToNumber] applied). *)

Section Loops.

Context {N : Type}.
Variables (zero : N) (plus minus quotient : N -> N -> N).
Variables (square root : N -> N) (count : nat -> N).





Definition pSumWith (expSumLogPDF : list N) : N :=
  fold_left plus expSumLogPDF zero.

Definition normalizeProbabilitiesWith (expSumLogPDF : list N) : list N :=
  map (fun e => quotient e (pSumWith expSumLogPDF)) expSumLogPDF.

End Loops.

(** ** Binary64 *)




Definition normalizeProbabilities64 (expSumLogPDF : list float) : list float :=
  normalizeProbabilitiesWith 0%float PrimFloat.add PrimFloat.div expSumLogPDF.

Definition pSum64 (expSumLogPDF : list float) : float :=
  pSumWith 0%float PrimFloat.add expSumLogPDF.



(** ** Rounded operations on the reals

    The unit roundoff of binary64 and half its smallest positive number:
    a sum of two numbers is rounded with a relative error of at most
    [binary64_u]; a quotient with that relative error or, when it
    underflows, with an absolute error of at most [binary64_eta]. *)
Definition binary64_u : R := / 2 ^ 53.

Definition binary64_eta : R := / 2 ^ 1075.

(** The tolerance that the normalized values are held to. *)
Definition tolerance : R := 1 / 1000000000.

(** [plus] rounds a sum with the relative error [u]; [quotient] rounds a
    quotient with the relative error [u] or the absolute error [eta], and
    keeps the sign of a quotient that is not negative.  Binary64 addition
    and division do so with [binary64_u] and [binary64_eta] on the binary64
    numbers whose sum or quotient does not overflow.  An arithmetic that
    agrees with them there and is exact on all other reals satisfies
    [rounds], and computes what binary64 computes on every run without
    overflow. *)
Definition rounds (u eta : R) (plus quotient : R -> R -> R) : Prop :=
  (forall a b, Rabs (plus a b - (a + b)) <= u * Rabs (a + b)) /\
  (forall a b, 0 < b -> Rabs (quotient a b - a / b) <= u * Rabs (a / b) + eta) /\
  (forall a b, 0 <= a -> 0 < b -> 0 <= quotient a b).

(** * Vocabulary of the statements *)

(** [r] is the position of the first maximum of [p] for the comparison of
    the language: no cell is greater than cell [r], and no earlier cell is
    greater than or equal to it. *)
Definition first_maximum (p : list number) (r : nat) : Prop :=
  (r < length p)%nat /\
  (forall j x, nth_error p j = Some x -> gt x (nth r p NaN) = false) /\
  (forall j x, (j < r)%nat -> nth_error p j = Some x -> ge x (nth r p NaN) = false).

(** The loop of [#findHighestProbabilityIndex] from index [n] on. *)
Definition findFrom (p : list number) (n k m : nat) : nat :=
  fold_left
    (fun maxValueIndex j =>
       if gt (ToNumber (num_get p j)) (ToNumber (num_get p maxValueIndex))
       then j else maxValueIndex)
    (seq n k) m.

Definition scanned (p : list number) (n m : nat) : Prop :=
  (forall j, (j < n)%nat -> gt (nth j p NaN) (nth m p NaN) = false) /\
  (forall j, (j < m)%nat -> ge (nth j p NaN) (nth m p NaN) = false) /\
  (m = 0 \/ m < n)%nat.

(** The number of positions where the label is the prediction plus one. *)
Definition agreements (predictions y : list nat) : nat :=
  length (filter (fun pl => Nat.eqb (snd pl) (fst pl + 1)) (combine predictions y)).

(** One turn of the loop of [#countCorrectlyClassifiedPredictions]. *)
Definition countStep (predictions y : list nat) (correctlyClassified i : nat) : nat :=
  if correctAt predictions y i then (correctlyClassified + 1)%nat
  else correctlyClassified.

(** The sum of a list of reals and of a list of numbers. *)
Definition Rsum (rs : list R) : R := fold_right Rplus 0 rs.

Definition sum (xs : list number) : number := fold_right add (Fin 0) xs.

(** [this.#data[category].mean[j]] and [this.#data[category].stDev[j]] as
    [#calculatePDFPredictions] reads them on a fitted model. *)
Definition meanAt (c : category) (j : nat) : jsval :=
  match mean c with Some m => num_get m j | None => JUndefined end.

Definition stDevAt (c : category) (j : nat) : jsval :=
  match stDev c with Some s => num_get s j | None => JUndefined end.

(** The cells of an array with their indices. *)
Definition indexedFrom {A : Type} (j : nat) (l : list A) : list (nat * A) :=
  combine (seq j (length l)) l.

Definition indexed {A : Type} (l : list A) : list (nat * A) := indexedFrom 0 l.

(** The natural logarithm of the Gaussian density of attribute [j] of the
    input under the statistics of class [c]. *)
Definition logDensity (c : category) (jx : nat * number) : number :=
  Math_log (pdf (snd jx) (meanAt c (fst jx)) (stDevAt c (fst jx))).

(** The exponential of the sum, over all attributes, of the log-densities
    of class [c]. *)
Definition classValue (c : category) (row : list number) : number :=
  Math_exp (sum (map (logDensity c) (indexed row))).

(** The sum of a sequence that is not empty the way [#sumLogPDF] builds
    it: the first term starts the running sum and every further term is
    added to it, in order. *)
Definition runningSum (xs : list number) : number :=
  fold_left add (tl xs) (hd NaN xs).

(** The exponential of the running sum, over the attributes in order, of
    the log-densities of class [c]. *)
Definition classLikelihood (c : category) (row : list number) : number :=
  Math_exp (runningSum (map (logDensity c) (indexed row))).

(** Every class has its [mean] and [stDev] arrays. *)
Definition trained (d : data) : Prop :=
  Forall (fun kc => mean (snd kc) <> None /\ stDev (snd kc) <> None) d.

(** The object with the keys [a], ..., [a + n - 1] and the value [f k] at
    key [k]; [objOf n f] has the keys 1..n. *)
Definition objFrom (a n : nat) (f : nat -> category) : data :=
  map (fun k => (k, f k)) (seq a n).

Definition objOf (n : nat) (f : nat -> category) : data := objFrom 1 n f.

(** The counter of the first loop of [#formatData] when the loop ends. *)
Definition numberOfClasses (y : list nat) : nat := fst (addCategories y 0%nat []).

(** A class object that has its [sortedAttributes] only. *)
Definition unfitted (cols : list (list jsval)) : category :=
  mkCategory (Some cols) None None.

(** The rows of [x] whose label is [c], in index order. *)
Definition classRows (c : nat) (x : list (list number)) (y : list nat)
  : list (list number) :=
  map fst (filter (fun rl => Nat.eqb (snd rl) c) (combine x y)).

(** The cells [row[j]] of a list of rows, as the third loop of
    [#formatData] reads them. *)
Definition column (j : nat) (rows : list (list number)) : list jsval :=
  map (fun row => num_get row j) rows.

(** Every array of [cols] extended by the matching column of [rows]. *)
Definition appendRows (cols : list (list jsval)) (rows : list (list number))
  : list (list jsval) :=
  map (fun jc => snd jc ++ column (fst jc) rows) (indexed cols).

(** The arrays from index [j] on, each extended by one cell of [row]. *)
Definition extendFrom (j : nat) (cols : list (list jsval)) (row : list number)
  : list (list jsval) :=
  map (fun jc => snd jc ++ [num_get row (fst jc)]) (indexedFrom j cols).

Definition updCols (cols : nat -> list (list jsval)) (k : nat)
  (v : list (list jsval)) : nat -> list (list jsval) :=
  fun k' => if Nat.eqb k' k then v else cols k'.

(** [sortedAttributes] of class [c] once [#formatData] has run: one array
    per attribute of the first row, holding that attribute of the rows of
    class [c]. *)
Definition partitionOf (x : list (list number)) (y : list nat) (c : nat)
  : list (list jsval) :=
  map (fun j => column j (classRows c x y)) (seq 0 (length (hd [] x))).

(** The standard deviation that [#standardDeviation] stores for one array
    of attribute values. *)
Definition populationStdDev (attribute : list jsval) : number :=
  Math_sqrt (div (squaredDifferences attribute (JNum (attributeMean attribute)))
                 (of_nat (length attribute))).

Definition fittedCategory (x : list (list number)) (y : list nat) (c : nat)
  : category :=
  let cols := partitionOf x y c in
  mkCategory (Some cols) (Some (map attributeMean cols))
             (Some (map populationStdDev cols)).

(** The value of [#data] after [fit(x, y)]. *)
Definition fittedModel (x : list (list number)) (y : list nat) : data :=
  objOf (numberOfClasses y) (fittedCategory x y).

(** The arithmetic mean and the population standard deviation of a
    sequence of numbers: the sum divided by the count, and the square root
    of the sum of the squared deviations from the mean divided by the
    count (not by the count minus one). *)
Definition arithmeticMean (xs : list number) : number :=
  div (sum xs) (of_nat (length xs)).

Definition populationStandardDeviation (xs : list number) : number :=
  Math_sqrt
    (div (sum (map (fun x => Math_pow (sub x (arithmeticMean xs)) 2) xs))
         (of_nat (length xs))).

(** The same two statistics of a sequence of reals. *)
Definition Rmean (rs : list R) : R := Rsum rs / INR (length rs).

Definition Rvariance (rs : list R) : R :=
  Rsum (map (fun r => (r - Rmean rs) * (r - Rmean rs)) rs) / INR (length rs).

(** The training set of the worked example: eight rows of one attribute,
    all of class 1. *)
Definition sampleValues : list R := [2; 4; 4; 4; 5; 5; 7; 9].
Definition sampleX : list (list number) := map (fun r => [Fin r]) sampleValues.
Definition sampleY : list nat := repeat 1%nat 8.

(** The model that [fit] leaves on the worked example. *)
Definition sampleModel : data :=
  [(1%nat, mkCategory (Some [map (fun r => JNum (Fin r)) sampleValues])
                      (Some [Fin 5]) (Some [Fin 2]))].

(** The values of [y] are the contiguous range 1..K. *)
Definition labelRange (K : nat) (y : list nat) : Prop :=
  forall l, In l y <-> (1 <= l <= K)%nat.

(** Classes appear for the first time in increasing order: when [c] shows
    up, every smaller class has shown up before. *)
Definition firstAppearanceOrdered (y : list nat) : Prop :=
  forall i c c',
    nth_error y i = Some c -> (1 <= c' < c)%nat ->
    exists i', (i' < i)%nat /\ nth_error y i' = Some c'.

(** Every label is at least 1 and at most one above the labels before it,
    [n] being the largest label seen so far. *)
Fixpoint growing (n : nat) (labels : list nat) : Prop :=
  match labels with
  | [] => True
  | l :: rest => (1 <= l <= n + 1)%nat /\ growing (Nat.max n l) rest
  end.

(** A training set with a constant attribute: two rows of class 1 with
    the same value. *)
Definition constantX : list (list number) := [[Fin 1]; [Fin 1]].
Definition constantY : list nat := [1; 1]%nat.
Definition constantModel : data :=
  [(1%nat, mkCategory (Some [[JNum (Fin 1); JNum (Fin 1)]])
                      (Some [Fin 1]) (Some [Fin 0]))].

(** The Gaussian density on the reals. *)
Definition gaussian (v mu sigma : R) : R :=
  1 / (sqrt (2 * PI) * sigma) * exp (- ((v - mu) * (v - mu)) / (2 * (sigma * sigma))).

(** A training set with two classes and two attributes, the rows of the
    two classes alternating, and the model that [fit] leaves on it. *)
Definition twoX : list (list number) :=
  [[Fin 1; Fin 2]; [Fin 7; Fin 1]; [Fin 3; Fin 6]; [Fin 11; Fin 3]].

Definition twoY : list nat := [1; 2; 1; 2]%nat.

Definition twoModel : data :=
  [(1%nat, mkCategory (Some [[JNum (Fin 1); JNum (Fin 3)]; [JNum (Fin 2); JNum (Fin 6)]])
                      (Some [Fin 2; Fin 4]) (Some [Fin 1; Fin 2]));
   (2%nat, mkCategory (Some [[JNum (Fin 7); JNum (Fin 11)]; [JNum (Fin 1); JNum (Fin 3)]])
                      (Some [Fin 9; Fin 2]) (Some [Fin 2; Fin 1]))].

(** Two rows to classify, and the values that [predict] hands to
    [#normalizeProbabilities] for the row [(a, b)]. *)
Definition twoRows : list (list number) := [[Fin 2; Fin 4]; [Fin 9; Fin 2]].

Definition twoValues (a b : R) : list R :=
  [exp (ln (gaussian a 2 1) + (ln (gaussian b 4 2) + 0));
   exp (ln (gaussian a 9 2) + (ln (gaussian b 2 1) + 0))].

(** An arithmetic that rounds for the worse: every sum up and every
    quotient down, by the unit roundoff of binary64. *)
Definition addUp (a b : R) : R := (a + b) * (1 + binary64_u).

Definition divDown (a b : R) : R := a / b * (1 - binary64_u).


(** Inputs whose shapes do not match: a second row longer than the first,
    and one label more than there are rows. *)
Definition raggedX : list (list number) := [[Fin 1]; [Fin 2; Fin 3]].
Definition raggedY : list nat := [1; 1; 1]%nat.

(** * The caller: [formatCsvData] and [runNaiveBayes] *)

(** The own properties of [labelsObj], in order of creation.  The program
    only reads single properties and the number of keys. *)
Definition labelsObject : Type := list (string * nat).

Fixpoint own_get (label : string) (o : labelsObject) : option nat :=
  match o with
  | [] => None
  | (l, n) :: o' => if String.eqb label l then Some n else own_get label o'
  end.

Fixpoint own_set (label : string) (n : nat) (o : labelsObject) : labelsObject :=
  match o with
  | [] => [(label, n)]
  | (l, m) :: o' =>
      if String.eqb label l then (l, n) :: o' else (l, m) :: own_set label n o'
  end.

(** What [labelsObj[label]] evaluates to: an own property, a property
    inherited from [Object.prototype] (a function or an object), or
    [undefined]. *)
Inductive labelValue : Type :=
| OwnCode (n : nat)
| InheritedValue
| NoValue.

Definition labelsObj_get (inherited : string -> bool) (o : labelsObject)
  (label : string) : labelValue :=
  match own_get label o with
  | Some n => OwnCode n
  | None => if inherited label then InheritedValue else NoValue
  end.

(** [!v]. *)
Definition falsy (v : labelValue) : bool :=
  match v with
  | OwnCode n => Nat.eqb n 0
  | InheritedValue => false
  | NoValue => true
  end.

(** The pushed value as the classifier sees it.  An inherited value is no
    number; like the label 0 it is never above the counter of
    [#formatData], never a key of [#data] and never equal to a prediction
    plus one, and it is written 0 here. *)
Definition classCode (v : labelValue) : nat :=
  match v with
  | OwnCode n => n
  | InheritedValue | NoValue => 0%nat
  end.

(** The [else] branch of the inner loop of [formatCsvData]: the label of a
    row, on the pair of [labelsObj] and [labelsArray]. *)
Definition labelStep (inherited : string -> bool) (label : string)
  (st : labelsObject * list nat) : labelsObject * list nat :=
  let '(labelsObj, labelsArray) := st in
  let labelsObj' :=
    if falsy (labelsObj_get inherited labelsObj label)
    then
      let numOfLabels :=
        if Nat.eqb (length labelsArray) 0 then 1%nat
        else (length labelsObj + 1)%nat in
      own_set label numOfLabels labelsObj
    else labelsObj in
  (labelsObj', labelsArray ++ [classCode (labelsObj_get inherited labelsObj' label)]).

(** The inner loop of [formatCsvData] from key [j] on; [values] are the
    values of the keys not yet visited. *)
Fixpoint formatRow (parseFloat : string -> number) (inherited : string -> bool)
  (values : list string) (j numOfKeys : nat) (formatedData : list number)
  (st : labelsObject * list nat) : list number * (labelsObject * list nat) :=
  match values with
  | [] => (formatedData, st)
  | v :: rest =>
      if Nat.ltb j (numOfKeys - 1)
      then formatRow parseFloat inherited rest (S j) numOfKeys
             (formatedData ++ [parseFloat v]) st
      else formatRow parseFloat inherited rest (S j) numOfKeys
             formatedData (labelStep inherited v st)
  end.

(** The outer loop of [formatCsvData]. *)
Fixpoint formatRows (parseFloat : string -> number) (inherited : string -> bool)
  (data : list (list string)) (output : list (list number))
  (st : labelsObject * list nat) : list (list number) * (labelsObject * list nat) :=
  match data with
  | [] => (output, st)
  | row :: rest =>
      let '(formatedData, st') :=
        formatRow parseFloat inherited row 0 (length row) [] st in
      formatRows parseFloat inherited rest (output ++ [formatedData]) st'
  end.

(** [runNaiveBayes(data, labelsArray)] on a fresh classifier: the number
    whose two-digit rendering is printed, or the [TypeError] thrown. *)
Definition runNaiveBayes (data : list (list number)) (labelsArray : list nat)
  : result number :=
  d <- fit data labelsArray ;;
  preds <- predict d data ;;
  Ok (mul (accuracyScore preds labelsArray) (Fin 100)).

(** [formatCsvData(data)]. *)
Definition formatCsvData (parseFloat : string -> number)
  (inherited : string -> bool) (data : list (list string)) : result number :=
  let '(output, (_, labelsArray)) :=
    formatRows parseFloat inherited data [] ([], []) in
  runNaiveBayes output labelsArray.

(** The labels of the parsed rows: the last value of every row that has a
    value. *)
Definition rowLabels (data : list (list string)) : list string :=
  flat_map (fun row => match row with
                       | [] => []
                       | _ :: _ => [last row EmptyString]
                       end) data.

(** The code of a label under the final [labelsObj]. *)
Definition codeOf (o : labelsObject) (label : string) : nat :=
  match own_get label o with
  | Some n => n
  | None => 0%nat
  end.


(** One training row and one label more than rows: the second label
    opens a class that holds no row. *)
Definition surplusX : list (list number) := [[Fin 1]].
Definition surplusY : list nat := [1; 2]%nat.

(** The label loop alone: the labels of the rows, one after the other, on
    the pair of [labelsObj] and [labelsArray]. *)
Definition encodeLabels (inherited : string -> bool) (labels : list string)
  (st : labelsObject * list nat) : labelsObject * list nat :=
  fold_left (fun st l => labelStep inherited l st) labels st.

(** What holds of [labelsObj] and [labelsArray] once the labels [ls] have
    been seen: the codes of [labelsObj] are 1, 2, ... in order of creation,
    its keys are the labels seen that are no inherited name, each once, and
    [labelsArray] holds the code of every label seen. *)
Definition encoded (inherited : string -> bool) (ls : list string)
  (o : labelsObject) (arr : list nat) : Prop :=
  map snd o = seq 1 (length o) /\
  arr = map (codeOf o) ls /\
  NoDup (map fst o) /\
  (forall l, In l (map fst o) <-> In l ls /\ inherited l = false).

(** A parsed file of three rows with two measurements and a species, a
    reading of numbers that only knows the values of that file, and a set
    of inherited names. *)
Definition sampleCsv : list (list string) :=
  [["1.0"; "2.0"; "setosa"]; ["3.0"; "4.0"; "virginica"]; ["1.5"; "2.5"; "setosa"]]%string.

Definition sampleParse (s : string) : number :=
  if String.eqb s "1.0" then Fin 1
  else if String.eqb s "2.0" then Fin 2
  else if String.eqb s "3.0" then Fin 3
  else if String.eqb s "4.0" then Fin 4
  else if String.eqb s "1.5" then Fin (3 / 2)
  else if String.eqb s "2.5" then Fin (5 / 2)
  else NaN.

Definition sampleInherited (s : string) : bool :=
  existsb (String.eqb s) ["constructor"; "toString"; "valueOf"; "__proto__"]%string.

(** A training set whose second row lacks the second attribute. *)
Definition shortRowX : list (list number) := [[Fin 1; Fin 2]; [Fin 3]].
Definition shortRowY : list nat := [1; 1]%nat.

(** * Properties *)

(** ** Arithmetic of [number] *)

Section NumberFacts.

Implicit Types x y z : number.

Lemma add_comm x y : add x y = add y x.
Proof. destruct x, y; simpl; try reflexivity. f_equal; lra. Qed.

Lemma add_assoc x y z : add x (add y z) = add (add x y) z.
Proof. destruct x, y, z; simpl; try reflexivity. f_equal; lra. Qed.

Lemma add_0_l x : add (Fin 0) x = x.
Proof. destruct x; simpl; try reflexivity. f_equal; lra. Qed.

Lemma add_0_r x : add x (Fin 0) = x.
Proof. rewrite add_comm. apply add_0_l. Qed.

Lemma add_NaN_l x : add NaN x = NaN.
Proof. reflexivity. Qed.

Lemma add_NaN_r x : add x NaN = NaN.
Proof. destruct x; reflexivity. Qed.

Lemma div_NaN_r x : div x NaN = NaN.
Proof. destruct x; reflexivity. Qed.

Lemma gt_irrefl x : gt x x = false.
Proof.
  destruct x; simpl; try reflexivity.
  destruct (Rlt_dec r r); [lra | reflexivity].
Qed.

Lemma gt_NaN_r x : gt x NaN = false.
Proof. destruct x; reflexivity. Qed.

(** If [y] beats [z] and [x] does not, then [x] is not even equal to [y]. *)
Lemma ge_false_of_gt x y z :
  gt y z = true -> gt x z = false -> ge x y = false.
Proof.
  destruct x, y, z; simpl; try congruence.
  destruct (Rlt_dec r1 r0), (Rlt_dec r1 r), (Rlt_dec r r0);
    try congruence; lra.
Qed.

Lemma gt_false_of_ge x y : ge x y = false -> gt x y = false.
Proof.
  destruct x, y; simpl; try congruence.
  destruct (Rlt_dec r r0), (Rlt_dec r0 r); try congruence; lra.
Qed.

Lemma sgn_pos r : 0 < r -> sgn r = Gt.
Proof. unfold sgn. intros. destruct (Rlt_dec 0 r); [reflexivity | lra]. Qed.

Lemma sgn_neg r : r < 0 -> sgn r = Lt.
Proof.
  unfold sgn. intros.
  destruct (Rlt_dec 0 r); [lra |]. destruct (Rlt_dec r 0); [reflexivity | lra].
Qed.

Lemma sgn_0 : sgn 0 = Eq.
Proof.
  unfold sgn.
  destruct (Rlt_dec 0 0); [lra |]. destruct (Rlt_dec 0 0); [lra | reflexivity].
Qed.

Lemma div_Fin a b : b <> 0 -> div (Fin a) (Fin b) = Fin (a / b).
Proof. intros. simpl. destruct (Req_dec_T b 0); [contradiction | reflexivity]. Qed.

Lemma div_0_0 : div (Fin 0) (Fin 0) = NaN.
Proof.
  simpl. destruct (Req_dec_T 0 0); [| congruence]. now rewrite sgn_0.
Qed.

Lemma Math_sqrt_Fin r : 0 <= r -> Math_sqrt (Fin r) = Fin (sqrt r).
Proof. intros. simpl. destruct (Rlt_dec r 0); [lra | reflexivity]. Qed.

Lemma Math_pow_2_Fin r : Math_pow (Fin r) 2 = Fin (r * r).
Proof. simpl. f_equal. lra. Qed.

Lemma Math_pow_2_NaN : Math_pow NaN 2 = NaN.
Proof. reflexivity. Qed.

End NumberFacts.

(** ** The first maximum of an array *)

Lemma ToNumber_num_get p j : ToNumber (num_get p j) = nth j p NaN.
Proof.
  unfold num_get. revert j. induction p as [| a p IH]; intros [| j]; simpl; auto.
Qed.

Lemma findFrom_scanned p k : forall n m,
  scanned p n m -> scanned p (n + k) (findFrom p n k m).
Proof.
  induction k as [| k IH]; intros n m Hs.
  - rewrite Nat.add_0_r. exact Hs.
  - unfold findFrom. simpl. fold (findFrom p (S n) k).
    replace (n + S k)%nat with (S n + k)%nat by lia.
    apply IH. rewrite !ToNumber_num_get.
    destruct Hs as (H1 & H2 & H3).
    destruct (gt (nth n p NaN) (nth m p NaN)) eqn:E.
    + split; [| split].
      * intros j Hj. destruct (Nat.eq_dec j n) as [-> | Hne].
        -- apply gt_irrefl.
        -- apply gt_false_of_ge.
           apply ge_false_of_gt with (z := nth m p NaN); auto.
           apply H1. lia.
      * intros j Hj. apply ge_false_of_gt with (z := nth m p NaN); auto.
      * lia.
    + split; [| split]; auto.
      * intros j Hj. destruct (Nat.eq_dec j n) as [-> | Hne]; auto.
        apply H1. lia.
      * lia.
Qed.

Lemma findHighestProbabilityIndex_scanned p :
  scanned p (length p) (findHighestProbabilityIndex p).
Proof.
  change (scanned p (0 + length p) (findFrom p 0 (length p) 0)).
  apply findFrom_scanned. repeat split; intros; lia.
Qed.

Lemma findHighestProbabilityIndex_first_maximum p :
  p <> [] -> first_maximum p (findHighestProbabilityIndex p).
Proof.
  intros Hp. destruct (findHighestProbabilityIndex_scanned p) as (H1 & H2 & H3).
  split; [| split].
  - destruct p; [congruence |]. simpl in *. lia.
  - intros j x Hj. rewrite <- (nth_error_nth _ _ NaN Hj).
    apply H1. apply nth_error_Some. congruence.
  - intros j x Hlt Hj. rewrite <- (nth_error_nth _ _ NaN Hj). apply H2, Hlt.
Qed.

(** Nothing beats cell 0: the loop never leaves index 0. *)
Lemma findFrom_stays p k : forall n,
  (forall j, gt (nth j p NaN) (nth 0 p NaN) = false) ->
  findFrom p n k 0 = 0%nat.
Proof.
  induction k as [| k IH]; intros n H; [reflexivity |].
  unfold findFrom. simpl. rewrite !ToNumber_num_get, H. apply IH, H.
Qed.

(** ** Counting the correct predictions *)

Section Accuracy.

Lemma countStep_acc predictions y l : forall acc,
  fold_left (countStep predictions y) l acc
  = (acc + fold_left (countStep predictions y) l 0)%nat.
Proof.
  induction l as [| i l IH]; intros acc; simpl; [lia |].
  rewrite IH, (IH (countStep predictions y 0 i)).
  unfold countStep. destruct (correctAt predictions y i); lia.
Qed.

Lemma countStep_shift p ps l ls k : forall n acc,
  fold_left (countStep (p :: ps) (l :: ls)) (seq (S n) k) acc
  = fold_left (countStep ps ls) (seq n k) acc.
Proof.
  induction k as [| k IH]; intros n acc; [reflexivity |].
  simpl. rewrite IH. reflexivity.
Qed.

Lemma countStep_no_labels predictions l : forall acc,
  fold_left (countStep predictions []) l acc = acc.
Proof.
  induction l as [| i l IH]; intros acc; simpl; [reflexivity |].
  rewrite IH. unfold countStep, correctAt. now destruct i.
Qed.

Lemma count_agreements predictions : forall y,
  countCorrectlyClassifiedPredictions predictions y (length predictions)
  = agreements predictions y.
Proof.
  unfold countCorrectlyClassifiedPredictions.
  change (fun c i => if correctAt ?p ?y i then (c + 1)%nat else c)
    with (countStep p y).
  induction predictions as [| p ps IH]; intros y; [reflexivity |].
  destruct y as [| l ls].
  - now rewrite countStep_no_labels.
  - cbn [length seq fold_left]. rewrite countStep_shift, countStep_acc, IH.
    unfold agreements, countStep, correctAt. cbn.
    destruct (Nat.eqb l (p + 1)); simpl; lia.
Qed.

Lemma agreements_le predictions y : (agreements predictions y <= length predictions)%nat.
Proof.
  unfold agreements.
  etransitivity; [apply filter_length_le |].
  rewrite length_combine. lia.
Qed.

Lemma accuracyScore_agreements predictions y :
  accuracyScore predictions y
  = div (of_nat (agreements predictions y)) (of_nat (length predictions)).
Proof. unfold accuracyScore. now rewrite count_agreements. Qed.

End Accuracy.

Lemma accuracyScore_ratio predictions y :
  predictions <> [] ->
  accuracyScore predictions y
    = Fin (INR (agreements predictions y) / INR (length predictions))
  /\ 0 <= INR (agreements predictions y) / INR (length predictions) <= 1.
Proof.
  intros Hne.
  assert (Hn : 0 < INR (length predictions)).
  { apply lt_0_INR. destruct predictions; [congruence | simpl; lia]. }
  split.
  - rewrite accuracyScore_agreements. apply div_Fin. lra.
  - pose proof (agreements_le predictions y) as Hle.
    apply le_INR in Hle. pose proof (pos_INR (agreements predictions y)).
    split.
    + apply Rmult_le_pos; [assumption |]. left. now apply Rinv_0_lt_compat.
    + apply Rmult_le_reg_r with (r := INR (length predictions)); [assumption |].
      unfold Rdiv. rewrite Rmult_assoc, Rinv_l by lra. lra.
Qed.

Lemma accuracyScore_nil y : accuracyScore [] y = NaN.
Proof. rewrite accuracyScore_agreements. exact div_0_0. Qed.

(** C5.  For a non-empty sequence of predictions and a label vector of the
    same length, [accuracyScore] is the number of positions [i] with
    [y[i] = predictions[i] + 1] divided by the number of predictions, a
    value between 0 and 1; predictions [0,1,0] against labels [1,2,1] score
    1 and predictions [0,0,0] against the same labels score 2/3. *)
Theorem accuracyScore_fraction (predictions y : list nat) :
  predictions <> [] ->
  length predictions = length y ->
  accuracyScore predictions y
    = Fin (INR (agreements predictions y) / INR (length predictions))
  /\ 0 <= INR (agreements predictions y) / INR (length predictions) <= 1
  /\ accuracyScore [0; 1; 0]%nat [1; 2; 1]%nat = Fin 1
  /\ accuracyScore [0; 0; 0]%nat [1; 2; 1]%nat = Fin (2 / 3).
Proof.
  intros Hne _.
  destruct (accuracyScore_ratio predictions y Hne) as [H1 H2].
  split; [exact H1 |]. split; [exact H2 |]. split.
  - rewrite accuracyScore_agreements.
    change (div (Fin (INR 3)) (Fin (INR 3)) = Fin 1).
    rewrite div_Fin; simpl; [f_equal; field | lra].
  - rewrite accuracyScore_agreements.
    change (div (Fin (INR 2)) (Fin (INR 3)) = Fin (2 / 3)).
    rewrite div_Fin; simpl; [f_equal; field | lra].
Qed.

Lemma accuracyScore_fraction_witness :
  accuracyScore [0; 0; 0]%nat [1; 2; 1]%nat
    = Fin (INR (agreements [0; 0; 0]%nat [1; 2; 1]%nat) / INR 3).
Proof.
  apply (accuracyScore_fraction [0; 0; 0]%nat [1; 2; 1]%nat).
  - discriminate.
  - reflexivity.
Defined.

(** ** Sums and normalization *)

Section Sums.

Lemma fold_left_add_sum xs : fold_left add xs (Fin 0) = sum xs.
Proof.
  apply fold_symmetric.
  - apply add_assoc.
  - intros x. apply add_comm.
Qed.

Lemma fold_left_add_Fin rs : forall a,
  fold_left add (map Fin rs) (Fin a) = Fin (a + Rsum rs).
Proof.
  induction rs as [| r rs IH]; intros a; simpl.
  - f_equal. lra.
  - rewrite IH. f_equal. lra.
Qed.

Lemma fold_left_add_not_Fin xs : forall a,
  (forall r, a <> Fin r) -> forall s, fold_left add xs a <> Fin s.
Proof.
  induction xs as [| x xs IH]; intros a Ha s; simpl; [apply Ha |].
  apply IH. intros r. destruct a, x; simpl; try discriminate.
  all: exfalso; eapply Ha; reflexivity.
Qed.

(** A finite total leaves no room for a special value among the terms. *)
Lemma fold_left_add_Fin_inv xs : forall a s,
  fold_left add xs (Fin a) = Fin s ->
  exists rs, xs = map Fin rs /\ s = a + Rsum rs.
Proof.
  induction xs as [| x xs IH]; intros a s H; simpl in H.
  - exists []. split; [reflexivity |]. injection H as <-. simpl. lra.
  - destruct x as [r | | |].
    + simpl in H. apply IH in H. destruct H as (rs & -> & ->).
      exists (r :: rs). split; [reflexivity |]. simpl. lra.
    + exfalso. revert H. apply fold_left_add_not_Fin. discriminate.
    + exfalso. revert H. apply fold_left_add_not_Fin. discriminate.
    + exfalso. revert H. apply fold_left_add_not_Fin. discriminate.
Qed.

Lemma fold_left_add_NaN xs : fold_left add xs NaN = NaN.
Proof. induction xs as [| x xs IH]; simpl; auto. Qed.

Lemma Rsum_scale rs s : Rsum (map (fun r => r / s) rs) = Rsum rs / s.
Proof.
  induction rs as [| r rs IH]; simpl.
  - unfold Rdiv. lra.
  - rewrite IH. unfold Rdiv. lra.
Qed.

Lemma normalizeProbabilities_Fin rs s :
  s <> 0 -> pSum (map Fin rs) = Fin s ->
  normalizeProbabilities (map Fin rs) = map Fin (map (fun r => r / s) rs).
Proof.
  intros Hs Hsum. unfold normalizeProbabilities. rewrite Hsum.
  rewrite !map_map. apply map_ext. intros r. now apply div_Fin.
Qed.

Lemma normalizeProbabilities_length e :
  length (normalizeProbabilities e) = length e.
Proof. apply length_map. Qed.

(** A total that is [NaN] turns every normalized value into [NaN]. *)
Lemma normalizeProbabilities_NaN e x :
  pSum e = NaN -> In x (normalizeProbabilities e) -> x = NaN.
Proof.
  intros Hsum Hin. unfold normalizeProbabilities in Hin. rewrite Hsum in Hin.
  apply in_map_iff in Hin. destruct Hin as (y & <- & _). apply div_NaN_r.
Qed.

Lemma pSum_NaN e : In NaN e -> pSum e = NaN.
Proof.
  unfold pSum. generalize (Fin 0).
  induction e as [| x e IH]; intros a Hin; [contradiction |].
  destruct Hin as [-> | Hin]; simpl.
  - rewrite add_NaN_r. apply fold_left_add_NaN.
  - now apply IH.
Qed.

End Sums.

(** ** The pipeline of [predict] on a trained model *)

Section Pipeline.

Lemma attributePredictions_trained d xInput j :
  trained d ->
  attributePredictions d xInput j
  = Ok (map (fun kc => pdf xInput (meanAt (snd kc) j) (stDevAt (snd kc) j)) d).
Proof.
  unfold attributePredictions, trained, meanAt, stDevAt.
  induction 1 as [| [k c] d [Hm Hs] _ IH]; [reflexivity |].
  cbn [mapM snd map] in *. rewrite IH.
  destruct (mean c); [| congruence]. destruct (stDev c); [| congruence].
  reflexivity.
Qed.

Lemma calculatePDFPredictionsFrom_trained d row : forall j,
  trained d ->
  calculatePDFPredictionsFrom d row j
  = Ok (map (fun jx => map (fun kc => pdf (snd jx) (meanAt (snd kc) (fst jx))
                                          (stDevAt (snd kc) (fst jx))) d)
            (indexedFrom j row)).
Proof.
  induction row as [| x row IH]; intros j Ht; [reflexivity |].
  cbn [calculatePDFPredictionsFrom].
  rewrite attributePredictions_trained, IH by assumption. reflexivity.
Qed.

Lemma sumLogStep_cons x logs a acc i :
  sumLogStep (x :: logs) (a :: acc) (S i) = a :: sumLogStep logs acc i.
Proof.
  unfold sumLogStep, array_get. cbn [nth].
  change (num_get (x :: logs) (S i)) with (num_get logs i).
  destruct (nth i acc JUndefined); reflexivity.
Qed.

Lemma sumLogStep_shift x logs k : forall n a acc,
  fold_left (sumLogStep (x :: logs)) (seq (S n) k) (a :: acc)
  = a :: fold_left (sumLogStep logs) (seq n k) acc.
Proof.
  induction k as [| k IH]; intros n a acc; [reflexivity |].
  cbn [seq fold_left]. rewrite sumLogStep_cons. apply IH.
Qed.

(** The first row fills the empty array of sums. *)
Lemma sumLogRow_first {A : Type} (f : A -> number) (d : list A) :
  fold_left (sumLogStep (map f d)) (seq 0 (length d)) []
  = map (fun kc => JNum (f kc)) d.
Proof.
  induction d as [| kc d IH]; [reflexivity |].
  cbn [map length seq fold_left].
  change (sumLogStep (f kc :: map f d) [] 0) with [JNum (f kc)].
  rewrite sumLogStep_shift, IH. reflexivity.
Qed.

(** Every later row is added to the sums cell by cell. *)
Lemma sumLogRow_next {A : Type} (f a : A -> number) (d : list A) :
  fold_left (sumLogStep (map f d)) (seq 0 (length d)) (map (fun kc => JNum (a kc)) d)
  = map (fun kc => JNum (add (a kc) (f kc))) d.
Proof.
  induction d as [| kc d IH]; [reflexivity |].
  cbn [map length seq fold_left].
  change (sumLogStep (f kc :: map f d) (JNum (a kc) :: map (fun kc => JNum (a kc)) d) 0)
    with (JNum (add (a kc) (f kc)) :: map (fun kc => JNum (a kc)) d).
  rewrite sumLogStep_shift, IH. reflexivity.
Qed.

Lemma sumLogRows {A B : Type} (g : B -> A -> number) (d : list A) (l : list B) :
  forall a : A -> number,
  fold_left
    (fun acc logs => fold_left (sumLogStep logs) (seq 0 (length d)) acc)
    (map (fun jx => map (g jx) d) l) (map (fun kc => JNum (a kc)) d)
  = map (fun kc => JNum (fold_left add (map (fun jx => g jx kc) l) (a kc))) d.
Proof.
  induction l as [| jx l IH]; intros a; [reflexivity |].
  cbn [map fold_left]. rewrite sumLogRow_next. apply (IH (fun kc => add (a kc) (g jx kc))).
Qed.

Lemma sumLogPDF_columns {A B : Type} (g : B -> A -> number) (d : list A)
  (jx : B) (l : list B) :
  sumLogPDF (map (fun jx => map (g jx) d) (jx :: l))
  = Ok (map (fun kc => JNum (sum (map (fun jx => g jx kc) (jx :: l)))) d).
Proof.
  unfold sumLogPDF. cbn [map nth_error defined bind fold_left].
  rewrite length_map, sumLogRow_first, sumLogRows. f_equal.
  apply map_ext. intros kc. f_equal.
  rewrite <- fold_left_add_sum. cbn [map fold_left]. now rewrite add_0_l.
Qed.

Lemma indexedFrom_cons {A : Type} j (x : A) l :
  indexedFrom j (x :: l) = (j, x) :: indexedFrom (S j) l.
Proof. reflexivity. Qed.

Lemma expSumLogPDF_trained d row :
  trained d -> row <> [] ->
  expSumLogPDF d row = Ok (map (fun kc => classValue (snd kc) row) d).
Proof.
  intros Ht Hrow. unfold expSumLogPDF, calculatePDFPredictions.
  rewrite calculatePDFPredictionsFrom_trained by assumption.
  cbn [bind]. unfold convertPDFPredictionsToLog. rewrite map_map.
  destruct row as [| x row]; [congruence |].
  rewrite indexedFrom_cons.
  rewrite (map_ext _ (fun jx => map (fun kc => logDensity (snd kc) jx) d))
    by (intros jx; now rewrite map_map).
  rewrite (sumLogPDF_columns (fun jx kc => logDensity (snd kc) jx)).
  cbn [bind]. unfold convertLogToOriginal. rewrite map_map. reflexivity.
Qed.

(** The same sums in the order in which the loops build them: no law of
    addition is used. *)
Lemma sumLogPDF_columns_running {A B : Type} (g : B -> A -> number) (d : list A)
  (jx : B) (l : list B) :
  sumLogPDF (map (fun jx => map (g jx) d) (jx :: l))
  = Ok (map (fun kc => JNum (runningSum (map (fun jx => g jx kc) (jx :: l)))) d).
Proof.
  unfold sumLogPDF. cbn [map nth_error defined bind fold_left].
  now rewrite length_map, sumLogRow_first, sumLogRows.
Qed.

Lemma expSumLogPDF_running d row :
  trained d -> row <> [] ->
  expSumLogPDF d row = Ok (map (fun kc => classLikelihood (snd kc) row) d).
Proof.
  intros Ht Hrow. unfold expSumLogPDF, calculatePDFPredictions.
  rewrite calculatePDFPredictionsFrom_trained by assumption.
  cbn [bind]. unfold convertPDFPredictionsToLog. rewrite map_map.
  destruct row as [| x row]; [congruence |].
  rewrite indexedFrom_cons.
  rewrite (map_ext _ (fun jx => map (fun kc => logDensity (snd kc) jx) d))
    by (intros jx; now rewrite map_map).
  rewrite (sumLogPDF_columns_running (fun jx kc => logDensity (snd kc) jx)).
  cbn [bind]. unfold convertLogToOriginal. rewrite map_map. reflexivity.
Qed.

Lemma normalizedProbabilities_trained d row :
  trained d -> row <> [] ->
  normalizedProbabilities d row
  = Ok (normalizeProbabilities (map (fun kc => classValue (snd kc) row) d)).
Proof.
  intros Ht Hrow. unfold normalizedProbabilities.
  now rewrite expSumLogPDF_trained.
Qed.

Lemma predictRow_trained d row :
  trained d -> row <> [] ->
  predictRow d row
  = Ok (findHighestProbabilityIndex
          (normalizeProbabilities (map (fun kc => classValue (snd kc) row) d))).
Proof.
  intros Ht Hrow. unfold predictRow.
  now rewrite normalizedProbabilities_trained.
Qed.

Lemma mapM_Ok {A B : Type} (f : A -> result B) (g : A -> B) l :
  (forall a, In a l -> f a = Ok (g a)) -> mapM f l = Ok (map g l).
Proof.
  induction l as [| a l IH]; intros H; [reflexivity |].
  cbn [mapM map]. rewrite H by (now left). cbn [bind].
  rewrite IH by (intros; apply H; now right). reflexivity.
Qed.

Lemma predict_trained d x :
  trained d -> (forall row, In row x -> row <> []) ->
  predict d x
  = Ok (map (fun row =>
               findHighestProbabilityIndex
                 (normalizeProbabilities (map (fun kc => classValue (snd kc) row) d)))
            x).
Proof.
  intros Ht Hx. unfold predict. apply mapM_Ok.
  intros row Hin. apply predictRow_trained; auto.
Qed.

End Pipeline.

(** ** Objects with integer keys *)

Section Objects.

Lemma obj_get_objFrom n : forall a f i,
  obj_get i (objFrom a n f)
  = if (a <=? i)%nat && (i <? a + n)%nat then Some (f i) else None.
Proof.
  unfold objFrom.
  induction n as [| n IH]; intros a f i; cbn [seq map obj_get].
  - destruct (Nat.leb_spec a i), (Nat.ltb_spec i (a + 0)); simpl; auto; lia.
  - destruct (Nat.eqb_spec i a) as [-> | Hne].
    + rewrite Nat.leb_refl. destruct (Nat.ltb_spec a (a + S n)); [reflexivity | lia].
    + rewrite IH.
      destruct (Nat.leb_spec (S a) i), (Nat.leb_spec a i),
        (Nat.ltb_spec i (S a + n)), (Nat.ltb_spec i (a + S n)); simpl; auto; lia.
Qed.

Lemma obj_get_objOf n f i :
  (1 <= i <= n)%nat -> obj_get i (objOf n f) = Some (f i).
Proof.
  intros H. unfold objOf. rewrite obj_get_objFrom.
  destruct (Nat.leb_spec 1 i), (Nat.ltb_spec i (1 + n)); simpl; auto; lia.
Qed.

Lemma obj_get_objOf_Some n f i c :
  obj_get i (objOf n f) = Some c -> (1 <= i <= n)%nat /\ c = f i.
Proof.
  unfold objOf. rewrite obj_get_objFrom.
  destruct (Nat.leb_spec 1 i), (Nat.ltb_spec i (1 + n)); simpl; try discriminate.
  intros [= <-]. split; [lia | reflexivity].
Qed.

Lemma objFrom_ext a n f g :
  (forall k, (a <= k < a + n)%nat -> f k = g k) -> objFrom a n f = objFrom a n g.
Proof.
  intros H. unfold objFrom. apply map_ext_in.
  intros k Hk. apply in_seq in Hk. now rewrite H.
Qed.

Lemma objOf_ext n f g :
  (forall k, (1 <= k <= n)%nat -> f k = g k) -> objOf n f = objOf n g.
Proof. intros H. apply objFrom_ext. intros k Hk. apply H. lia. Qed.

Lemma obj_set_objFrom n : forall a f i c,
  (a <= i < a + n)%nat ->
  obj_set i c (objFrom a n f) = objFrom a n (fun k => if Nat.eqb k i then c else f k).
Proof.
  induction n as [| n IH]; intros a f i c Hi; [lia |].
  unfold objFrom. cbn [seq map obj_set].
  destruct (Nat.eqb_spec i a) as [-> | Hne].
  - rewrite Nat.eqb_refl. f_equal.
    apply map_ext_in. intros k Hk. apply in_seq in Hk.
    destruct (Nat.eqb_spec k a); [lia | reflexivity].
  - destruct (Nat.ltb_spec i a); [lia |].
    destruct (Nat.eqb_spec a i); [lia |].
    f_equal. apply IH. lia.
Qed.

Lemma obj_set_objOf n f i c :
  (1 <= i <= n)%nat ->
  obj_set i c (objOf n f) = objOf n (fun k => if Nat.eqb k i then c else f k).
Proof. intros H. apply obj_set_objFrom. lia. Qed.

(** Creating the key just above the last one appends an entry. *)
Lemma obj_set_objFrom_end n : forall a f c,
  obj_set (a + n) c (objFrom a n f)
  = objFrom a (S n) (fun k => if Nat.eqb k (a + n) then c else f k).
Proof.
  induction n as [| n IH]; intros a f c.
  - unfold objFrom. cbn. rewrite Nat.add_0_r, Nat.eqb_refl. reflexivity.
  - unfold objFrom. cbn [seq map obj_set].
    destruct (Nat.eqb_spec (a + S n) a); [lia |].
    destruct (Nat.ltb_spec (a + S n) a); [lia |].
    destruct (Nat.eqb_spec a (a + S n)); [lia |].
    f_equal. replace (a + S n)%nat with (S a + n)%nat by lia. apply IH.
Qed.

Lemma keys_objFrom a n f : keys (objFrom a n f) = seq a n.
Proof.
  unfold keys, objFrom. rewrite map_map. cbn [fst]. apply map_id.
Qed.

Lemma obj_get_In k c d : obj_get k d = Some c -> In k (keys d).
Proof.
  induction d as [| [k' c'] d IH]; cbn; [discriminate |].
  destruct (Nat.eqb_spec k k'); auto.
Qed.

Lemma obj_get_not_In k d : ~ In k (keys d) -> obj_get k d = None.
Proof.
  destruct (obj_get k d) eqn:E; [| reflexivity].
  intros H. elim H. eapply obj_get_In, E.
Qed.

Lemma obj_set_length k c d : (length (obj_set k c d) <= S (length d))%nat.
Proof.
  induction d as [| [k' c'] d IH]; cbn [obj_set length]; [lia |].
  destruct (Nat.eqb k k'); cbn [length]; [lia |].
  destruct (Nat.ltb k k'); cbn [length]; lia.
Qed.

Lemma obj_set_In k c d j : In j (keys (obj_set k c d)) <-> j = k \/ In j (keys d).
Proof.
  unfold keys.
  induction d as [| [k' c'] d IH]; cbn [obj_set map fst In]; [intuition |].
  destruct (Nat.eqb_spec k k') as [-> | Hne]; cbn [map fst In]; [intuition |].
  destruct (Nat.ltb k k'); cbn [map fst In]; [intuition |].
  rewrite IH. intuition.
Qed.

Lemma obj_set_sorted k c d :
  StronglySorted lt (keys d) -> StronglySorted lt (keys (obj_set k c d)).
Proof.
  unfold keys.
  induction d as [| [k' c'] d IH]; cbn [obj_set map fst]; intros Hs.
  - repeat constructor.
  - apply StronglySorted_inv in Hs. destruct Hs as [Hs Hall].
    destruct (Nat.eqb_spec k k') as [-> | Hne]; cbn [map fst].
    + now constructor.
    + destruct (Nat.ltb_spec k k'); cbn [map fst].
      * constructor; [now constructor |].
        constructor; [assumption |].
        eapply Forall_impl; [| exact Hall]. cbn. intros; lia.
      * constructor; [now apply IH |].
        apply Forall_forall. intros j Hj. apply obj_set_In in Hj.
        destruct Hj as [-> | Hj]; [lia |].
        rewrite Forall_forall in Hall. now apply Hall.
Qed.

(** Writing an existing key of a sorted object leaves the keys alone. *)
Lemma obj_set_keys_present k c d :
  StronglySorted lt (keys d) -> In k (keys d) -> keys (obj_set k c d) = keys d.
Proof.
  unfold keys.
  induction d as [| [k' c'] d IH]; cbn [obj_set map fst In]; intros Hs Hin;
    [contradiction |].
  apply StronglySorted_inv in Hs. destruct Hs as [Hs Hall].
  destruct (Nat.eqb_spec k k') as [-> | Hne]; cbn [map fst]; [reflexivity |].
  destruct Hin as [-> | Hin]; [congruence |].
  rewrite Forall_forall in Hall. specialize (Hall _ Hin).
  destruct (Nat.ltb_spec k k'); [lia |]. cbn [map fst]. f_equal. now apply IH.
Qed.

Lemma obj_set_all_empty k d :
  Forall (fun kc => snd kc = emptyCategory) d ->
  Forall (fun kc => snd kc = emptyCategory) (obj_set k emptyCategory d).
Proof.
  induction d as [| [k' c'] d IH]; cbn [obj_set]; intros H.
  - now repeat constructor.
  - inversion H; subst.
    destruct (Nat.eqb k k'); [now constructor |].
    destruct (Nat.ltb k k'); [now repeat constructor |].
    constructor; auto.
Qed.

(** A strictly ascending list that holds [a], ..., [a + n - 1] and has at
    most [n] cells is that very range. *)
Lemma sorted_range n : forall a l,
  StronglySorted lt l ->
  (forall i, (a <= i < a + n)%nat -> In i l) ->
  (length l <= n)%nat ->
  l = seq a n.
Proof.
  induction n as [| n IH]; intros a l Hs Hin Hlen.
  - destruct l; [reflexivity | cbn in Hlen; lia].
  - destruct l as [| x l]; [destruct (Hin a); lia |].
    apply StronglySorted_inv in Hs. destruct Hs as [Hs Hall].
    rewrite Forall_forall in Hall.
    assert (Hxa : (x <= a)%nat).
    { destruct (Hin a) as [-> | Ha]; [lia | lia |]. specialize (Hall _ Ha). lia. }
    destruct (Nat.eq_dec x a) as [-> | Hne].
    + cbn [seq]. f_equal. apply IH; auto.
      * intros i Hi. destruct (Hin i) as [<- | Hi']; [lia | lia | assumption].
      * cbn in Hlen. lia.
    + exfalso.
      assert (Hincl : incl (seq a (S n)) l).
      { intros i Hi. apply in_seq in Hi.
        destruct (Hin i) as [<- | Hi']; [lia | lia | assumption]. }
      apply NoDup_incl_length in Hincl; [| apply seq_NoDup].
      rewrite length_seq in Hincl. cbn in Hlen. lia.
Qed.

End Objects.

(** ** [#formatData] *)

Section FormatData.

Lemma addCategories_inv labels : forall n d,
  StronglySorted lt (keys d) ->
  Forall (fun kc => snd kc = emptyCategory) d ->
  StronglySorted lt (keys (snd (addCategories labels n d))) /\
  Forall (fun kc => snd kc = emptyCategory) (snd (addCategories labels n d)) /\
  (length (snd (addCategories labels n d)) + n
   <= length d + fst (addCategories labels n d))%nat.
Proof.
  induction labels as [| l labels IH]; intros n d Hs He; cbn [addCategories].
  - cbn. repeat split; auto.
  - destruct (Nat.ltb n l).
    + destruct (IH (n + 1)%nat (obj_set l emptyCategory d)) as (H1 & H2 & H3).
      * now apply obj_set_sorted.
      * now apply obj_set_all_empty.
      * repeat split; auto.
        pose proof (obj_set_length l emptyCategory d). lia.
    + now apply IH.
Qed.

Lemma addAttributeArrays_incl cats numOfAttributes : forall d d1,
  StronglySorted lt (keys d) ->
  addAttributeArrays cats numOfAttributes d = Ok d1 ->
  incl cats (keys d).
Proof.
  induction cats as [| i cats IH]; intros d d1 Hs H; [intros ? [] |].
  cbn [addAttributeArrays] in H.
  destruct (obj_get i d) as [c |] eqn:Hget; [| discriminate].
  cbn [defined bind] in H.
  assert (Hi : In i (keys d)) by (eapply obj_get_In; eauto).
  apply IH in H; [| now apply obj_set_sorted].
  rewrite obj_set_keys_present in H by assumption.
  intros j [<- | Hj]; auto.
Qed.

Lemma all_empty_keys d :
  Forall (fun kc => snd kc = emptyCategory) d ->
  d = map (fun k => (k, emptyCategory)) (keys d).
Proof.
  unfold keys.
  induction 1 as [| [k c] d Hc _ IH]; [reflexivity |].
  cbn [map fst snd] in *. subst c. f_equal. exact IH.
Qed.

(** When the second loop completes, the first loop has created exactly the
    keys 1..counter. *)
Lemma addCategories_range y numOfAttributes d1 :
  addAttributeArrays (seq 1 (numberOfClasses y)) numOfAttributes
    (snd (addCategories y 0 [])) = Ok d1 ->
  snd (addCategories y 0 []) = objOf (numberOfClasses y) (fun _ => emptyCategory).
Proof.
  intros H.
  destruct (addCategories_inv y 0 []) as (Hs & He & Hlen);
    [constructor | constructor |].
  apply addAttributeArrays_incl in H; [| assumption].
  rewrite (all_empty_keys _ He). unfold objOf, objFrom. f_equal.
  apply sorted_range; auto.
  - intros i Hi. apply H, in_seq. lia.
  - unfold keys. rewrite length_map. fold (numberOfClasses y) in Hlen.
    cbn in Hlen. lia.
Qed.

Lemma set_sortedAttributes_twice c v :
  set_sortedAttributes (set_sortedAttributes c v) v = set_sortedAttributes c v.
Proof. reflexivity. Qed.

Lemma addAttributeArrays_objOf cats numOfAttributes n : forall f,
  (forall i, In i cats -> (1 <= i <= n)%nat) ->
  addAttributeArrays cats numOfAttributes (objOf n f)
  = Ok (objOf n (fun k =>
                   if existsb (Nat.eqb k) cats
                   then set_sortedAttributes (f k) (repeat [] numOfAttributes)
                   else f k)).
Proof.
  induction cats as [| i cats IH]; intros f Hc; [reflexivity |].
  cbn [addAttributeArrays].
  rewrite obj_get_objOf by (apply Hc; now left).
  cbn [defined bind]. rewrite obj_set_objOf by (apply Hc; now left).
  rewrite IH by (intros; apply Hc; now right).
  f_equal. apply objOf_ext. intros k _. cbn [existsb].
  destruct (Nat.eqb_spec k i) as [-> | Hne]; cbn [orb];
    destruct (existsb _ cats); reflexivity.
Qed.

Lemma addAttributeArrays_all numOfAttributes n :
  addAttributeArrays (seq 1 n) numOfAttributes (objOf n (fun _ => emptyCategory))
  = Ok (objOf n (fun _ => unfitted (repeat [] numOfAttributes))).
Proof.
  rewrite addAttributeArrays_objOf by (intros i Hi; apply in_seq in Hi; lia).
  f_equal. apply objOf_ext. intros k Hk.
  replace (existsb (Nat.eqb k) (seq 1 n)) with true; [reflexivity |].
  symmetry. apply existsb_exists. exists k. split.
  - apply in_seq. lia.
  - apply Nat.eqb_refl.
Qed.

Lemma push_at_app post : forall pre col v,
  push_at (pre ++ col :: post) (length pre) v = Some (pre ++ (col ++ [v]) :: post).
Proof.
  intros pre. induction pre as [| p pre IH]; intros col v; [reflexivity |].
  cbn [app length push_at]. now rewrite IH.
Qed.

Lemma pushValue_objOf n cols k j v attrs' :
  (1 <= k <= n)%nat ->
  push_at (cols k) j v = Some attrs' ->
  pushValue (objOf n (fun k => unfitted (cols k))) (Some k) j v
  = Ok (objOf n (fun k' => unfitted (updCols cols k attrs' k'))).
Proof.
  intros Hk Hp. unfold pushValue. cbn [defined bind].
  rewrite obj_get_objOf by assumption. cbn [defined bind unfitted sortedAttributes].
  rewrite Hp. cbn [defined bind]. rewrite obj_set_objOf by assumption.
  f_equal. apply objOf_ext. intros k' _. unfold updCols.
  destruct (Nat.eqb k' k); reflexivity.
Qed.

Lemma updCols_same cols k v : updCols cols k v k = v.
Proof. unfold updCols. now rewrite Nat.eqb_refl. Qed.

Lemma pushRow_objOf n k row : forall post pre cols,
  (1 <= k <= n)%nat ->
  cols k = pre ++ post ->
  pushRow (seq (length pre) (length post)) (Some k) row
    (objOf n (fun k => unfitted (cols k)))
  = Ok (objOf n (fun k' =>
                   unfitted (updCols cols k
                               (pre ++ extendFrom (length pre) post row) k'))).
Proof.
  induction post as [| col post IH]; intros pre cols Hk Hc.
  - cbn [length seq pushRow]. f_equal. apply objOf_ext. intros k' _.
    unfold updCols. destruct (Nat.eqb_spec k' k) as [-> | _]; [| reflexivity].
    now rewrite Hc.
  - cbn [length seq pushRow].
    rewrite (pushValue_objOf n cols k _ _ (pre ++ (col ++ [num_get row (length pre)]) :: post))
      by (assumption || (rewrite Hc; apply push_at_app)).
    cbn [bind].
    specialize (IH (pre ++ [col ++ [num_get row (length pre)]])
                  (updCols cols k (pre ++ (col ++ [num_get row (length pre)]) :: post))).
    rewrite length_app in IH. cbn [length] in IH.
    replace (length pre + 1)%nat with (S (length pre)) in IH by lia.
    rewrite IH; [| assumption | rewrite updCols_same, <- app_assoc; reflexivity].
    f_equal. apply objOf_ext. intros k' _. unfold updCols.
    destruct (Nat.eqb k' k); [| reflexivity].
    now rewrite <- app_assoc.
Qed.

Lemma pushRow_whole n k row cols :
  (1 <= k <= n)%nat ->
  pushRow (seq 0 (length (cols k))) (Some k) row (objOf n (fun k => unfitted (cols k)))
  = Ok (objOf n (fun k' => unfitted (updCols cols k (extendFrom 0 (cols k) row) k'))).
Proof. intros Hk. now apply (pushRow_objOf n k row (cols k) [] cols). Qed.

(** With at least one attribute a row is only stored when its label is a
    key of the object. *)
Lemma pushRow_Ok_label n f label row numOfAttributes d' :
  pushRow (seq 0 (S numOfAttributes)) label row (objOf n f) = Ok d' ->
  exists k, label = Some k /\ (1 <= k <= n)%nat.
Proof.
  cbn [seq pushRow]. unfold pushValue.
  destruct label as [k |]; [| discriminate]. cbn [defined bind].
  destruct (obj_get k (objOf n f)) as [c |] eqn:Hget; [| discriminate].
  intros _. exists k. split; [reflexivity |].
  now apply obj_get_objOf_Some in Hget.
Qed.

Lemma pushRows_no_attributes rows labels : forall i d,
  pushRows rows i labels 0 d = Ok d.
Proof.
  induction rows as [| row rows IH]; intros i d; [reflexivity |].
  cbn [pushRows seq pushRow bind]. apply IH.
Qed.

End FormatData.

Section Partition.

Lemma skipn_nth_error_Some {A : Type} (l : list A) : forall i a,
  nth_error l i = Some a -> skipn i l = a :: skipn (S i) l.
Proof.
  induction l as [| b l IH]; intros [| i] a H; try discriminate.
  - now injection H as ->.
  - cbn in H. now apply IH.
Qed.

Lemma extendFrom_length cols row : forall j,
  length (extendFrom j cols row) = length cols.
Proof.
  intros j. unfold extendFrom, indexedFrom.
  rewrite length_map, length_combine, length_seq. lia.
Qed.

Lemma appendRows_extendFrom cols row rows : forall j,
  map (fun jc => snd jc ++ column (fst jc) rows) (indexedFrom j (extendFrom j cols row))
  = map (fun jc => snd jc ++ column (fst jc) (row :: rows)) (indexedFrom j cols).
Proof.
  induction cols as [| col cols IH]; intros j; [reflexivity |].
  unfold extendFrom. rewrite !indexedFrom_cons. cbn [map fst snd].
  fold (extendFrom (S j) cols row).
  rewrite indexedFrom_cons. cbn [map fst snd]. rewrite IH.
  now rewrite <- app_assoc.
Qed.

Lemma appendRows_extend cols row rows :
  appendRows (extendFrom 0 cols row) rows = appendRows cols (row :: rows).
Proof. apply appendRows_extendFrom. Qed.

Lemma appendRows_nil cols : appendRows cols [] = cols.
Proof.
  unfold appendRows, indexed. generalize 0%nat.
  induction cols as [| col cols IH]; intros j; [reflexivity |].
  rewrite indexedFrom_cons. cbn [map fst snd column]. now rewrite IH, app_nil_r.
Qed.

Lemma appendRows_repeat numOfAttributes rows :
  appendRows (repeat [] numOfAttributes) rows
  = map (fun j => column j rows) (seq 0 numOfAttributes).
Proof.
  unfold appendRows, indexed. generalize 0%nat.
  induction numOfAttributes as [| n IH]; intros j; [reflexivity |].
  cbn [repeat]. rewrite indexedFrom_cons. cbn [map fst snd seq app].
  now rewrite IH.
Qed.

Lemma appendRows_length cols rows : length (appendRows cols rows) = length cols.
Proof.
  unfold appendRows, indexed, indexedFrom.
  rewrite length_map, length_combine, length_seq. lia.
Qed.

Lemma classRows_cons c row rows l ls :
  classRows c (row :: rows) (l :: ls)
  = if Nat.eqb l c then row :: classRows c rows ls else classRows c rows ls.
Proof.
  unfold classRows. cbn [combine filter snd]. now destruct (Nat.eqb l c).
Qed.

(** Storing one more row, seen from the arrays of class [k]. *)
Lemma appendRows_step cols k0 row rest labels i k :
  nth_error labels i = Some k0 ->
  appendRows (updCols cols k0 (extendFrom 0 (cols k0) row) k)
             (classRows k rest (skipn (S i) labels))
  = appendRows (cols k) (classRows k (row :: rest) (skipn i labels)).
Proof.
  intros Hl. rewrite (skipn_nth_error_Some _ _ _ Hl), classRows_cons.
  unfold updCols.
  destruct (Nat.eqb_spec k k0) as [-> | Hne].
  - rewrite Nat.eqb_refl. apply appendRows_extend.
  - destruct (Nat.eqb_spec k0 k); [congruence | reflexivity].
Qed.

Lemma updCols_length cols k0 row n len :
  (forall k, (1 <= k <= n)%nat -> length (cols k) = len) ->
  forall k, (1 <= k <= n)%nat ->
  length (updCols cols k0 (extendFrom 0 (cols k0) row) k) = len.
Proof.
  intros H k Hk. unfold updCols.
  destruct (Nat.eqb_spec k k0) as [-> | _]; [| now apply H].
  rewrite extendFrom_length. now apply H.
Qed.

(** What the third loop has stored when it completes. *)
Lemma pushRows_objOf n labels numOfAttributes : forall rows i cols d',
  (forall k, (1 <= k <= n)%nat -> length (cols k) = numOfAttributes) ->
  pushRows rows i labels numOfAttributes (objOf n (fun k => unfitted (cols k))) = Ok d' ->
  d' = objOf n (fun k =>
                  unfitted (appendRows (cols k) (classRows k rows (skipn i labels)))).
Proof.
  destruct numOfAttributes as [| a].
  - intros rows i cols d' Hlen H. rewrite pushRows_no_attributes in H.
    injection H as <-. apply objOf_ext. intros k Hk.
    specialize (Hlen k Hk). destruct (cols k); [reflexivity | discriminate].
  - induction rows as [| row rest IH]; intros i cols d' Hlen H.
    + injection H as <-. apply objOf_ext. intros k _.
      unfold classRows. cbn [combine filter map]. now rewrite appendRows_nil.
    + cbn [pushRows] in H.
      destruct (pushRow (seq 0 (S a)) (nth_error labels i) row
                  (objOf n (fun k => unfitted (cols k)))) as [d1 |] eqn:E;
        [| discriminate].
      cbn [bind] in H.
      destruct (pushRow_Ok_label _ _ _ _ _ _ E) as (k0 & Hl & Hk0).
      rewrite Hl, <- (Hlen k0 Hk0), pushRow_whole in E by assumption.
      injection E as <-.
      apply IH in H; [| now apply updCols_length].
      rewrite H. apply objOf_ext. intros k _. f_equal.
      now apply appendRows_step.
Qed.

(** The third loop completes when every row has a label among the keys. *)
Lemma pushRows_valid n labels numOfAttributes : forall rows i cols,
  (forall k, (1 <= k <= n)%nat -> length (cols k) = numOfAttributes) ->
  (forall j, (j < length rows)%nat ->
             exists k, nth_error labels (i + j) = Some k /\ (1 <= k <= n)%nat) ->
  pushRows rows i labels numOfAttributes (objOf n (fun k => unfitted (cols k)))
  = Ok (objOf n (fun k =>
                   unfitted (appendRows (cols k) (classRows k rows (skipn i labels))))).
Proof.
  induction rows as [| row rest IH]; intros i cols Hlen Hlab.
  - cbn [pushRows]. f_equal. apply objOf_ext. intros k _.
    unfold classRows. cbn [combine filter map]. now rewrite appendRows_nil.
  - cbn [pushRows].
    destruct (Hlab 0%nat) as (k0 & Hl & Hk0); [cbn; lia |].
    rewrite Nat.add_0_r in Hl.
    rewrite Hl, <- (Hlen k0 Hk0), pushRow_whole by assumption.
    cbn [bind]. rewrite (Hlen k0 Hk0). rewrite IH.
    + f_equal. apply objOf_ext. intros k _. f_equal. now apply appendRows_step.
    + now apply updCols_length.
    + intros j Hj. replace (S i + j)%nat with (i + S j)%nat by lia.
      apply Hlab. cbn. lia.
Qed.

Lemma formatData_Ok x y d :
  formatData x y = Ok d ->
  d = objOf (numberOfClasses y) (fun c => unfitted (partitionOf x y c)).
Proof.
  unfold formatData, numberOfClasses.
  destruct (addCategories y 0 []) as [n d0] eqn:E.
  destruct x as [| row0 x']; [discriminate |].
  cbn [nth_error defined bind fst].
  destruct (addAttributeArrays (seq 1 n) (length row0) d0) as [d1 |] eqn:E1;
    [| discriminate].
  cbn [bind]. intros H.
  assert (Hd0 : d0 = objOf n (fun _ => emptyCategory)).
  { pose proof (addCategories_range y (length row0) d1) as Hr.
    unfold numberOfClasses in Hr. rewrite E in Hr. apply Hr, E1. }
  subst d0. rewrite addAttributeArrays_all in E1. injection E1 as <-.
  apply (pushRows_objOf n y (length row0) _ 0 (fun _ => repeat [] (length row0))) in H;
    [| intros; apply repeat_length].
  rewrite H. apply objOf_ext. intros k _. f_equal.
  cbn [skipn]. apply appendRows_repeat.
Qed.

End Partition.

(** ** [#meanEachAttributeCategory], [#standardDeviation] and [fit] *)

Section Fit.

Lemma forIn_objFrom f g g' n : forall a,
  (forall k, (a <= k < a + n)%nat -> f (g k) = Ok (g' k)) ->
  forIn f (objFrom a n g) = Ok (objFrom a n g').
Proof.
  unfold forIn, objFrom.
  induction n as [| n IH]; intros a H; [reflexivity |].
  cbn [seq map mapM fst snd]. rewrite H by lia. cbn [bind].
  rewrite IH by (intros; apply H; lia). reflexivity.
Qed.

Lemma num_get_middle pre x post : num_get (pre ++ x :: post) (length pre) = JNum x.
Proof.
  unfold num_get. rewrite nth_error_app2, Nat.sub_diag by lia. reflexivity.
Qed.

Lemma standardDeviationAttributes_means attributes : forall pre,
  standardDeviationAttributes (Some (pre ++ map attributeMean attributes))
    (length pre) attributes
  = Ok (map populationStdDev attributes).
Proof.
  induction attributes as [| attribute rest IH]; intros pre; [reflexivity |].
  cbn [map standardDeviationAttributes].
  specialize (IH (pre ++ [attributeMean attribute])).
  rewrite length_app, <- app_assoc in IH. cbn [length app] in IH.
  replace (length pre + 1)%nat with (S (length pre)) in IH by lia.
  rewrite IH.
  unfold standardDeviationAttribute, populationStdDev.
  destruct attribute as [| v vs]; [reflexivity |].
  cbn [defined bind]. rewrite num_get_middle. reflexivity.
Qed.

Lemma meanEachAttributeCategory_objOf n cols :
  meanEachAttributeCategory (objOf n (fun c => unfitted (cols c)))
  = Ok (objOf n (fun c => set_mean (unfitted (cols c)) (map attributeMean (cols c)))).
Proof. apply forIn_objFrom. reflexivity. Qed.

Lemma standardDeviation_objOf n cols :
  standardDeviation
    (objOf n (fun c => set_mean (unfitted (cols c)) (map attributeMean (cols c))))
  = Ok (objOf n (fun c =>
                   mkCategory (Some (cols c)) (Some (map attributeMean (cols c)))
                              (Some (map populationStdDev (cols c))))).
Proof.
  apply forIn_objFrom. intros k _.
  unfold standardDeviationCategory.
  cbn [set_mean unfitted sortedAttributes mean stDev defined bind].
  pose proof (standardDeviationAttributes_means (cols k) []) as H.
  cbn [app length] in H. rewrite H. reflexivity.
Qed.

(** Once the rows are partitioned, the two statistics passes cannot fail. *)
Lemma fit_of_formatData x y d0 :
  formatData x y = Ok d0 -> fit x y = Ok (fittedModel x y).
Proof.
  intros H. unfold fit. rewrite H. cbn [bind].
  rewrite (formatData_Ok _ _ _ H).
  rewrite meanEachAttributeCategory_objOf. cbn [bind].
  apply standardDeviation_objOf.
Qed.

(** A call of [fit] that returns leaves [fittedModel x y] in [#data]. *)
Lemma fit_Ok x y d : fit x y = Ok d -> d = fittedModel x y.
Proof.
  intros H. destruct (formatData x y) as [d0 |] eqn:E.
  - rewrite (fit_of_formatData _ _ _ E) in H. now injection H.
  - unfold fit in H. rewrite E in H. discriminate.
Qed.

Lemma fittedModel_keys x y : keys (fittedModel x y) = seq 1 (numberOfClasses y).
Proof. apply keys_objFrom. Qed.

Lemma fittedModel_length x y : length (fittedModel x y) = numberOfClasses y.
Proof. unfold fittedModel, objOf, objFrom. now rewrite length_map, length_seq. Qed.

Lemma fittedModel_trained x y : trained (fittedModel x y).
Proof.
  unfold trained, fittedModel, objOf, objFrom.
  apply Forall_forall. intros kc Hin. apply in_map_iff in Hin.
  destruct Hin as (k & <- & _). cbn. split; discriminate.
Qed.

Lemma fittedModel_get x y c cat :
  obj_get c (fittedModel x y) = Some cat ->
  (1 <= c <= numberOfClasses y)%nat /\ cat = fittedCategory x y c.
Proof. apply obj_get_objOf_Some. Qed.

End Fit.

(** ** Mean and standard deviation *)

Section Statistics.

Lemma fold_left_map_arg {A B C : Type} (f : A -> C -> A) (g : B -> C) l : forall a,
  fold_left (fun s v => f s (g v)) l a = fold_left f (map g l) a.
Proof. induction l as [| b l IH]; intros a; [reflexivity | apply IH]. Qed.

Lemma attributeSum_sum vs : attributeSum vs = sum (map ToNumber vs).
Proof.
  unfold attributeSum.
  rewrite (fold_left_map_arg add ToNumber). apply fold_left_add_sum.
Qed.

Lemma attributeMean_arithmeticMean vs :
  attributeMean vs = arithmeticMean (map ToNumber vs).
Proof.
  unfold attributeMean, arithmeticMean. now rewrite attributeSum_sum, length_map.
Qed.

Lemma populationStdDev_populationStandardDeviation vs :
  populationStdDev vs = populationStandardDeviation (map ToNumber vs).
Proof.
  unfold populationStdDev, populationStandardDeviation, squaredDifferences.
  rewrite <- attributeMean_arithmeticMean, length_map, map_map.
  rewrite <- fold_left_add_sum.
  rewrite <- (fold_left_map_arg add
                (fun v => Math_pow (sub (ToNumber v) (attributeMean vs)) 2)).
  reflexivity.
Qed.

Lemma sum_Fin rs : sum (map Fin rs) = Fin (Rsum rs).
Proof.
  induction rs as [| r rs IH]; [reflexivity |].
  cbn [map sum fold_right] in *. fold (sum (map Fin rs)). now rewrite IH.
Qed.

Lemma INR_length_pos {A : Type} (l : list A) : l <> [] -> 0 < INR (length l).
Proof. intros H. apply lt_0_INR. destruct l; [congruence | cbn; lia]. Qed.

Lemma arithmeticMean_Fin rs :
  rs <> [] -> arithmeticMean (map Fin rs) = Fin (Rmean rs).
Proof.
  intros H. unfold arithmeticMean, Rmean, of_nat.
  rewrite sum_Fin, length_map. apply div_Fin.
  pose proof (INR_length_pos rs H). lra.
Qed.

Lemma Rsum_squares_nonneg (f : R -> R) rs : 0 <= Rsum (map (fun r => f r * f r) rs).
Proof.
  unfold Rsum. induction rs as [| r rs IH]; cbn; [lra |].
  pose proof (Rle_0_sqr (f r)) as Hsq. unfold Rsqr in Hsq. lra.
Qed.

Lemma Rvariance_nonneg rs : rs <> [] -> 0 <= Rvariance rs.
Proof.
  intros H. unfold Rvariance.
  apply Rmult_le_pos.
  - apply (Rsum_squares_nonneg (fun r => r - Rmean rs)).
  - left. apply Rinv_0_lt_compat. now apply INR_length_pos.
Qed.

Lemma populationStandardDeviation_Fin rs :
  rs <> [] -> populationStandardDeviation (map Fin rs) = Fin (sqrt (Rvariance rs)).
Proof.
  intros H. unfold populationStandardDeviation.
  rewrite (arithmeticMean_Fin rs H), map_map.
  rewrite (map_ext _ (fun r => Fin ((r - Rmean rs) * (r - Rmean rs)))).
  - rewrite <- (map_map (fun r => (r - Rmean rs) * (r - Rmean rs)) Fin).
    rewrite sum_Fin, length_map. unfold of_nat. rewrite div_Fin.
    + apply Math_sqrt_Fin. now apply Rvariance_nonneg.
    + pose proof (INR_length_pos rs H). lra.
  - intros r. cbn. f_equal. lra.
Qed.

Lemma sample_mean : Rmean sampleValues = 5.
Proof. unfold Rmean, sampleValues. cbn. field. Qed.

Lemma sample_variance : Rvariance sampleValues = 2 * 2.
Proof. unfold Rvariance. rewrite sample_mean. unfold sampleValues. cbn. field. Qed.

Lemma sample_attributeMean :
  attributeMean (map (fun r => JNum (Fin r)) sampleValues) = Fin 5.
Proof.
  rewrite attributeMean_arithmeticMean, map_map. cbn [ToNumber].
  rewrite arithmeticMean_Fin by discriminate. now rewrite sample_mean.
Qed.

Lemma sample_populationStdDev :
  populationStdDev (map (fun r => JNum (Fin r)) sampleValues) = Fin 2.
Proof.
  rewrite populationStdDev_populationStandardDeviation, map_map. cbn [ToNumber].
  rewrite populationStandardDeviation_Fin by discriminate.
  rewrite sample_variance, sqrt_square by lra. reflexivity.
Qed.

(** [fit] on the worked example. *)
Lemma sample_fit :
  fit sampleX sampleY
  = Ok [(1%nat, mkCategory (Some [map (fun r => JNum (Fin r)) sampleValues])
                           (Some [Fin 5]) (Some [Fin 2]))].
Proof.
  rewrite (fit_of_formatData sampleX sampleY
             (objOf 1 (fun c => unfitted (partitionOf sampleX sampleY c))))
    by reflexivity.
  unfold fittedModel, fittedCategory.
  change (numberOfClasses sampleY) with 1%nat.
  change (partitionOf sampleX sampleY) with
    (fun c => map (fun j => column j (classRows c sampleX sampleY)) [0%nat]).
  cbn [objOf objFrom seq map].
  change (column 0 (classRows 1 sampleX sampleY))
    with (map (fun r => JNum (Fin r)) sampleValues).
  now rewrite sample_attributeMean, sample_populationStdDev.
Qed.

(** [fit] on the training set with two classes. *)
Lemma pair_attributeMean a b m :
  (a + b) / 2 = m -> attributeMean [JNum (Fin a); JNum (Fin b)] = Fin m.
Proof.
  intros <-. rewrite attributeMean_arithmeticMean.
  change (map ToNumber [JNum (Fin a); JNum (Fin b)]) with (map Fin [a; b]).
  rewrite (arithmeticMean_Fin [a; b]) by discriminate.
  f_equal. unfold Rmean, Rsum. cbn. field.
Qed.

Lemma pair_populationStdDev a b s :
  0 <= s -> (a - b) * (a - b) = 4 * (s * s) ->
  populationStdDev [JNum (Fin a); JNum (Fin b)] = Fin s.
Proof.
  intros Hs H. rewrite populationStdDev_populationStandardDeviation.
  change (map ToNumber [JNum (Fin a); JNum (Fin b)]) with (map Fin [a; b]).
  rewrite (populationStandardDeviation_Fin [a; b]) by discriminate.
  f_equal. replace (Rvariance [a; b]) with (s * s).
  - now apply sqrt_square.
  - unfold Rvariance, Rmean, Rsum. cbn. field_simplify. lra.
Qed.

Lemma two_fit_model : fit twoX twoY = Ok twoModel.
Proof.
  rewrite (fit_of_formatData twoX twoY
             (objOf 2 (fun c => unfitted (partitionOf twoX twoY c))))
    by reflexivity.
  unfold fittedModel, fittedCategory.
  change (numberOfClasses twoY) with 2%nat.
  cbn [objOf objFrom seq map].
  change (partitionOf twoX twoY 1)
    with [[JNum (Fin 1); JNum (Fin 3)]; [JNum (Fin 2); JNum (Fin 6)]].
  change (partitionOf twoX twoY 2)
    with [[JNum (Fin 7); JNum (Fin 11)]; [JNum (Fin 1); JNum (Fin 3)]].
  cbn [map].
  rewrite (pair_attributeMean 1 3 2), (pair_attributeMean 2 6 4),
    (pair_attributeMean 7 11 9) by lra.
  rewrite (pair_populationStdDev 1 3 1), (pair_populationStdDev 2 6 2),
    (pair_populationStdDev 7 11 2) by lra.
  reflexivity.
Qed.

End Statistics.

(** ** The loops in another arithmetic *)

Section Arithmetics.



Lemma normalizeProbabilities_With e :
  normalizeProbabilities e = normalizeProbabilitiesWith (Fin 0) add div e.
Proof. reflexivity. Qed.



End Arithmetics.

(** ** Sums and quotients that round *)

Section Rounding.

Variables (u eta : R) (plus quotient : R -> R -> R).
Hypothesis u_nonneg : 0 <= u.
Hypothesis eta_nonneg : 0 <= eta.
Hypothesis Hrounds : rounds u eta plus quotient.

Lemma Rabs_between x b : Rabs x <= b -> - b <= x <= b.
Proof.
  intros H. pose proof (Rle_abs x) as H1. pose proof (Rle_abs (- x)) as H2.
  rewrite Rabs_Ropp in H2. lra.
Qed.

Lemma plus_between a b :
  0 <= a -> 0 <= b ->
  (1 - u) * (a + b) <= plus a b <= (1 + u) * (a + b).
Proof.
  intros Ha Hb. destruct Hrounds as [Hp _]. specialize (Hp a b).
  rewrite (Rabs_pos_eq (a + b)) in Hp by lra.
  apply Rabs_between in Hp. lra.
Qed.

(** The running sum of numbers that are not negative stays within the
    factors [1 - n u] and [1 + 2 n u] of the exact sum, [n] being the
    number of additions. *)
Lemma rounded_sum rs : forall (m : nat) (acc A : R),
  (forall r, In r rs -> 0 <= r) ->
  0 <= A -> 0 <= acc ->
  2 * INR (m + length rs) * u <= 1 ->
  (1 - INR m * u) * A <= acc <= (1 + 2 * INR m * u) * A ->
  0 <= fold_left plus rs acc /\
  (1 - INR (m + length rs) * u) * (A + Rsum rs) <= fold_left plus rs acc
  <= (1 + 2 * INR (m + length rs) * u) * (A + Rsum rs).
Proof.
  induction rs as [| r rs IH]; intros m acc A Hnn HA Hacc Hu Hb.
  - cbn [fold_left length Rsum fold_right]. rewrite Nat.add_0_r, Rplus_0_r. now split.
  - cbn [fold_left].
    assert (Hr : 0 <= r) by (apply Hnn; now left).
    pose proof (plus_between acc r Hacc Hr) as Hp.
    pose proof (pos_INR m) as Hm.
    assert (Hm1 : INR (S m) = INR m + 1) by apply S_INR.
    assert (Hlen : (m + length (r :: rs) = S m + length rs)%nat) by (cbn; lia).
    rewrite Hlen in *.
    assert (Hmu : 2 * INR (S m) * u <= 1).
    { apply Rle_trans with (2 * INR (S m + length rs) * u); [| exact Hu].
      apply Rmult_le_compat_r; [exact u_nonneg |].
      apply Rmult_le_compat_l; [lra |]. apply le_INR. lia. }
    assert (Hu1 : u <= 1) by (rewrite Hm1 in Hmu; nra).
    replace (A + Rsum (r :: rs)) with ((A + r) + Rsum rs) by (unfold Rsum; cbn [fold_right]; lra).
    apply IH.
    + intros r' Hin. apply Hnn. now right.
    + lra.
    + nra.
    + exact Hu.
    + rewrite Hm1. rewrite Hm1 in Hmu.
      assert (HAr : 0 <= A + r) by lra.
      assert (Hmu0 : 0 <= INR m * u) by now apply Rmult_le_pos.
      assert (Hq : 0 <= INR m * u * u * (A + r)).
      { apply Rmult_le_pos; [| exact HAr]. now apply Rmult_le_pos. }
      assert (Hq1 : 0 <= INR m * u * r) by now apply Rmult_le_pos.
      assert (Hq2 : 0 <= u * (1 - 2 * INR m * u) * (A + r)).
      { apply Rmult_le_pos; [| exact HAr]. apply Rmult_le_pos; lra. }
      split.
      * apply Rle_trans with ((1 - u) * (acc + r)); [| lra].
        apply Rle_trans with ((1 - u) * ((1 - INR m * u) * (A + r))).
        -- lra.
        -- apply Rmult_le_compat_l; lra.
      * apply Rle_trans with ((1 + u) * (acc + r)); [lra |].
        apply Rle_trans with ((1 + u) * ((1 + 2 * INR m * u) * (A + r))).
        -- apply Rmult_le_compat_l; lra.
        -- lra.
Qed.

Lemma rounded_quotients total rs :
  0 < total -> (forall r, In r rs -> 0 <= r) ->
  (forall p, In p (map (fun r => quotient r total) rs) -> 0 <= p) /\
  (1 - u) * (Rsum rs / total) - INR (length rs) * eta
  <= Rsum (map (fun r => quotient r total) rs)
  <= (1 + u) * (Rsum rs / total) + INR (length rs) * eta.
Proof.
  intros Ht. destruct Hrounds as (_ & Hq & Hsign).
  induction rs as [| r rs IH]; intros Hnn.
  - cbn [map length Rsum fold_right INR]. unfold Rsum. cbn [fold_right].
    split; [intros p [] |]. unfold Rdiv. lra.
  - assert (Hr : 0 <= r) by (apply Hnn; now left).
    destruct IH as [IH0 IH1]; [intros r' Hin; apply Hnn; now right |].
    pose proof (Hsign r total Hr Ht) as Hq0. pose proof (Hq r total Ht) as Hq1.
    assert (Hrt : 0 <= r / total).
    { apply Rmult_le_pos; [exact Hr |]. left. now apply Rinv_0_lt_compat. }
    rewrite (Rabs_pos_eq (r / total)) in Hq1 by exact Hrt.
    apply Rabs_between in Hq1.
    split.
    + intros p [<- | Hin]; [exact Hq0 | now apply IH0].
    + change (length (r :: rs)) with (S (length rs)). rewrite S_INR.
      change (Rsum (map (fun r0 => quotient r0 total) (r :: rs)))
        with (quotient r total + Rsum (map (fun r0 => quotient r0 total) rs)).
      change (Rsum (r :: rs)) with (r + Rsum rs).
      unfold Rdiv in *. lra.
Qed.

(** The normalized values of numbers that are not negative, whose rounded
    total is positive, add up to one but for the rounding of the two sums
    and of the quotients. *)
Lemma rounded_normalization rs :
  (forall r, In r rs -> 0 <= r) ->
  0 < pSumWith 0 plus rs ->
  8 * INR (length rs) * u <= 1 ->
  Rabs (pSumWith 0 plus (normalizeProbabilitiesWith 0 plus quotient rs) - 1)
  <= 8 * INR (length rs) * u + 2 * INR (length rs) * eta.
Proof.
  intros Hnn Hpos Hu.
  unfold normalizeProbabilitiesWith.
  set (total := pSumWith 0 plus rs) in *.
  set (k := INR (length rs)) in *.
  assert (Hk : 1 <= k).
  { unfold k. destruct rs as [| r rs].
    - unfold total, pSumWith in Hpos. cbn in Hpos. lra.
    - change (length (r :: rs)) with (S (length rs)). rewrite S_INR.
      pose proof (pos_INR (length rs)). lra. }
  destruct (rounded_sum rs 0 0 0 Hnn) as [_ Hs];
    [lra | lra | cbn [Nat.add]; fold k; lra | cbn [INR]; lra |].
  cbn [Nat.add] in Hs. fold k in Hs. rewrite !Rplus_0_l in Hs.
  change (fold_left plus rs 0) with total in Hs.
  destruct (rounded_quotients total rs Hpos Hnn) as [Hp0 Hp].
  fold k in Hp.
  set (ps := map (fun r => quotient r total) rs) in *.
  destruct (rounded_sum ps 0 0 0 Hp0) as [_ HT];
    [lra | lra | unfold ps; rewrite length_map; cbn [Nat.add]; fold k; lra
    | cbn [INR]; lra |].
  assert (Hlen : length ps = length rs) by apply length_map.
  cbn [Nat.add] in HT. rewrite Hlen in HT. fold k in HT. rewrite !Rplus_0_l in HT.
  change (fold_left plus ps 0) with (pSumWith 0 plus ps) in HT.
  set (T := pSumWith 0 plus ps) in *.
  set (P := Rsum ps) in *.
  set (S := Rsum rs) in *.
  set (t := k * u) in *.
  assert (Ht8 : t <= / 8) by (unfold t; lra).
  assert (Ht0 : 0 <= t) by (unfold t; apply Rmult_le_pos; lra).
  assert (Hut : u <= t) by (unfold t; nra).
  replace (8 * k * u) with (8 * t) by (unfold t; ring).
  replace (2 * k * u) with (2 * t) in * by (unfold t; ring).
  assert (HS : 0 < S) by nra.
  set (rho := S / total) in *.
  assert (Hrho : rho * total = S) by (unfold rho; field; lra).
  assert (Hrho0 : 0 < rho) by (unfold rho; now apply Rdiv_lt_0_compat).
  assert (Hlo : (1 - t) * rho <= 1) by nra.
  assert (Hhi : 1 <= (1 + 2 * t) * rho) by nra.
  assert (Hrho1 : rho <= 1 + 8 / 7 * t) by nra.
  assert (Hrho2 : 1 - 2 * t <= rho) by nra.
  assert (HP0 : 0 <= P).
  { unfold P. clear - Hp0. unfold Rsum. induction ps as [| p ps IH]; cbn; [lra |].
    pose proof (Hp0 p (or_introl eq_refl)).
    assert (0 <= fold_right Rplus 0 ps) by (apply IH; intros; apply Hp0; now right).
    lra. }
  assert (Hke : 0 <= k * eta) by (apply Rmult_le_pos; lra).
  apply Rabs_le. split.
  - assert (H1 : (1 - t) * (1 - 2 * t) - k * eta <= P) by nra.
    assert (H2 : (1 - t) * ((1 - t) * (1 - 2 * t) - k * eta) <= T) by nra.
    nra.
  - assert (H1 : P <= (1 + t) * (1 + 8 / 7 * t) + k * eta) by nra.
    assert (H2 : T <= (1 + 2 * t) * ((1 + t) * (1 + 8 / 7 * t) + k * eta)).
    { apply Rle_trans with ((1 + 2 * t) * P); [lra |].
      apply Rmult_le_compat_l; lra. }
    clear - H2 Ht8 Ht0 Hke. nra.
Qed.




End Rounding.

Section Binary64.

Lemma binary64_u_bounds : 0 < binary64_u <= 2 / 10 ^ 16.
Proof.
  unfold binary64_u. split.
  - apply Rinv_0_lt_compat. apply pow_lt. lra.
  - assert (H : 10 ^ 16 / 2 <= 2 ^ 53) by (simpl; lra).
    assert (H0 : 0 < 10 ^ 16 / 2) by (simpl; lra).
    apply Rinv_le_contravar in H; [| exact H0].
    replace (2 / 10 ^ 16) with (/ (10 ^ 16 / 2)); [exact H |].
    simpl. lra.
Qed.

Lemma binary64_eta_bounds : 0 < binary64_eta <= binary64_u.
Proof.
  unfold binary64_eta, binary64_u. split.
  - apply Rinv_0_lt_compat. apply pow_lt. lra.
  - apply Rinv_le_contravar; [apply pow_lt; lra |].
    apply Rle_pow; [lra | lia].
Qed.

Lemma binary64_tolerance (k u eta : R) :
  0 <= k <= 1000 -> 0 <= u <= binary64_u -> 0 <= eta <= binary64_eta ->
  8 * k * u + 2 * k * eta <= tolerance.
Proof.
  intros Hk Hu He.
  pose proof binary64_u_bounds as [Hu0 Hu1].
  pose proof binary64_eta_bounds as [He0 He1].
  unfold tolerance.
  assert (H16 : 2 / 10 ^ 16 = 2 / 10000000000000000) by (simpl; lra).
  rewrite H16 in Hu1.
  assert (H1 : k * u <= 1000 * (2 / 10000000000000000)) by nra.
  assert (H2 : k * eta <= 1000 * (2 / 10000000000000000)) by nra.
  lra.
Qed.

Lemma addUp_divDown_rounds : rounds binary64_u binary64_eta addUp divDown.
Proof.
  pose proof binary64_u_bounds as [Hu0 Hu1].
  pose proof binary64_eta_bounds as [He0 He1].
  assert (Hu2 : binary64_u <= 1).
  { apply Rle_trans with (2 / 10 ^ 16); [exact Hu1 |]. simpl. lra. }
  split; [| split].
  - intros a b. unfold addUp.
    replace ((a + b) * (1 + binary64_u) - (a + b)) with (binary64_u * (a + b)) by ring.
    rewrite Rabs_mult, (Rabs_pos_eq binary64_u) by lra. lra.
  - intros a b Hb. unfold divDown.
    replace (a / b * (1 - binary64_u) - a / b) with (- (binary64_u * (a / b))) by ring.
    rewrite Rabs_Ropp, Rabs_mult, (Rabs_pos_eq binary64_u) by lra. lra.
  - intros a b Ha Hb. unfold divDown.
    apply Rmult_le_pos; [| lra].
    apply Rmult_le_pos; [lra |]. left. now apply Rinv_0_lt_compat.
Qed.

End Binary64.




(** ** The Gaussian density *)

Section Density.

Lemma sqrt_2PI_pos : 0 < sqrt (2 * PI).
Proof. apply sqrt_lt_R0. pose proof PI_RGT_0. lra. Qed.

(** On finite arguments with a positive deviation [#pdf] is the Gaussian
    density. *)
Lemma pdf_Fin xj mu sigma :
  0 < sigma ->
  pdf (Fin xj) (JNum (Fin mu)) (JNum (Fin sigma))
  = Fin (1 / (sqrt (2 * PI) * sigma)
         * exp (- ((xj - mu) * (xj - mu)) / (2 * (sigma * sigma)))).
Proof.
  intros Hs. unfold pdf. cbn [ToNumber].
  pose proof sqrt_2PI_pos as Hq. pose proof PI_RGT_0 as Hpi.
  change (mul (Fin 2) Math_PI) with (Fin (2 * PI)).
  rewrite Math_sqrt_Fin by lra.
  change (mul (Fin (sqrt (2 * PI))) (Fin sigma)) with (Fin (sqrt (2 * PI) * sigma)).
  assert (Hden : sqrt (2 * PI) * sigma <> 0).
  { apply Rgt_not_eq. now apply Rmult_lt_0_compat. }
  rewrite div_Fin by assumption.
  rewrite !Math_pow_2_Fin.
  change (sub (Fin xj) (Fin mu)) with (Fin (xj + - mu)).
  rewrite Math_pow_2_Fin. cbn [neg mul].
  assert (Hden2 : 2 * (sigma * sigma) <> 0).
  { apply Rgt_not_eq. apply Rmult_lt_0_compat; [lra |].
    now apply Rmult_lt_0_compat. }
  rewrite div_Fin by assumption. cbn [Math_exp].
  reflexivity.
Qed.

Lemma pdf_Fin_pos xj mu sigma :
  0 < sigma ->
  exists r, 0 < r /\ pdf (Fin xj) (JNum (Fin mu)) (JNum (Fin sigma)) = Fin r.
Proof.
  intros Hs. rewrite pdf_Fin by assumption. eexists. split; [| reflexivity].
  apply Rmult_lt_0_compat; [| apply exp_pos].
  apply Rdiv_lt_0_compat; [lra |].
  apply Rmult_lt_0_compat; [apply sqrt_2PI_pos | assumption].
Qed.

Lemma neg_square_Fin z r : neg (Math_pow z 2) = Fin r -> r <= 0.
Proof.
  destruct z as [a | | |]; cbn.
  - intros [= <-]. nra.
  - destruct (sgn 1); discriminate.
  - destruct (sgn 1); discriminate.
  - discriminate.
Qed.

Lemma neg_square_not_PInf z : neg (Math_pow z 2) <> PInf.
Proof.
  destruct z as [a | | |]; cbn; try discriminate.
  - rewrite sgn_pos by lra. discriminate.
  - rewrite sgn_pos by lra. discriminate.
Qed.

Lemma exp_div_zero q :
  (forall r, q = Fin r -> r <= 0) -> q <> PInf ->
  Math_exp (div q (Fin 0)) = NaN \/ Math_exp (div q (Fin 0)) = Fin 0.
Proof.
  intros Hq Hp. destruct q as [r | | |]; cbn.
  - destruct (Req_dec_T 0 0); [| congruence].
    specialize (Hq r eq_refl). destruct (Rle_lt_or_eq_dec _ _ Hq) as [Hlt | ->].
    + rewrite sgn_neg by assumption. now right.
    + rewrite sgn_0. now left.
  - congruence.
  - rewrite sgn_0. now right.
  - now left.
Qed.

(** A zero deviation makes the density [NaN] whatever the input. *)
Lemma pdf_zero_stDev xInput meanTraining :
  pdf xInput meanTraining (JNum (Fin 0)) = NaN.
Proof.
  unfold pdf. cbn [ToNumber].
  pose proof sqrt_2PI_pos as Hq. pose proof PI_RGT_0 as Hpi.
  change (mul (Fin 2) Math_PI) with (Fin (2 * PI)).
  rewrite Math_sqrt_Fin by lra.
  change (mul (Fin (sqrt (2 * PI))) (Fin 0)) with (Fin (sqrt (2 * PI) * 0)).
  replace (sqrt (2 * PI) * 0) with 0 by lra.
  assert (H1 : div (Fin 1) (Fin 0) = PInf).
  { cbn. destruct (Req_dec_T 0 0); [| congruence]. rewrite sgn_pos by lra. reflexivity. }
  rewrite H1, Math_pow_2_Fin.
  change (mul (Fin 2) (Fin (0 * 0))) with (Fin (2 * (0 * 0))).
  replace (2 * (0 * 0)) with 0 by lra.
  destruct (exp_div_zero (neg (Math_pow (sub xInput (ToNumber meanTraining)) 2)))
    as [-> | ->].
  - intros r. apply neg_square_Fin.
  - apply neg_square_not_PInf.
  - reflexivity.
  - cbn. now rewrite sgn_0.
Qed.

End Density.

(** ** The edge of the domain of [predict] *)

(** A row without attribute makes [#sumLogPDF] read [length] of
    [undefined]. *)
Lemma predictRow_no_attribute d : predictRow d [] = TypeError.
Proof. reflexivity. Qed.

(** A matrix whose rows have no attribute can be fitted without a label,
    and leaves a model without class. *)
Lemma fit_no_class : fit [[]] [] = Ok [].
Proof. reflexivity. Qed.

(** ** A model with two classes *)

Section TwoClasses.

Lemma two_trained : trained twoModel.
Proof. repeat constructor; discriminate. Qed.

Lemma gaussian_pos v mu sigma : 0 < sigma -> 0 < gaussian v mu sigma.
Proof.
  intros Hs. unfold gaussian.
  apply Rmult_lt_0_compat; [| apply exp_pos].
  apply Rdiv_lt_0_compat; [lra |].
  apply Rmult_lt_0_compat; [apply sqrt_2PI_pos | assumption].
Qed.

Lemma Math_log_pdf v mu sigma :
  0 < sigma ->
  Math_log (pdf (Fin v) (JNum (Fin mu)) (JNum (Fin sigma)))
  = Fin (ln (gaussian v mu sigma)).
Proof.
  intros Hs. rewrite pdf_Fin by assumption. fold (gaussian v mu sigma).
  cbn [Math_log]. now rewrite (sgn_pos _ (gaussian_pos v mu sigma Hs)).
Qed.

(** The values of the two classes for the row [(a, b)]. *)
Lemma two_expSumLogPDF a b :
  expSumLogPDF twoModel [Fin a; Fin b] = Ok (map Fin (twoValues a b)).
Proof.
  rewrite expSumLogPDF_trained by (apply two_trained || discriminate).
  unfold twoModel, classValue, indexed, indexedFrom.
  cbn [map snd length seq combine]. unfold logDensity, meanAt, stDevAt.
  cbn [fst snd mean stDev num_get nth_error].
  rewrite !Math_log_pdf by lra. reflexivity.
Qed.

Lemma twoValues_pos a b r : In r (twoValues a b) -> 0 < r.
Proof. intros [<- | [<- | []]]; apply exp_pos. Qed.

Lemma findHighestProbabilityIndex_pair a b :
  findHighestProbabilityIndex [Fin a; Fin b] = if Rlt_dec a b then 1%nat else 0%nat.
Proof.
  unfold findHighestProbabilityIndex. cbn [length seq fold_left num_get nth_error ToNumber].
  rewrite gt_irrefl. cbn [num_get nth_error ToNumber gt].
  now destruct (Rlt_dec a b).
Qed.

Lemma normalizeProbabilities_pair a b :
  0 < a -> 0 < b ->
  normalizeProbabilities [Fin a; Fin b] = [Fin (a / (0 + a + b)); Fin (b / (0 + a + b))].
Proof.
  intros Ha Hb.
  change [Fin a; Fin b] with (map Fin [a; b]).
  rewrite (normalizeProbabilities_Fin [a; b] (0 + a + b)); [reflexivity | lra | reflexivity].
Qed.

(** The exponential of the sum of the logarithms of two densities is
    their product. *)
Lemma exp_ln_gaussians v1 m1 s1 v2 m2 s2 :
  0 < s1 -> 0 < s2 ->
  exp (ln (gaussian v1 m1 s1) + (ln (gaussian v2 m2 s2) + 0))
  = gaussian v1 m1 s1 * gaussian v2 m2 s2.
Proof.
  intros H1 H2. rewrite Rplus_0_r, exp_plus, !exp_ln; [reflexivity | |];
    now apply gaussian_pos.
Qed.

(** The density is largest at the mean. *)
Lemma gaussian_peak m s : 0 < s -> gaussian m m s = 1 / (sqrt (2 * PI) * s).
Proof.
  intros Hs. unfold gaussian.
  replace (- ((m - m) * (m - m)) / (2 * (s * s))) with 0.
  - rewrite exp_0. lra.
  - unfold Rdiv. ring.
Qed.

Lemma gaussian_lt_peak v m s : 0 < s -> v <> m -> gaussian v m s < gaussian m m s.
Proof.
  intros Hs Hv. rewrite (gaussian_peak m s Hs). unfold gaussian.
  pose proof sqrt_2PI_pos as Hq.
  assert (Hc : 0 < 1 / (sqrt (2 * PI) * s)).
  { apply Rdiv_lt_0_compat; [lra |]. now apply Rmult_lt_0_compat. }
  rewrite <- (Rmult_1_r (1 / (sqrt (2 * PI) * s))) at 2.
  apply Rmult_lt_compat_l; [exact Hc |].
  rewrite <- exp_0. apply exp_increasing.
  assert (Hsq : 0 < (v - m) * (v - m)).
  { destruct (Rtotal_order v m) as [H | [H | H]]; [nra | contradiction | nra]. }
  assert (Hd : 0 < 2 * (s * s)) by nra.
  unfold Rdiv. rewrite Ropp_mult_distr_l_reverse.
  apply Ropp_lt_gt_0_contravar. apply Rmult_lt_0_compat; [exact Hsq |].
  now apply Rinv_0_lt_compat.
Qed.

(** For the row (2, 4), the means of class 1, the value of class 1 is the
    larger one; for the row (9, 2), the means of class 2, the value of
    class 2. *)
Lemma twoValues_first : nth 1 (twoValues 2 4) 0 < nth 0 (twoValues 2 4) 0.
Proof.
  cbn [nth twoValues]. rewrite !exp_ln_gaussians by lra.
  pose proof (gaussian_lt_peak 2 9 2) as H1.
  pose proof (gaussian_lt_peak 4 2 1) as H2.
  pose proof (gaussian_pos 2 9 2) as P1.
  pose proof (gaussian_pos 4 2 1) as P2.
  rewrite (gaussian_peak 2 1), (gaussian_peak 4 2) by lra.
  rewrite (gaussian_peak 9 2) in H1 by lra.
  rewrite (gaussian_peak 2 1) in H2 by lra.
  pose proof sqrt_2PI_pos as Hq.
  assert (A1 : 0 < 1 / (sqrt (2 * PI) * 1)) by (apply Rdiv_lt_0_compat; lra).
  assert (A2 : 0 < 1 / (sqrt (2 * PI) * 2)) by (apply Rdiv_lt_0_compat; lra).
  rewrite (Rmult_comm (1 / (sqrt (2 * PI) * 1))).
  apply Rmult_gt_0_lt_compat; lra.
Qed.

Lemma twoValues_second : nth 0 (twoValues 9 2) 0 < nth 1 (twoValues 9 2) 0.
Proof.
  cbn [nth twoValues]. rewrite !exp_ln_gaussians by lra.
  pose proof (gaussian_lt_peak 9 2 1) as H1.
  pose proof (gaussian_lt_peak 2 4 2) as H2.
  pose proof (gaussian_pos 9 2 1) as P1.
  pose proof (gaussian_pos 2 4 2) as P2.
  rewrite (gaussian_peak 9 2), (gaussian_peak 2 1) by lra.
  rewrite (gaussian_peak 2 1) in H1 by lra.
  rewrite (gaussian_peak 4 2) in H2 by lra.
  pose proof sqrt_2PI_pos as Hq.
  assert (A1 : 0 < 1 / (sqrt (2 * PI) * 1)) by (apply Rdiv_lt_0_compat; lra).
  assert (A2 : 0 < 1 / (sqrt (2 * PI) * 2)) by (apply Rdiv_lt_0_compat; lra).
  rewrite (Rmult_comm (1 / (sqrt (2 * PI) * 2))).
  apply Rmult_gt_0_lt_compat; lra.
Qed.

Lemma two_predictRow a b :
  predictRow twoModel [Fin a; Fin b]
  = Ok (if Rlt_dec (nth 0 (twoValues a b) 0) (nth 1 (twoValues a b) 0)
        then 1%nat else 0%nat).
Proof.
  unfold predictRow, normalizedProbabilities. rewrite two_expSumLogPDF. cbn [bind].
  pose proof (twoValues_pos a b (nth 0 (twoValues a b) 0) (or_introl eq_refl)) as H1.
  pose proof (twoValues_pos a b (nth 1 (twoValues a b) 0)
                (or_intror (or_introl eq_refl))) as H2.
  change (map Fin (twoValues a b))
    with [Fin (nth 0 (twoValues a b) 0); Fin (nth 1 (twoValues a b) 0)].
  rewrite normalizeProbabilities_pair by assumption.
  rewrite findHighestProbabilityIndex_pair.
  set (v0 := nth 0 (twoValues a b) 0) in *. set (v1 := nth 1 (twoValues a b) 0) in *.
  assert (Hs : 0 < / (0 + v0 + v1)) by (apply Rinv_0_lt_compat; lra).
  destruct (Rlt_dec (v0 / (0 + v0 + v1)) (v1 / (0 + v0 + v1))) as [Hlt | Hge];
    destruct (Rlt_dec v0 v1) as [Hlt' | Hge']; try reflexivity; exfalso.
  - apply Hge'. unfold Rdiv in Hlt. nra.
  - apply Hge. unfold Rdiv. nra.
Qed.

(** The two rows are given the indices 0 and 1: the classes 1 and 2. *)
Lemma two_predict : predict twoModel twoRows = Ok [0; 1]%nat.
Proof.
  unfold predict, twoRows. cbn [mapM]. rewrite !two_predictRow. cbn [bind].
  pose proof twoValues_first as H1. pose proof twoValues_second as H2.
  destruct (Rlt_dec (nth 0 (twoValues 2 4) 0) (nth 1 (twoValues 2 4) 0)) as [H | _];
    [lra |].
  destruct (Rlt_dec (nth 0 (twoValues 9 2) 0) (nth 1 (twoValues 9 2) 0)) as [_ | H];
    [reflexivity | contradiction].
Qed.

End TwoClasses.

(** ** Statements about [predict] *)

Lemma num_get_lt a j : (j < length a)%nat -> exists v, num_get a j = JNum v.
Proof.
  intros H. unfold num_get.
  destruct (nth_error a j) as [v |] eqn:E; [now exists v |].
  apply nth_error_None in E. lia.
Qed.

Lemma partitionOf_length x y c : length (partitionOf x y c) = length (hd [] x).
Proof. unfold partitionOf. now rewrite length_map, length_seq. Qed.

Lemma fittedModel_In x y kc :
  In kc (fittedModel x y) ->
  (1 <= fst kc <= numberOfClasses y)%nat /\ snd kc = fittedCategory x y (fst kc).
Proof.
  unfold fittedModel, objOf, objFrom. intros H. apply in_map_iff in H.
  destruct H as (k & <- & Hk). apply in_seq in Hk. cbn. split; [lia | reflexivity].
Qed.

Lemma sample_fit_model : fit sampleX sampleY = Ok sampleModel.
Proof. exact sample_fit. Qed.

(** C2.  For a fitted model, whose classes are 1..K, and an input row with
    at least one attribute, the value that [predict] hands to the
    normalization for class [c] is the exponential of the sum of the
    natural logarithms of [pdf(x_j, mean[c][j], stDev[c][j])], [j] running
    over all the attributes of the row: the logarithm of attribute 0 starts
    the sum and those of the attributes 1, 2, ... are added to it in this
    order.  Both statistics exist for every attribute of the training
    rows, and [pdf(x, mu, sigma)] is
    (1 / (sqrt(2 pi) sigma)) exp(-(x - mu)^2 / (2 sigma^2)), every operation
    being the one of the language. *)
Theorem expSumLogPDF_sum_of_logs (x : list (list number)) (y : list nat)
  (d : data) (row : list number) :
  fit x y = Ok d ->
  row <> [] ->
  keys d = seq 1 (length d) /\
  expSumLogPDF d row
  = Ok (map (fun kc =>
               Math_exp
                 (runningSum
                    (map (fun jx =>
                            Math_log (pdf (snd jx) (meanAt (snd kc) (fst jx))
                                          (stDevAt (snd kc) (fst jx))))
                         (indexed row))))
            d) /\
  normalizedProbabilities d row
  = Ok (normalizeProbabilities (map (fun kc => classLikelihood (snd kc) row) d)) /\
  (forall kc j, In kc d -> (j < length (hd [] x))%nat ->
      exists mu sigma,
        meanAt (snd kc) j = JNum mu /\ stDevAt (snd kc) j = JNum sigma) /\
  (forall v mu sigma,
      pdf v (JNum mu) (JNum sigma)
      = mul (div (Fin 1) (mul (Math_sqrt (mul (Fin 2) Math_PI)) sigma))
            (Math_exp (div (neg (Math_pow (sub v mu) 2))
                           (mul (Fin 2) (Math_pow sigma 2))))).
Proof.
  intros Hfit Hrow. apply fit_Ok in Hfit. subst d.
  pose proof (fittedModel_trained x y) as Ht.
  split; [| split; [| split; [| split]]].
  - now rewrite fittedModel_keys, fittedModel_length.
  - now apply expSumLogPDF_running.
  - unfold normalizedProbabilities. now rewrite expSumLogPDF_running.
  - intros kc j Hin Hj. apply fittedModel_In in Hin. destruct Hin as [_ ->].
    unfold meanAt, stDevAt, fittedCategory. cbn [mean stDev].
    destruct (num_get_lt (map attributeMean (partitionOf x y (fst kc))) j) as [mu Hmu];
      [now rewrite length_map, partitionOf_length |].
    destruct (num_get_lt (map populationStdDev (partitionOf x y (fst kc))) j)
      as [sigma Hsigma]; [now rewrite length_map, partitionOf_length |].
    exists mu, sigma. now split.
  - reflexivity.
Qed.

Lemma expSumLogPDF_sum_of_logs_witness :
  keys twoModel = seq 1 (length twoModel) /\
  expSumLogPDF twoModel [Fin 2; Fin 4]
  = Ok [Math_exp (add (Math_log (pdf (Fin 2) (JNum (Fin 2)) (JNum (Fin 1))))
                      (Math_log (pdf (Fin 4) (JNum (Fin 4)) (JNum (Fin 2)))));
        Math_exp (add (Math_log (pdf (Fin 2) (JNum (Fin 9)) (JNum (Fin 2))))
                      (Math_log (pdf (Fin 4) (JNum (Fin 2)) (JNum (Fin 1)))))].
Proof.
  destruct (expSumLogPDF_sum_of_logs twoX twoY twoModel [Fin 2; Fin 4])
    as (H1 & H2 & _).
  - exact two_fit_model.
  - discriminate.
  - split; [exact H1 | exact H2].
Defined.

(** C3.  For a fitted model with at least one class and input rows with at
    least one attribute, [predict] returns one index per input row, in
    input order; the index of a row is the position of the first maximum of
    the normalized values of that row (no value is greater, no earlier
    value is greater or equal), and the label of the class at that position
    is the index plus one. *)
Theorem predict_first_maximum (x : list (list number)) (y : list nat)
  (d : data) (rows : list (list number)) :
  fit x y = Ok d ->
  d <> [] ->
  (forall row, In row rows -> row <> []) ->
  exists predictions,
    predict d rows = Ok predictions /\
    length predictions = length rows /\
    forall i row, nth_error rows i = Some row ->
      exists p r,
        normalizedProbabilities d row = Ok p /\
        length p = length d /\
        nth_error predictions i = Some r /\
        r = findHighestProbabilityIndex p /\
        first_maximum p r /\
        nth_error (keys d) r = Some (r + 1)%nat.
Proof.
  intros Hfit Hd Hrows. apply fit_Ok in Hfit. subst d.
  pose proof (fittedModel_trained x y) as Ht.
  rewrite (predict_trained _ _ Ht Hrows).
  eexists. split; [reflexivity |]. split; [apply length_map |].
  intros i row Hi.
  assert (Hrow : row <> []) by (apply Hrows; eapply nth_error_In; eauto).
  set (p := normalizeProbabilities
              (map (fun kc => classValue (snd kc) row) (fittedModel x y))).
  assert (Hlen : length p = length (fittedModel x y)).
  { unfold p. now rewrite normalizeProbabilities_length, length_map. }
  assert (Hp : p <> []).
  { intros E. rewrite E in Hlen. destruct (fittedModel x y); [congruence | discriminate]. }
  exists p, (findHighestProbabilityIndex p).
  pose proof (findHighestProbabilityIndex_first_maximum p Hp) as Hmax.
  split; [now apply normalizedProbabilities_trained |].
  split; [exact Hlen |].
  split; [exact (map_nth_error _ _ _ Hi) |].
  split; [reflexivity |].
  split; [exact Hmax |].
  - rewrite fittedModel_keys, nth_error_seq.
    destruct Hmax as [Hlt _]. rewrite Hlen, fittedModel_length in Hlt.
    destruct (Nat.ltb_spec (findHighestProbabilityIndex p) (numberOfClasses y)); [| lia].
    f_equal. lia.
Qed.

Lemma predict_first_maximum_witness :
  predict twoModel twoRows = Ok [0; 1]%nat /\
  forall i row, nth_error twoRows i = Some row ->
    exists p r,
      normalizedProbabilities twoModel row = Ok p /\
      length p = 2%nat /\
      nth_error [0; 1]%nat i = Some r /\
      r = findHighestProbabilityIndex p /\
      first_maximum p r /\
      nth_error [1; 2]%nat r = Some (r + 1)%nat.
Proof.
  destruct (predict_first_maximum twoX twoY twoModel twoRows)
    as (predictions & Hp & _ & H).
  - exact two_fit_model.
  - discriminate.
  - intros row [<- | [<- | []]]; discriminate.
  - rewrite two_predict in Hp. injection Hp as <-. split; [exact two_predict | exact H].
Defined.

(** C10, as the code has it.  For a fitted model with K classes, K at least
    one, and input rows with at least one attribute, [predict] does not
    fail and every index it returns is below K; a row for which no
    normalized value is greater than the value at index 0 gets index 0, in
    particular a row whose normalized values are all [NaN]. *)
Theorem predict_in_range (x : list (list number)) (y : list nat)
  (d : data) (rows : list (list number)) :
  fit x y = Ok d ->
  d <> [] ->
  (forall row, In row rows -> row <> []) ->
  exists predictions,
    predict d rows = Ok predictions /\
    (forall r, In r predictions -> (r < length d)%nat) /\
    forall i row p,
      nth_error rows i = Some row ->
      normalizedProbabilities d row = Ok p ->
      ((forall v, In v p -> gt v (nth 0 p NaN) = false) ->
       nth_error predictions i = Some 0%nat) /\
      ((forall v, In v p -> v = NaN) -> nth_error predictions i = Some 0%nat).
Proof.
  intros Hfit Hd Hrows. apply fit_Ok in Hfit. subst d.
  pose proof (fittedModel_trained x y) as Ht.
  rewrite (predict_trained _ _ Ht Hrows).
  eexists. split; [reflexivity |]. split.
  - intros r Hr. apply in_map_iff in Hr. destruct Hr as (row & <- & Hin).
    set (p := normalizeProbabilities _).
    assert (Hlen : length p = length (fittedModel x y)).
    { unfold p. now rewrite normalizeProbabilities_length, length_map. }
    assert (Hp : p <> []).
    { intros E. rewrite E in Hlen.
      destruct (fittedModel x y); [congruence | discriminate]. }
    destruct (findHighestProbabilityIndex_first_maximum p Hp) as [Hlt _]. lia.
  - intros i row p Hi Hp.
    assert (Hrow : row <> []) by (apply Hrows; eapply nth_error_In; eauto).
    rewrite (normalizedProbabilities_trained _ _ Ht Hrow) in Hp.
    injection Hp as <-.
    set (p := normalizeProbabilities _).
    assert (Hstay : (forall v, In v p -> gt v (nth 0 p NaN) = false) ->
                    nth_error
                      (map (fun row =>
                              findHighestProbabilityIndex
                                (normalizeProbabilities
                                   (map (fun kc => classValue (snd kc) row)
                                        (fittedModel x y)))) rows) i
                    = Some 0%nat).
    { intros Hno. rewrite (map_nth_error _ _ _ Hi). f_equal. fold p.
      apply (findFrom_stays p (length p) 0). intros j.
      destruct (nth_in_or_default j p NaN) as [Hin | ->]; [now apply Hno | reflexivity]. }
    split; [exact Hstay |].
    intros Hnan. apply Hstay. intros v Hv. now rewrite (Hnan v Hv).
Qed.

Lemma predict_in_range_witness :
  predict twoModel twoRows = Ok [0; 1]%nat /\
  (forall r, In r [0; 1]%nat -> (r < 2)%nat) /\
  forall i row p,
    nth_error twoRows i = Some row ->
    normalizedProbabilities twoModel row = Ok p ->
    ((forall v, In v p -> gt v (nth 0 p NaN) = false) ->
     nth_error [0; 1]%nat i = Some 0%nat) /\
    ((forall v, In v p -> v = NaN) -> nth_error [0; 1]%nat i = Some 0%nat).
Proof.
  destruct (predict_in_range twoX twoY twoModel twoRows)
    as (predictions & Hp & H1 & H2).
  - exact two_fit_model.
  - discriminate.
  - intros row [<- | [<- | []]]; discriminate.
  - rewrite two_predict in Hp. injection Hp as <-.
    split; [exact two_predict |]. split; [exact H1 | exact H2].
Defined.

(** C10 as stated fails.  A matrix of two rows without attribute is fitted
    with the classes 1 and 2, and [predict] throws on its rows; a matrix
    fitted without label leaves no class (K = 0), and [predict] answers
    index 0, which is not below K. *)
Lemma predict_fails_or_leaves_range :
  (exists d,
      fit [[]; []] [1; 2]%nat = Ok d /\ keys d = [1; 2]%nat /\
      predict d [[]; []] = TypeError) /\
  (exists d,
      fit [[]] [] = Ok d /\ length d = 0%nat /\
      predict d [[Fin 1]] = Ok [0%nat]).
Proof.
  split.
  - eexists. split; [reflexivity |]. split; reflexivity.
  - exists []. split; [exact fit_no_class |]. split; reflexivity.
Qed.

(** ** Labels in first-appearance order *)

Section Labels.

Lemma growing_of_ordered suf : forall pre,
  (forall l, In l (pre ++ suf) -> (1 <= l)%nat) ->
  firstAppearanceOrdered (pre ++ suf) ->
  growing (list_max pre) suf.
Proof.
  induction suf as [| l rest IH]; intros pre Hpos Hord; [exact I |].
  cbn [growing]. split.
  - split; [apply Hpos, in_elt |].
    destruct (Nat.le_gt_cases l 1) as [Hle | Hgt]; [lia |].
    destruct (Hord (length pre) l (l - 1)%nat) as (i' & Hi' & Hnth).
    + rewrite nth_error_app2, Nat.sub_diag by lia. reflexivity.
    + lia.
    + rewrite nth_error_app1 in Hnth by assumption.
      apply nth_error_In in Hnth.
      assert (Hall : Forall (fun k => (k <= list_max pre)%nat) pre)
        by now apply list_max_le.
      rewrite Forall_forall in Hall. specialize (Hall _ Hnth). lia.
  - specialize (IH (pre ++ [l])).
    rewrite <- app_assoc, list_max_app in IH. cbn [app list_max fold_right] in IH.
    rewrite Nat.max_0_r in IH. now apply IH.
Qed.

Lemma obj_set_next n c :
  obj_set (n + 1) c (objOf n (fun _ => c)) = objOf (n + 1) (fun _ => c).
Proof.
  unfold objOf. replace (n + 1)%nat with (1 + n)%nat by lia.
  rewrite obj_set_objFrom_end. apply objFrom_ext. intros k _.
  now destruct (Nat.eqb k (1 + n)).
Qed.

(** On labels in first-appearance order the scan counts the largest label
    and creates the keys up to it. *)
Lemma addCategories_growing labels : forall n,
  growing n labels ->
  addCategories labels n (objOf n (fun _ => emptyCategory))
  = (Nat.max n (list_max labels),
     objOf (Nat.max n (list_max labels)) (fun _ => emptyCategory)).
Proof.
  induction labels as [| l rest IH]; intros n Hg.
  - cbn [addCategories list_max fold_right]. now rewrite Nat.max_0_r.
  - cbn [growing] in Hg. destruct Hg as [Hl Hg].
    cbn [addCategories list_max fold_right]. fold (list_max rest).
    destruct (Nat.ltb_spec n l) as [Hlt | Hge].
    + assert (l = (n + 1)%nat) as -> by lia.
      rewrite obj_set_next.
      replace (Nat.max n (n + 1)) with (n + 1)%nat in Hg by lia.
      rewrite (IH _ Hg).
      replace (Nat.max n (Nat.max (n + 1) (list_max rest)))
        with (Nat.max (n + 1) (list_max rest)) by lia.
      reflexivity.
    + replace (Nat.max n l) with n in Hg by lia.
      rewrite (IH _ Hg).
      replace (Nat.max n (Nat.max l (list_max rest)))
        with (Nat.max n (list_max rest)) by lia.
      reflexivity.
Qed.

Lemma list_max_range K y : labelRange K y -> list_max y = K.
Proof.
  intros Hr. apply Nat.le_antisymm.
  - apply list_max_le, Forall_forall. intros l Hl. apply Hr in Hl. lia.
  - destruct K as [| K]; [lia |].
    assert (Hin : In (S K) y) by (apply Hr; lia).
    assert (Hall : Forall (fun k => (k <= list_max y)%nat) y) by now apply list_max_le.
    rewrite Forall_forall in Hall. now apply Hall.
Qed.

Lemma addCategories_valid K y :
  labelRange K y -> firstAppearanceOrdered y ->
  addCategories y 0 [] = (K, objOf K (fun _ => emptyCategory)).
Proof.
  intros Hr Hord.
  pose proof (addCategories_growing y 0) as H.
  cbn [Nat.max] in H. rewrite (list_max_range K y Hr) in H.
  apply H. apply (growing_of_ordered y []); [| assumption].
  intros l Hl. apply Hr in Hl. lia.
Qed.

Lemma formatData_valid x y K :
  x <> [] -> length x = length y ->
  labelRange K y -> firstAppearanceOrdered y ->
  formatData x y = Ok (objOf K (fun c => unfitted (partitionOf x y c))).
Proof.
  intros Hx Hlen Hr Hord. unfold formatData.
  rewrite (addCategories_valid K y Hr Hord).
  destruct x as [| row0 x']; [congruence |].
  cbn [nth_error defined bind]. rewrite addAttributeArrays_all. cbn [bind].
  rewrite (pushRows_valid K y (length row0) _ 0 (fun _ => repeat [] (length row0))).
  - f_equal. apply objOf_ext. intros k _. f_equal.
    cbn [skipn]. apply appendRows_repeat.
  - intros; apply repeat_length.
  - intros j Hj. cbn [Nat.add].
    destruct (nth_error y j) as [k |] eqn:E.
    + exists k. split; [reflexivity |]. apply Hr. eapply nth_error_In, E.
    + apply nth_error_None in E. lia.
Qed.

Lemma in_combine_nth_error {A B : Type} (l : list A) (l' : list B) : forall i a b,
  nth_error l i = Some a -> nth_error l' i = Some b -> In (a, b) (combine l l').
Proof.
  revert l'.
  induction l as [| a0 l IH]; intros l' [| i] a b Ha Hb; try discriminate;
    destruct l' as [| b0 l']; try discriminate; cbn in *.
  - left. congruence.
  - right. eapply IH; eauto.
Qed.

Lemma classRows_In x y i row c :
  nth_error x i = Some row -> nth_error y i = Some c -> In row (classRows c x y).
Proof.
  intros Hx Hy. unfold classRows.
  apply in_map_iff. exists (row, c). split; [reflexivity |].
  apply filter_In. split.
  - eapply in_combine_nth_error; eauto.
  - apply Nat.eqb_refl.
Qed.

Lemma classRows_incl c x y row : In row (classRows c x y) -> In row x.
Proof.
  unfold classRows. intros H. apply in_map_iff in H.
  destruct H as ([r l] & <- & H). apply filter_In in H.
  destruct H as [H _]. now apply in_combine_l in H.
Qed.

Lemma column_rectangular j rows :
  (forall row, In row rows -> (j < length row)%nat) ->
  column j rows = map (fun row => JNum (nth j row NaN)) rows.
Proof.
  intros H. unfold column. apply map_ext_in. intros row Hrow.
  unfold num_get.
  now rewrite (nth_error_nth' row NaN (H row Hrow)).
Qed.

End Labels.

(** C4.  Let [x] and [y] have the same non-zero length, the rows of [x] all
    have [A] cells, the values of [y] be the range 1..K and appear for the
    first time in increasing order.  Then the scan of [y] counts K classes,
    [fit] returns, the keys of [#data] are 1..K, and for every class [c] of
    1..K and every attribute [j] below [A], [sortedAttributes[c][j]] holds
    the cells [x[i][j]] of the rows [i] with [y[i] = c], in index order;
    every row is among the rows of the class of its label. *)
Theorem fit_partition (x : list (list number)) (y : list nat) (K A : nat) :
  x <> [] ->
  length x = length y ->
  (forall row, In row x -> length row = A) ->
  labelRange K y ->
  firstAppearanceOrdered y ->
  numberOfClasses y = K /\
  exists d,
    fit x y = Ok d /\
    keys d = seq 1 K /\
    (forall c, (1 <= c <= K)%nat ->
       exists cat cols,
         obj_get c d = Some cat /\
         sortedAttributes cat = Some cols /\
         length cols = A /\
         forall j, (j < A)%nat ->
           nth_error cols j
           = Some (map (fun row => JNum (nth j row NaN)) (classRows c x y))) /\
    (forall i row c,
       nth_error x i = Some row -> nth_error y i = Some c ->
       (1 <= c <= K)%nat /\ In row (classRows c x y)).
Proof.
  intros Hx Hlen Hrect Hr Hord.
  assert (HK : numberOfClasses y = K).
  { unfold numberOfClasses. now rewrite (addCategories_valid K y Hr Hord). }
  assert (HA : length (hd [] x) = A).
  { destruct x as [| row0 x']; [congruence |]. apply Hrect. now left. }
  split; [exact HK |].
  exists (fittedModel x y).
  split; [| split; [| split]].
  - eapply fit_of_formatData. now apply (formatData_valid x y K).
  - now rewrite fittedModel_keys, HK.
  - intros c Hc. exists (fittedCategory x y c), (partitionOf x y c).
    split; [| split; [| split]].
    + unfold fittedModel. rewrite HK. now apply obj_get_objOf.
    + reflexivity.
    + now rewrite partitionOf_length.
    + intros j Hj. unfold partitionOf. rewrite HA.
      rewrite nth_error_map, nth_error_seq.
      destruct (Nat.ltb_spec j A); [| lia]. cbn [option_map Nat.add]. f_equal.
      apply column_rectangular. intros row Hrow.
      apply classRows_incl in Hrow. rewrite (Hrect row Hrow). assumption.
  - intros i row c Hxi Hyi. split.
    + apply Hr. eapply nth_error_In, Hyi.
    + eapply classRows_In; eauto.
Qed.

Lemma fit_partition_witness :
  numberOfClasses [1; 2; 1]%nat = 2%nat /\
  exists d,
    fit [[Fin 1]; [Fin 2]; [Fin 3]] [1; 2; 1]%nat = Ok d /\
    keys d = seq 1 2 /\
    (forall c, (1 <= c <= 2)%nat ->
       exists cat cols,
         obj_get c d = Some cat /\
         sortedAttributes cat = Some cols /\
         length cols = 1%nat /\
         forall j, (j < 1)%nat ->
           nth_error cols j
           = Some (map (fun row => JNum (nth j row NaN))
                       (classRows c [[Fin 1]; [Fin 2]; [Fin 3]] [1; 2; 1]%nat))) /\
    (forall i row c,
       nth_error [[Fin 1]; [Fin 2]; [Fin 3]] i = Some row ->
       nth_error [1; 2; 1]%nat i = Some c ->
       (1 <= c <= 2)%nat /\ In row (classRows c [[Fin 1]; [Fin 2]; [Fin 3]] [1; 2; 1]%nat)).
Proof.
  apply (fit_partition [[Fin 1]; [Fin 2]; [Fin 3]] [1; 2; 1]%nat 2 1).
  - discriminate.
  - reflexivity.
  - intros row [<- | [<- | [<- | []]]]; reflexivity.
  - intros l. cbn. lia.
  - intros [| [| [| i]]] c c'; cbn.
    + intros [= <-] Hc. lia.
    + intros [= <-] Hc. exists 0%nat. split; [lia |]. cbn. f_equal. lia.
    + intros [= <-] Hc. lia.
    + destruct i; discriminate.
Defined.

(** ** A zero standard deviation *)

Section Degenerate.

Lemma obj_get_In_entry k c d : obj_get k d = Some c -> In (k, c) d.
Proof.
  induction d as [| [k' c'] d IH]; cbn; [discriminate |].
  destruct (Nat.eqb_spec k k') as [-> | _].
  - intros [= ->]. now left.
  - intros H. right. now apply IH.
Qed.

Lemma sum_NaN xs : In NaN xs -> sum xs = NaN.
Proof. intros H. rewrite <- fold_left_add_sum. now apply pSum_NaN. Qed.

Lemma indexedFrom_In {A : Type} (l : list A) : forall a j,
  (j < length l)%nat -> exists v, In ((a + j)%nat, v) (indexedFrom a l).
Proof.
  induction l as [| v l IH]; intros a j Hj; [cbn in Hj; lia |].
  rewrite indexedFrom_cons. destruct j as [| j].
  - exists v. left. f_equal. lia.
  - destruct (IH (S a) j) as [w Hw]; [cbn in Hj; lia |].
    exists w. right. replace (a + S j)%nat with (S a + j)%nat by lia. exact Hw.
Qed.

(** One class with a zero deviation at an attribute of the row turns the
    value of that class into [NaN]. *)
Lemma classValue_zero_stDev cat ss j row :
  stDev cat = Some ss -> nth_error ss j = Some (Fin 0) -> (j < length row)%nat ->
  classValue cat row = NaN.
Proof.
  intros Hs Hj Hlen. unfold classValue.
  rewrite sum_NaN; [reflexivity |].
  destruct (indexedFrom_In row 0 j Hlen) as [v Hv]. cbn [Nat.add] in Hv.
  apply in_map_iff. exists (j, v). split; [| exact Hv].
  unfold logDensity, stDevAt, num_get. cbn [fst snd]. rewrite Hs, Hj.
  now rewrite pdf_zero_stDev.
Qed.

Lemma findHighestProbabilityIndex_all_NaN p :
  (forall v, In v p -> v = NaN) -> findHighestProbabilityIndex p = 0%nat.
Proof.
  intros H. apply (findFrom_stays p (length p) 0). intros j.
  destruct (nth_in_or_default j p NaN) as [Hin | ->]; [| reflexivity].
  now rewrite (H _ Hin).
Qed.

Lemma map_constant {A B : Type} (f : A -> B) (b : B) l :
  (forall a, In a l -> f a = b) -> map f l = repeat b (length l).
Proof.
  induction l as [| a l IH]; intros H; [reflexivity |].
  cbn. rewrite H by (now left). f_equal. apply IH. intros; apply H; now right.
Qed.

Lemma normalized_all_NaN (d : data) (cat : category) (k : nat) row :
  In (k, cat) d -> classValue cat row = NaN ->
  forall v,
    In v (normalizeProbabilities (map (fun kc => classValue (snd kc) row) d)) ->
    v = NaN.
Proof.
  intros Hin Hc v. apply normalizeProbabilities_NaN, pSum_NaN.
  apply in_map_iff. exists (k, cat). now split.
Qed.

Lemma constant_fit : fit constantX constantY = Ok constantModel.
Proof.
  rewrite (fit_of_formatData constantX constantY
             (objOf 1 (fun c => unfitted (partitionOf constantX constantY c))))
    by reflexivity.
  unfold fittedModel, fittedCategory.
  change (numberOfClasses constantY) with 1%nat.
  change (partitionOf constantX constantY) with
    (fun c => map (fun j => column j (classRows c constantX constantY)) [0%nat]).
  cbn [objOf objFrom seq map].
  change (column 0 (classRows 1 constantX constantY))
    with (map (fun r => JNum (Fin r)) [1; 1]).
  unfold constantModel. repeat f_equal.
  - rewrite attributeMean_arithmeticMean, map_map. cbn [ToNumber].
    rewrite arithmeticMean_Fin by discriminate. f_equal.
    unfold Rmean. cbn. field.
  - rewrite populationStdDev_populationStandardDeviation, map_map. cbn [ToNumber].
    rewrite populationStandardDeviation_Fin by discriminate. f_equal.
    replace (Rvariance [1; 1]) with 0; [apply sqrt_0 |].
    unfold Rvariance, Rmean. cbn. field.
Qed.

(** With a zero deviation at attribute [j] of some class of a trained
    model, the normalized values of a row that has attribute [j] are all
    [NaN]. *)
Lemma zero_stDev_all_NaN (d : data) c cat ss j row :
  obj_get c d = Some cat ->
  stDev cat = Some ss ->
  nth_error ss j = Some (Fin 0) ->
  (j < length row)%nat ->
  forall v,
    In v (normalizeProbabilities (map (fun kc => classValue (snd kc) row) d)) ->
    v = NaN.
Proof.
  intros Hget Hs Hj Hrow.
  apply (normalized_all_NaN d cat c row).
  - now apply obj_get_In_entry.
  - now apply (classValue_zero_stDev cat ss j row).
Qed.

Lemma constant_predict :
  predict constantModel [[Fin 1]; [Fin 7]] = Ok [0; 0]%nat.
Proof.
  rewrite predict_trained.
  - cbn [map]. f_equal.
    rewrite !findHighestProbabilityIndex_all_NaN; [reflexivity | |];
      eapply (zero_stDev_all_NaN constantModel 1%nat _ [Fin 0] 0%nat);
      try reflexivity; cbn; lia.
  - repeat constructor; discriminate.
  - intros row [<- | [<- | []]]; discriminate.
Qed.

End Degenerate.

(** C6, as the code has it.  When the fitted model has a zero standard
    deviation at attribute [j] of some class, [predict] raises nothing: for
    input rows that have attribute [j] every normalized value is [NaN] and
    the prediction is index 0. *)
Theorem predict_zero_stDev (x : list (list number)) (y : list nat) (d : data)
  (rows : list (list number)) (c : nat) (cat : category) (ss : list number)
  (j : nat) :
  fit x y = Ok d ->
  obj_get c d = Some cat ->
  stDev cat = Some ss ->
  nth_error ss j = Some (Fin 0) ->
  (forall row, In row rows -> (j < length row)%nat) ->
  predict d rows = Ok (repeat 0%nat (length rows)) /\
  forall row, In row rows ->
    exists p, normalizedProbabilities d row = Ok p /\ forall v, In v p -> v = NaN.
Proof.
  intros Hfit Hget Hs Hj Hrows.
  apply fit_Ok in Hfit. subst d.
  pose proof (fittedModel_trained x y) as Ht.
  assert (Hne : forall row, In row rows -> row <> []).
  { intros row Hrow E. specialize (Hrows row Hrow).
    rewrite E in Hrows. cbn in Hrows. lia. }
  split.
  - rewrite (predict_trained _ _ Ht Hne). f_equal.
    apply map_constant. intros row Hrow.
    apply findHighestProbabilityIndex_all_NaN.
    apply (zero_stDev_all_NaN _ c cat ss j row Hget Hs Hj). now apply Hrows.
  - intros row Hrow. eexists. split.
    + apply normalizedProbabilities_trained; auto.
    + apply (zero_stDev_all_NaN _ c cat ss j row Hget Hs Hj). now apply Hrows.
Qed.

Lemma predict_zero_stDev_witness :
  predict constantModel [[Fin 1]; [Fin 7]] = Ok [0; 0]%nat /\
  forall row, In row [[Fin 1]; [Fin 7]] ->
    exists p,
      normalizedProbabilities constantModel row = Ok p /\
      forall v, In v p -> v = NaN.
Proof.
  apply (predict_zero_stDev constantX constantY constantModel [[Fin 1]; [Fin 7]]
           1%nat _ [Fin 0] 0%nat constant_fit eq_refl eq_refl eq_refl).
  intros row [<- | [<- | []]]; cbn; lia.
Defined.

(** C6 as stated fails: on a training set with a constant attribute [fit]
    stores a zero standard deviation, and [predict] then returns
    predictions, not an error. *)
Lemma predict_zero_stDev_no_error :
  fit constantX constantY = Ok constantModel /\
  (exists cat, obj_get 1%nat constantModel = Some cat /\ stDev cat = Some [Fin 0]) /\
  predict constantModel [[Fin 1]; [Fin 7]] = Ok [0; 0]%nat /\
  predict constantModel [[Fin 1]; [Fin 7]] <> TypeError.
Proof.
  split; [exact constant_fit |].
  split; [eexists; split; reflexivity |].
  rewrite constant_predict. split; [reflexivity | discriminate].
Qed.

(** ** Shapes that do not match *)

Section Shapes.

Lemma formatData_pushRows x y d :
  formatData x y = Ok d ->
  exists row0 x',
    x = row0 :: x' /\
    pushRows x 0 y (length row0)
      (objOf (numberOfClasses y) (fun _ => unfitted (repeat [] (length row0))))
    = Ok d.
Proof.
  unfold formatData, numberOfClasses.
  destruct (addCategories y 0 []) as [n d0] eqn:E.
  destruct x as [| row0 x']; [discriminate |].
  cbn [nth_error defined bind fst].
  destruct (addAttributeArrays (seq 1 n) (length row0) d0) as [d1 |] eqn:E1;
    [| discriminate].
  cbn [bind]. intros H. exists row0, x'. split; [reflexivity |].
  assert (Hd0 : d0 = objOf n (fun _ => emptyCategory)).
  { pose proof (addCategories_range y (length row0) d1) as Hr.
    unfold numberOfClasses in Hr. rewrite E in Hr. apply Hr, E1. }
  subst d0. rewrite addAttributeArrays_all in E1. now injection E1 as <-.
Qed.

(** With at least one attribute the third loop only completes when every
    row has a label. *)
Lemma pushRows_Ok_labels n labels a : forall rows i cols d',
  (forall k, (1 <= k <= n)%nat -> length (cols k) = S a) ->
  pushRows rows i labels (S a) (objOf n (fun k => unfitted (cols k))) = Ok d' ->
  forall j, (j < length rows)%nat ->
    exists k, nth_error labels (i + j) = Some k /\ (1 <= k <= n)%nat.
Proof.
  induction rows as [| row rest IH]; intros i cols d' Hlen H j Hj;
    [cbn in Hj; lia |].
  cbn [pushRows] in H.
  destruct (pushRow (seq 0 (S a)) (nth_error labels i) row
              (objOf n (fun k => unfitted (cols k)))) as [d1 |] eqn:E;
    [| discriminate].
  cbn [bind] in H.
  destruct (pushRow_Ok_label _ _ _ _ _ _ E) as (k0 & Hl & Hk0).
  destruct j as [| j].
  - exists k0. now rewrite Nat.add_0_r.
  - rewrite Hl, <- (Hlen k0 Hk0), pushRow_whole in E by assumption.
    injection E as <-.
    replace (i + S j)%nat with (S i + j)%nat by lia.
    eapply IH; [| exact H | cbn in Hj; lia].
    apply updCols_length. exact Hlen.
Qed.

Lemma formatData_more_rows x y :
  (length y < length x)%nat -> hd [] x <> [] -> formatData x y = TypeError.
Proof.
  intros Hlen Hhd. destruct (formatData x y) as [d |] eqn:E; [| reflexivity].
  exfalso. apply formatData_pushRows in E.
  destruct E as (row0 & x' & -> & H). cbn [hd] in Hhd.
  destruct row0 as [| v row0]; [congruence |]. cbn [length] in H.
  destruct (pushRows_Ok_labels _ _ _ _ _ (fun _ => repeat [] (S (length row0))) _
              (fun _ _ => repeat_length _ _) H (length y) Hlen) as (k & Hk & _).
  cbn [Nat.add] in Hk.
  assert (Hnone : nth_error y (length y) = None) by (apply nth_error_None; lia).
  congruence.
Qed.

Lemma classRows_firstn c x y :
  classRows c x y = classRows c x (firstn (length x) y).
Proof. unfold classRows. now rewrite <- combine_firstn_l. Qed.

Lemma agreements_firstn predictions y :
  agreements predictions y = agreements predictions (firstn (length predictions) y).
Proof. unfold agreements. now rewrite <- combine_firstn_l. Qed.

Lemma ragged_fit : fit raggedX raggedY = Ok (fittedModel raggedX raggedY).
Proof.
  apply (fit_of_formatData raggedX raggedY
           (objOf 1 (fun c => unfitted (partitionOf raggedX raggedY c)))).
  reflexivity.
Qed.

End Shapes.

(** C7, as the code has it.  Neither [fit] nor [accuracyScore] checks a
    shape.  When [fit] returns, the arrays of class [c] hold, for every
    attribute index of the first row, that cell of the rows paired by
    position with a label [c]; labels past the last row are paired with
    nothing.  With at least one attribute and fewer labels than rows [fit]
    fails with the [TypeError] of the first row without label.
    [accuracyScore] compares the labels at the positions of the predictions
    and divides by the number of predictions. *)
Theorem shapes_unchecked :
  (forall x y d c cat,
      fit x y = Ok d -> obj_get c d = Some cat ->
      sortedAttributes cat
      = Some (map (fun j => column j (classRows c x (firstn (length x) y)))
                  (seq 0 (length (hd [] x))))) /\
  (forall x y, (length y < length x)%nat -> hd [] x <> [] -> fit x y = TypeError) /\
  (forall predictions y,
      accuracyScore predictions y
      = div (of_nat (agreements predictions (firstn (length predictions) y)))
            (of_nat (length predictions))).
Proof.
  split; [| split].
  - intros x y d c cat Hfit Hget. apply fit_Ok in Hfit. subst d.
    apply fittedModel_get in Hget. destruct Hget as [_ ->].
    unfold fittedCategory, partitionOf. cbn [sortedAttributes].
    now rewrite <- classRows_firstn.
  - intros x y Hlen Hhd. unfold fit.
    now rewrite formatData_more_rows.
  - intros predictions y.
    now rewrite accuracyScore_agreements, <- agreements_firstn.
Qed.

(** C7 as stated fails: [fit] returns on a matrix with rows of unequal
    length and one label too many, cutting the longer row; and
    [accuracyScore] returns a score for one prediction against two
    labels. *)
Lemma shape_mismatch_undetected :
  length raggedX <> length raggedY /\
  (exists d cat,
      fit raggedX raggedY = Ok d /\
      obj_get 1%nat d = Some cat /\
      sortedAttributes cat = Some [[JNum (Fin 1); JNum (Fin 2)]]) /\
  accuracyScore [0]%nat [1; 2]%nat = Fin 1.
Proof.
  split; [discriminate |]. split.
  - exists (fittedModel raggedX raggedY), (fittedCategory raggedX raggedY 1).
    split; [exact ragged_fit |]. split; reflexivity.
  - rewrite accuracyScore_agreements.
    change (div (Fin (INR 1)) (Fin (INR 1)) = Fin 1).
    rewrite div_Fin; simpl; [f_equal; field | lra].
Qed.

(** C8, as the code has it.  With no prediction [accuracyScore] returns
    [NaN], the quotient 0/0, whatever the labels, and signals nothing; with
    at least one prediction it returns a number between 0 and 1.  The
    result is a function of the two arguments alone. *)
Theorem accuracyScore_no_signal :
  (forall y, accuracyScore [] y = NaN) /\
  (forall predictions y, predictions <> [] ->
      exists r, 0 <= r <= 1 /\ accuracyScore predictions y = Fin r).
Proof.
  split.
  - apply accuracyScore_nil.
  - intros predictions y Hne.
    destruct (accuracyScore_ratio predictions y Hne) as [H1 H2].
    eexists. split; [exact H2 | exact H1].
Qed.

(** C8 as stated fails: on two empty sequences [accuracyScore] returns
    [NaN]. *)
Lemma accuracyScore_empty_NaN : accuracyScore [] [] = NaN.
Proof. apply accuracyScore_nil. Qed.

(** ** The normalization law *)

Section NormalizationLaw.

Lemma two_total_pos : 0 < pSumWith 0 addUp (twoValues 2 4).
Proof.
  pose proof binary64_u_bounds as [Hu0 _].
  pose proof (twoValues_pos 2 4 (nth 0 (twoValues 2 4) 0) (or_introl eq_refl)) as H1.
  pose proof (twoValues_pos 2 4 (nth 1 (twoValues 2 4) 0)
                (or_intror (or_introl eq_refl))) as H2.
  cbn [nth twoValues] in H1, H2.
  unfold pSumWith, twoValues, addUp. cbn [fold_left].
  rewrite Rplus_0_l.
  apply Rmult_lt_0_compat; [| lra].
  apply Rplus_lt_0_compat; [| exact H2].
  apply Rmult_lt_0_compat; [exact H1 | lra].
Qed.

(** In binary64 the normalized values need not add up to 1 exactly: six
    equal values give one unit in the last place less. *)
Lemma normalized64_quarters :
  pSum64 (normalizeProbabilities64 (repeat 0.25%float 6)) = 0x1.fffffffffffffp-1%float.
Proof. reflexivity. Qed.

End NormalizationLaw.

(** C9.  For a fitted model with K classes and an input row with at least
    one attribute, the normalization step of [predict] divides each of the
    K class values by their sum accumulated from 0 in class order.  In an
    arithmetic whose sums round with a relative error of at most [u] and
    whose quotients round with that relative error or an absolute error of
    at most [eta] (for binary64: 2^-53 and 2^-1075, as long as nothing
    overflows), applied to K values that are not negative and whose
    computed total is positive, the K normalized values add up, in the
    same arithmetic, to 1 within 8 K u + 2 K eta; with the constants of
    binary64 and at most 1000 classes this is within 1e-9. *)
Theorem normalized_sum_one (u eta : R) (plus quotient : R -> R -> R)
  (x : list (list number)) (y : list nat) (d : data) (row e : list number)
  (rs : list R) :
  0 <= u -> 0 <= eta ->
  rounds u eta plus quotient ->
  fit x y = Ok d ->
  row <> [] ->
  expSumLogPDF d row = Ok e ->
  length rs = length d ->
  (forall r, In r rs -> 0 <= r) ->
  0 < pSumWith 0 plus rs ->
  8 * INR (length d) * u <= 1 ->
  normalizedProbabilities d row = Ok (normalizeProbabilitiesWith (Fin 0) add div e) /\
  length e = length d /\
  length (normalizeProbabilitiesWith 0 plus quotient rs) = length d /\
  Rabs (pSumWith 0 plus (normalizeProbabilitiesWith 0 plus quotient rs) - 1)
  <= 8 * INR (length d) * u + 2 * INR (length d) * eta /\
  (u <= binary64_u -> eta <= binary64_eta -> (length d <= 1000)%nat ->
   Rabs (pSumWith 0 plus (normalizeProbabilitiesWith 0 plus quotient rs) - 1)
   <= tolerance).
Proof.
  intros Hu Heta Hr Hfit Hrow He Hlen Hnn Hpos Hsmall.
  assert (Hbound :
    Rabs (pSumWith 0 plus (normalizeProbabilitiesWith 0 plus quotient rs) - 1)
    <= 8 * INR (length d) * u + 2 * INR (length d) * eta).
  { rewrite <- Hlen in *. now apply rounded_normalization. }
  split; [| split; [| split; [| split]]].
  - unfold normalizedProbabilities. rewrite He. cbn [bind].
    now rewrite normalizeProbabilities_With.
  - apply fit_Ok in Hfit. subst d.
    rewrite (expSumLogPDF_trained _ _ (fittedModel_trained x y) Hrow) in He.
    injection He as <-. now rewrite length_map.
  - unfold normalizeProbabilitiesWith. now rewrite length_map.
  - exact Hbound.
  - intros Hu64 Heta64 HK.
    apply Rle_trans with (1 := Hbound).
    apply binary64_tolerance; [| lra | lra].
    split; [apply pos_INR |]. apply le_INR in HK.
    assert (H1000 : INR 1000 = 1000) by (rewrite INR_IZR_INZ; reflexivity).
    lra.
Qed.

Lemma normalized_sum_one_witness :
  normalizedProbabilities twoModel [Fin 2; Fin 4]
  = Ok (normalizeProbabilitiesWith (Fin 0) add div (map Fin (twoValues 2 4))) /\
  Rabs (pSumWith 0 addUp
          (normalizeProbabilitiesWith 0 addUp divDown (twoValues 2 4)) - 1)
  <= tolerance.
Proof.
  pose proof binary64_u_bounds as [Hu0 Hu1].
  pose proof binary64_eta_bounds as [He0 He1].
  destruct (normalized_sum_one binary64_u binary64_eta addUp divDown
              twoX twoY twoModel [Fin 2; Fin 4] (map Fin (twoValues 2 4))
              (twoValues 2 4))
    as (H1 & _ & _ & _ & H5).
  - lra.
  - lra.
  - exact addUp_divDown_rounds.
  - exact two_fit_model.
  - discriminate.
  - exact (two_expSumLogPDF 2 4).
  - reflexivity.
  - intros r Hr. left. now apply (twoValues_pos 2 4).
  - exact two_total_pos.
  - cbn [length twoModel INR]. simpl in Hu1. lra.
  - split; [exact H1 |]. apply H5; [lra | lra | cbn; lia].
Defined.

(** * Further properties of the classifier *)

(** ** When [fit] returns *)

Section FitReturns.

Lemma addCategories_fst_ge labels : forall n d,
  (n <= fst (addCategories labels n d))%nat.
Proof.
  induction labels as [| l labels IH]; intros n d; cbn [addCategories]; [cbn; lia |].
  destruct (Nat.ltb n l); [| apply IH].
  specialize (IH (n + 1)%nat (obj_set l emptyCategory d)). lia.
Qed.

(** A key created by the scan lies above the counter at that moment. *)
Lemma addCategories_new_keys labels : forall n d k,
  In k (keys (snd (addCategories labels n d))) -> In k (keys d) \/ (n < k)%nat.
Proof.
  induction labels as [| l labels IH]; intros n d k; cbn [addCategories]; [now left |].
  destruct (Nat.ltb_spec n l) as [Hlt | Hge]; [| apply IH].
  intros H. apply IH in H. destruct H as [H | H]; [| right; lia].
  apply obj_set_In in H. destruct H as [-> | H]; [right; lia | now left].
Qed.

Lemma keys_objOf n f : keys (objOf n f) = seq 1 n.
Proof. apply keys_objFrom. Qed.

(** If the scan ends on the keys 1..K, every label that raised the counter
    was the counter plus one. *)
Lemma addCategories_growing_inv labels : forall n K,
  addCategories labels n (objOf n (fun _ => emptyCategory))
  = (K, objOf K (fun _ => emptyCategory)) ->
  (forall l, In l labels -> (1 <= l)%nat) ->
  growing n labels.
Proof.
  induction labels as [| l labels IH]; intros n K H Hpos; [exact I |].
  cbn [addCategories] in H. cbn [growing].
  assert (Hl : (1 <= l)%nat) by (apply Hpos; now left).
  destruct (Nat.ltb_spec n l) as [Hlt | Hge].
  - destruct (Nat.eq_dec l (n + 1)) as [-> | Hne].
    + rewrite obj_set_next in H. split; [lia |].
      replace (Nat.max n (n + 1)) with (n + 1)%nat by lia.
      apply (IH _ K H). intros; apply Hpos; now right.
    + exfalso.
      pose proof (addCategories_fst_ge labels (n + 1)
                    (obj_set l emptyCategory (objOf n (fun _ => emptyCategory)))) as HK.
      pose proof (addCategories_new_keys labels (n + 1)
                    (obj_set l emptyCategory (objOf n (fun _ => emptyCategory)))
                    (n + 1)%nat) as Hnew.
      rewrite H in HK, Hnew. cbn [fst snd] in HK, Hnew.
      destruct Hnew as [Hk | Hk]; [| | lia].
      * rewrite keys_objOf. apply in_seq. lia.
      * apply obj_set_In in Hk. destruct Hk as [Hk | Hk]; [lia |].
        rewrite keys_objOf in Hk. apply in_seq in Hk. lia.
  - split; [lia |].
    replace (Nat.max n l) with n by lia.
    apply (IH _ K H). intros; apply Hpos; now right.
Qed.

(** Appending a code that is at most one above the codes so far keeps the
    codes a contiguous range in first-appearance order. *)
Lemma valid_snoc m arr c :
  labelRange m arr -> firstAppearanceOrdered arr ->
  (1 <= c <= m + 1)%nat ->
  labelRange (Nat.max m c) (arr ++ [c]) /\ firstAppearanceOrdered (arr ++ [c]).
Proof.
  intros Hr Hord Hc. split.
  - intros l. rewrite in_app_iff. cbn [In]. specialize (Hr l). split.
    + intros [Hin | [<- | []]]; [apply Hr in Hin |]; lia.
    + intros Hl. destruct (Nat.le_gt_cases l m) as [Hle | Hgt].
      * left. apply Hr. lia.
      * right. left. lia.
  - intros i a a' Hi Ha.
    destruct (Nat.lt_ge_cases i (length arr)) as [Hlt | Hge].
    + rewrite nth_error_app1 in Hi by assumption.
      destruct (Hord i a a' Hi Ha) as (i' & Hi' & Hn).
      exists i'. split; [assumption |].
      rewrite nth_error_app1 by lia. exact Hn.
    + rewrite nth_error_app2 in Hi by assumption.
      destruct (i - length arr)%nat as [| k] eqn:E; cbn in Hi;
        [| destruct k; discriminate].
      injection Hi as <-.
      assert (Hin : In a' arr) by (apply Hr; lia).
      apply In_nth_error in Hin. destruct Hin as [i' Hi'].
      exists i'. split.
      * assert (i' < length arr)%nat by (apply nth_error_Some; congruence). lia.
      * rewrite nth_error_app1; [exact Hi' | apply nth_error_Some; congruence].
Qed.

Lemma growing_valid suf : forall pre,
  labelRange (list_max pre) pre -> firstAppearanceOrdered pre ->
  growing (list_max pre) suf ->
  labelRange (list_max (pre ++ suf)) (pre ++ suf) /\
  firstAppearanceOrdered (pre ++ suf).
Proof.
  induction suf as [| l suf IH]; intros pre Hr Hord Hg.
  - rewrite app_nil_r. now split.
  - cbn [growing] in Hg. destruct Hg as [Hl Hg].
    destruct (valid_snoc _ _ l Hr Hord Hl) as [Hr' Hord'].
    assert (Hmax : list_max (pre ++ [l]) = Nat.max (list_max pre) l).
    { rewrite list_max_app. cbn. lia. }
    specialize (IH (pre ++ [l])). rewrite Hmax, <- app_assoc in IH.
    now apply IH.
Qed.

Lemma formatData_scan x y d :
  formatData x y = Ok d ->
  addCategories y 0 []
  = (numberOfClasses y, objOf (numberOfClasses y) (fun _ => emptyCategory)).
Proof.
  unfold formatData, numberOfClasses.
  destruct (addCategories y 0 []) as [n d0] eqn:E.
  destruct x as [| row0 x']; [discriminate |].
  cbn [nth_error defined bind fst].
  destruct (addAttributeArrays (seq 1 n) (length row0) d0) as [d1 |] eqn:E1;
    [| discriminate].
  intros _. f_equal.
  pose proof (addCategories_range y (length row0) d1) as Hr.
  unfold numberOfClasses in Hr. rewrite E in Hr. apply Hr, E1.
Qed.

Lemma fit_formatData x y d : fit x y = Ok d -> exists d0, formatData x y = Ok d0.
Proof.
  unfold fit. destruct (formatData x y) as [d0 |]; [eauto | discriminate].
Qed.

(** With at least one attribute, a returning [fit] has found a label in
    1..K for every row. *)
Lemma fit_Ok_labels x y d :
  fit x y = Ok d -> hd [] x <> [] ->
  forall i, (i < length x)%nat ->
    exists k, nth_error y i = Some k /\ (1 <= k <= numberOfClasses y)%nat.
Proof.
  intros Hfit Hhd i Hi. destruct (fit_formatData _ _ _ Hfit) as [d0 Hd0].
  apply formatData_pushRows in Hd0. destruct Hd0 as (row0 & x' & -> & H).
  cbn [hd] in Hhd. destruct row0 as [| v row0]; [congruence |].
  cbn [length] in H.
  apply (pushRows_Ok_labels _ _ _ _ _ (fun _ => repeat [] (S (length row0))) _
           (fun _ _ => repeat_length _ _) H i Hi).
Qed.

(** With as many labels as rows and an attribute in the first row, a
    returning [fit] has seen labels in first-appearance order. *)
Lemma fit_Ok_ordered x y d :
  fit x y = Ok d -> hd [] x <> [] -> length x = length y ->
  labelRange (list_max y) y /\ firstAppearanceOrdered y.
Proof.
  intros Hfit Hhd Hlen.
  destruct (fit_formatData _ _ _ Hfit) as [d0 Hd0].
  pose proof (formatData_scan _ _ _ Hd0) as Hscan.
  assert (Hg : growing 0 y).
  { apply (addCategories_growing_inv y 0 (numberOfClasses y) Hscan).
    intros l Hl. apply In_nth_error in Hl. destruct Hl as [i Hi].
    assert (Hlt : (i < length x)%nat).
    { rewrite Hlen. apply nth_error_Some. congruence. }
    destruct (fit_Ok_labels _ _ _ Hfit Hhd i Hlt) as (k & Hk & Hr).
    assert (l = k) by congruence. lia. }
  apply (growing_valid y []); auto.
  - intros l. cbn. lia.
  - intros i c c' Hi. destruct i; discriminate.
Qed.

End FitReturns.

(** X1.  What a returning [fit] tells about its arguments: there is a row,
    the keys of [#data] are 1..K for the counter K of the scan, and, when
    the first row has an attribute, there are at least as many labels as
    rows and the label of every row lies in 1..K. *)
Theorem fit_Ok_arguments (x : list (list number)) (y : list nat) (d : data) :
  fit x y = Ok d ->
  x <> [] /\
  keys d = seq 1 (numberOfClasses y) /\
  (hd [] x <> [] ->
   (length x <= length y)%nat /\
   forall i l, (i < length x)%nat -> nth_error y i = Some l ->
     (1 <= l <= numberOfClasses y)%nat).
Proof.
  intros Hfit. split; [| split].
  - intros ->. unfold fit, formatData in Hfit.
    destruct (addCategories y 0 []); discriminate.
  - rewrite (fit_Ok _ _ _ Hfit). apply fittedModel_keys.
  - intros Hhd. pose proof (fit_Ok_labels _ _ _ Hfit Hhd) as Hlab. split.
    + destruct (Nat.le_gt_cases (length x) (length y)) as [Hle | Hgt]; [assumption |].
      destruct (Hlab (length y) Hgt) as (k & Hk & _).
      assert (nth_error y (length y) = None) by (apply nth_error_None; lia).
      congruence.
    + intros i l Hi Hl. destruct (Hlab i Hi) as (k & Hk & Hrange). congruence.
Qed.

Lemma fit_Ok_arguments_witness :
  sampleX <> [] /\
  keys sampleModel = seq 1 (numberOfClasses sampleY) /\
  (hd [] sampleX <> [] ->
   (length sampleX <= length sampleY)%nat /\
   forall i l, (i < length sampleX)%nat -> nth_error sampleY i = Some l ->
     (1 <= l <= numberOfClasses sampleY)%nat).
Proof. exact (fit_Ok_arguments sampleX sampleY sampleModel sample_fit_model). Defined.

(** X2.  For as many labels as rows and a first row with an attribute,
    [fit] returns exactly when the labels are a contiguous range 1..K whose
    values appear for the first time in increasing order. *)
Theorem fit_returns_iff (x : list (list number)) (y : list nat) :
  hd [] x <> [] ->
  length x = length y ->
  (exists d, fit x y = Ok d) <->
  (exists K, labelRange K y /\ firstAppearanceOrdered y).
Proof.
  intros Hhd Hlen. split.
  - intros [d Hfit]. exists (list_max y).
    now apply (fit_Ok_ordered x y d).
  - intros (K & Hr & Hord). exists (fittedModel x y).
    eapply fit_of_formatData. apply (formatData_valid x y K); auto.
    intros ->. now apply Hhd.
Qed.

Lemma fit_returns_iff_witness :
  (exists d, fit [[Fin 1]; [Fin 2]; [Fin 3]] [1; 2; 1]%nat = Ok d) <->
  (exists K, labelRange K [1; 2; 1]%nat /\ firstAppearanceOrdered [1; 2; 1]%nat).
Proof.
  apply (fit_returns_iff [[Fin 1]; [Fin 2]; [Fin 3]] [1; 2; 1]%nat).
  - discriminate.
  - reflexivity.
Defined.

(** ** The shape of a fitted model *)

Section Shape.

Lemma in_combine_nth {A B : Type} (l : list A) : forall (l' : list B) a b,
  In (a, b) (combine l l') ->
  exists i, nth_error l i = Some a /\ nth_error l' i = Some b.
Proof.
  induction l as [| a0 l IH]; intros [| b0 l'] a b H; try contradiction.
  cbn [combine In] in H. destruct H as [[= -> ->] | H].
  - now exists 0%nat.
  - destruct (IH _ _ _ H) as (i & Ha & Hb). now exists (S i).
Qed.



Lemma column_length j rows : length (column j rows) = length rows.
Proof. apply length_map. Qed.


End Shape.



(** X4.  In a fitted model every class has its three arrays, each with one
    entry per attribute of the first training row, and every array of
    [sortedAttributes] of a class has one cell per row of that class. *)
Theorem fit_shape (x : list (list number)) (y : list nat) (d : data)
  (c : nat) (cat : category) :
  fit x y = Ok d ->
  obj_get c d = Some cat ->
  exists cols ms ss,
    sortedAttributes cat = Some cols /\
    mean cat = Some ms /\
    stDev cat = Some ss /\
    length cols = length (hd [] x) /\
    length ms = length (hd [] x) /\
    length ss = length (hd [] x) /\
    Forall (fun col => length col = length (classRows c x y)) cols.
Proof.
  intros Hfit Hget. apply fit_Ok in Hfit. subst d.
  apply fittedModel_get in Hget. destruct Hget as [_ ->].
  unfold fittedCategory. cbn [sortedAttributes mean stDev].
  do 3 eexists. repeat (split; [reflexivity |]).
  rewrite !length_map, partitionOf_length.
  repeat (split; [reflexivity |]).
  unfold partitionOf. apply Forall_forall. intros col Hcol.
  apply in_map_iff in Hcol. destruct Hcol as (j & <- & _). apply column_length.
Qed.

Lemma fit_shape_witness :
  exists cols ms ss,
    Some [map (fun r => JNum (Fin r)) sampleValues] = Some cols /\
    Some [Fin 5] = Some ms /\
    Some [Fin 2] = Some ss /\
    length cols = length (hd [] sampleX) /\
    length ms = length (hd [] sampleX) /\
    length ss = length (hd [] sampleX) /\
    Forall (fun col => length col = length (classRows 1 sampleX sampleY)) cols.
Proof.
  exact (fit_shape sampleX sampleY sampleModel 1%nat _ sample_fit_model eq_refl).
Defined.

(** ** A class without rows *)

Section EmptyClass.

Lemma mul_NaN_r x : mul x NaN = NaN.
Proof. destruct x; reflexivity. Qed.

Lemma attributeMean_nil : attributeMean [] = NaN.
Proof. exact div_0_0. Qed.

Lemma populationStdDev_nil : populationStdDev [] = NaN.
Proof.
  unfold populationStdDev. cbn [squaredDifferences fold_left length].
  change (of_nat 0) with (Fin 0). now rewrite div_0_0.
Qed.

(** A mean that is [NaN] makes the density [NaN]. *)
Lemma pdf_NaN_mean xInput stdTraining : pdf xInput (JNum NaN) stdTraining = NaN.
Proof.
  unfold pdf. cbn [ToNumber]. unfold sub. cbn [neg].
  rewrite add_NaN_r. cbn [Math_pow mul neg div Math_exp].
  apply mul_NaN_r.
Qed.

Lemma classValue_NaN cat j row :
  (forall xj, pdf xj (meanAt cat j) (stDevAt cat j) = NaN) ->
  (j < length row)%nat ->
  classValue cat row = NaN.
Proof.
  intros Hpdf Hlen. unfold classValue.
  rewrite sum_NaN; [reflexivity |].
  destruct (indexedFrom_In row 0 j Hlen) as [v Hv]. cbn [Nat.add] in Hv.
  apply in_map_iff. exists (j, v). split; [| exact Hv].
  unfold logDensity. cbn [fst snd]. now rewrite Hpdf.
Qed.

(** One class whose value is [NaN] for every row decides every
    prediction. *)
Lemma predict_NaN_class (d : data) c cat rows :
  trained d ->
  obj_get c d = Some cat ->
  (forall row, In row rows -> row <> [] /\ classValue cat row = NaN) ->
  predict d rows = Ok (repeat 0%nat (length rows)).
Proof.
  intros Ht Hget Hrows.
  rewrite predict_trained by (assumption || (intros; now apply Hrows)).
  f_equal. apply map_constant. intros row Hrow.
  apply findHighestProbabilityIndex_all_NaN.
  apply (normalized_all_NaN d cat c row).
  - now apply obj_get_In_entry.
  - now apply Hrows.
Qed.

Lemma map_repeat {A B : Type} (f : A -> B) a n : map f (repeat a n) = repeat (f a) n.
Proof. induction n as [| n IH]; [reflexivity | cbn; now rewrite IH]. Qed.

Lemma partitionOf_no_rows x y c :
  classRows c x y = [] -> partitionOf x y c = repeat [] (length (hd [] x)).
Proof.
  intros H. unfold partitionOf. rewrite H. cbn [column map].
  generalize 0%nat. induction (length (hd [] x)) as [| n IH]; intros a;
    [reflexivity |].
  cbn [seq map repeat]. now rewrite IH.
Qed.

Lemma surplus_fit : fit surplusX surplusY = Ok (fittedModel surplusX surplusY).
Proof.
  apply (fit_of_formatData surplusX surplusY
           (objOf 2 (fun c => unfitted (partitionOf surplusX surplusY c)))).
  reflexivity.
Qed.

End EmptyClass.

(** X5.  A class of a fitted model that received no training row (its
    label only occurs past the last row) has [NaN] for every mean and every
    standard deviation, and with at least one attribute it turns every
    prediction into index 0. *)
Theorem fit_empty_class (x : list (list number)) (y : list nat) (d : data)
  (c : nat) (cat : category) :
  fit x y = Ok d ->
  obj_get c d = Some cat ->
  classRows c x y = [] ->
  mean cat = Some (repeat NaN (length (hd [] x))) /\
  stDev cat = Some (repeat NaN (length (hd [] x))) /\
  (hd [] x <> [] ->
   forall rows, (forall row, In row rows -> row <> []) ->
     predict d rows = Ok (repeat 0%nat (length rows))).
Proof.
  intros Hfit Hget Hrows. apply fit_Ok in Hfit. subst d.
  pose proof Hget as Hcat. apply fittedModel_get in Hcat. destruct Hcat as [_ Hcat].
  assert (Hm : mean cat = Some (repeat NaN (length (hd [] x)))).
  { subst cat. unfold fittedCategory. cbn [mean].
    now rewrite (partitionOf_no_rows _ _ _ Hrows), map_repeat, attributeMean_nil. }
  split; [exact Hm |]. split.
  - subst cat. unfold fittedCategory. cbn [stDev].
    now rewrite (partitionOf_no_rows _ _ _ Hrows), map_repeat, populationStdDev_nil.
  - intros Hhd rows Hne.
    apply (predict_NaN_class _ c cat rows (fittedModel_trained x y) Hget).
    intros row Hrow. split; [now apply Hne |].
    apply (classValue_NaN cat 0 row).
    + intros xj. unfold meanAt. rewrite Hm.
      destruct (hd [] x); [congruence |]. cbn. apply pdf_NaN_mean.
    + specialize (Hne row Hrow). destruct row; [congruence | cbn; lia].
Qed.

Lemma fit_empty_class_witness :
  mean (fittedCategory surplusX surplusY 2) = Some (repeat NaN (length (hd [] surplusX))) /\
  stDev (fittedCategory surplusX surplusY 2) = Some (repeat NaN (length (hd [] surplusX))) /\
  (hd [] surplusX <> [] ->
   forall rows, (forall row, In row rows -> row <> []) ->
     predict (fittedModel surplusX surplusY) rows = Ok (repeat 0%nat (length rows))).
Proof.
  exact (fit_empty_class surplusX surplusY _ 2%nat _ surplus_fit eq_refl eq_refl).
Defined.

(** ** Where [predict] fails and where it does not *)

Section PredictEdges.

Lemma mapM_TypeError {A B : Type} (f : A -> result B) a l :
  In a l -> f a = TypeError -> mapM f l = TypeError.
Proof.
  induction l as [| b l IH]; intros Hin Hf; [contradiction |].
  cbn [mapM]. destruct Hin as [-> | Hin].
  - now rewrite Hf.
  - rewrite (IH Hin Hf). now destruct (f b).
Qed.

Lemma predict_TypeError_row d rows :
  trained d -> predict d rows = TypeError -> In [] rows.
Proof.
  intros Ht. unfold predict.
  induction rows as [| row rows IH]; [discriminate |].
  cbn [mapM]. destruct row as [| v row]; [now left |].
  rewrite predictRow_trained by (assumption || discriminate). cbn [bind].
  destruct (mapM (predictRow d) rows); [discriminate |].
  intros _. right. now apply IH.
Qed.

End PredictEdges.

(** X6.  On a classifier that was never fitted [predict] answers index 0
    for every row with an attribute. *)
Theorem predict_unfitted (rows : list (list number)) :
  (forall row, In row rows -> row <> []) ->
  predict [] rows = Ok (repeat 0%nat (length rows)).
Proof.
  intros Hrows. rewrite predict_trained; [| constructor | assumption].
  f_equal. now apply map_constant.
Qed.

Lemma predict_unfitted_witness :
  predict [] [[Fin 1]; [Fin 2; Fin 3]] = Ok (repeat 0%nat 2).
Proof.
  apply (predict_unfitted [[Fin 1]; [Fin 2; Fin 3]]).
  intros row [<- | [<- | []]]; discriminate.
Defined.

(** X7.  On a fitted model [predict] throws exactly when one of the input
    rows has no attribute; otherwise it returns one index per row. *)
Theorem predict_fails_iff (x : list (list number)) (y : list nat) (d : data)
  (rows : list (list number)) :
  fit x y = Ok d ->
  (predict d rows = TypeError <-> In [] rows) /\
  (forall predictions, predict d rows = Ok predictions ->
     length predictions = length rows).
Proof.
  intros Hfit. apply fit_Ok in Hfit. subst d.
  pose proof (fittedModel_trained x y) as Ht. split; [split |].
  - now apply predict_TypeError_row.
  - intros Hin. apply (mapM_TypeError _ [] rows Hin). reflexivity.
  - intros predictions H.
    assert (Hne : forall row, In row rows -> row <> []).
    { intros row Hrow ->. unfold predict in H.
      rewrite (mapM_TypeError (predictRow (fittedModel x y)) [] rows Hrow eq_refl) in H.
      discriminate. }
    rewrite (predict_trained _ _ Ht Hne) in H. injection H as <-. apply length_map.
Qed.

Lemma predict_fails_iff_witness :
  (predict sampleModel [[Fin 5]; []] = TypeError <-> In [] [[Fin 5]; []]) /\
  (forall predictions, predict sampleModel [[Fin 5]; []] = Ok predictions ->
     length predictions = 2%nat).
Proof.
  exact (predict_fails_iff sampleX sampleY sampleModel [[Fin 5]; []] sample_fit_model).
Defined.

(** ** Normalized values as probabilities *)

Section Posterior.

Lemma Math_exp_nonneg v r : Math_exp v = Fin r -> 0 <= r.
Proof.
  destruct v as [a | | |]; cbn; try discriminate.
  - intros [= <-]. left. apply exp_pos.
  - intros [= <-]. lra.
Qed.

Lemma Rsum_ge_term rs :
  (forall r, In r rs -> 0 <= r) ->
  0 <= Rsum rs /\ forall r, In r rs -> r <= Rsum rs.
Proof.
  unfold Rsum. induction rs as [| a rs IH]; intros H; cbn [fold_right].
  - split; [lra | intros r []].
  - destruct IH as [IH0 IH1]; [intros; apply H; now right |].
    pose proof (H a (or_introl eq_refl)) as Ha.
    split; [lra |]. intros r [<- | Hr]; [lra |]. specialize (IH1 r Hr). lra.
Qed.

Lemma expSumLogPDF_exp d row e :
  expSumLogPDF d row = Ok e -> exists sl, e = convertLogToOriginal sl.
Proof.
  unfold expSumLogPDF.
  destruct (calculatePDFPredictions d row) as [m |]; [| discriminate]. cbn [bind].
  destruct (sumLogPDF (convertPDFPredictionsToLog m)) as [sl |]; [| discriminate].
  cbn [bind]. intros [= <-]. now exists sl.
Qed.

End Posterior.

(** X9.  When the values handed to [#normalizeProbabilities] have a
    positive finite total, every normalized value is a number between 0
    and 1. *)
Theorem normalized_in_unit_interval (d : data) (row e : list number) (s : R) :
  expSumLogPDF d row = Ok e ->
  pSum e = Fin s ->
  0 < s ->
  exists p,
    normalizedProbabilities d row = Ok p /\
    forall v, In v p -> exists r, v = Fin r /\ 0 <= r <= 1.
Proof.
  intros He Hs Hpos. exists (normalizeProbabilities e). split.
  - unfold normalizedProbabilities. now rewrite He.
  - destruct (expSumLogPDF_exp _ _ _ He) as [sl Hsl].
    destruct (fold_left_add_Fin_inv _ _ _ Hs) as (rs & Hrs & Hsum).
    assert (Hnn : forall r, In r rs -> 0 <= r).
    { intros r Hr.
      assert (Hin : In (Fin r) e) by (rewrite Hrs; now apply in_map).
      rewrite Hsl in Hin. unfold convertLogToOriginal in Hin.
      apply in_map_iff in Hin. destruct Hin as (v & Hv & _).
      eapply Math_exp_nonneg, Hv. }
    destruct (Rsum_ge_term rs Hnn) as [_ Hle].
    rewrite Hrs in *. rewrite (normalizeProbabilities_Fin rs s) by (assumption || lra).
    intros v Hv. apply in_map_iff in Hv. destruct Hv as (q & <- & Hq).
    apply in_map_iff in Hq. destruct Hq as (r & <- & Hr).
    exists (r / s). split; [reflexivity |].
    specialize (Hnn r Hr). specialize (Hle r Hr).
    split.
    + apply Rmult_le_pos; [assumption |]. left. now apply Rinv_0_lt_compat.
    + apply Rmult_le_reg_r with (r := s); [assumption |].
      unfold Rdiv. rewrite Rmult_assoc, Rinv_l by lra. lra.
Qed.

Lemma normalized_in_unit_interval_witness :
  exists p,
    normalizedProbabilities twoModel [Fin 2; Fin 4] = Ok p /\
    forall v, In v p -> exists r, v = Fin r /\ 0 <= r <= 1.
Proof.
  apply (normalized_in_unit_interval twoModel [Fin 2; Fin 4] (map Fin (twoValues 2 4))
           (0 + nth 0 (twoValues 2 4) 0 + nth 1 (twoValues 2 4) 0)).
  - exact (two_expSumLogPDF 2 4).
  - reflexivity.
  - pose proof (twoValues_pos 2 4 (nth 0 (twoValues 2 4) 0) (or_introl eq_refl)).
    pose proof (twoValues_pos 2 4 (nth 1 (twoValues 2 4) 0)
                  (or_intror (or_introl eq_refl))).
    lra.
Defined.

(** ** Perfect and null scores *)

Section Scores.

Lemma filter_length_all {A : Type} (f : A -> bool) l :
  length (filter f l) = length l <-> forall a, In a l -> f a = true.
Proof.
  induction l as [| a l IH]; cbn [filter length In]; [intuition |].
  pose proof (filter_length_le f l) as Hle.
  destruct (f a) eqn:E; cbn [length]; split.
  - intros H b [<- | Hb]; [assumption |]. apply IH; [lia | assumption].
  - intros H. f_equal. apply IH. intros; apply H; now right.
  - intros H. lia.
  - intros H. specialize (H a (or_introl eq_refl)). congruence.
Qed.

Lemma filter_length_none {A : Type} (f : A -> bool) l :
  length (filter f l) = 0%nat <-> forall a, In a l -> f a = false.
Proof.
  induction l as [| a l IH]; cbn [filter length In]; [intuition |].
  destruct (f a) eqn:E; cbn [length]; split.
  - intros H. lia.
  - intros H. specialize (H a (or_introl eq_refl)). congruence.
  - intros H b [<- | Hb]; [assumption |]. now apply IH.
  - intros H. apply IH. intros; apply H; now right.
Qed.

Lemma accuracyScore_Fin_inv predictions y r :
  predictions <> [] ->
  accuracyScore predictions y = Fin r ->
  INR (agreements predictions y) = r * INR (length predictions).
Proof.
  intros Hne H. destruct (accuracyScore_ratio predictions y Hne) as [H1 _].
  rewrite H1 in H. injection H as <-.
  pose proof (INR_length_pos predictions Hne). field. lra.
Qed.

Lemma agreements_all predictions y :
  agreements predictions y = length predictions <->
  forall i p, nth_error predictions i = Some p -> nth_error y i = Some (p + 1)%nat.
Proof.
  unfold agreements. split.
  - intros H i p Hi.
    pose proof (filter_length_le (fun pl => Nat.eqb (snd pl) (fst pl + 1))
                  (combine predictions y)) as Hle.
    rewrite length_combine in Hle.
    assert (Hpy : (length predictions <= length y)%nat) by lia.
    assert (Hlen : length (combine predictions y) = length predictions)
      by (rewrite length_combine; lia).
    rewrite <- Hlen in H. rewrite filter_length_all in H.
    assert (Hiy : (i < length y)%nat).
    { assert (i < length predictions)%nat by (apply nth_error_Some; congruence). lia. }
    destruct (nth_error y i) as [l |] eqn:Hy; [| apply nth_error_None in Hy; lia].
    specialize (H (p, l) (in_combine_nth_error _ _ _ _ _ Hi Hy)).
    cbn [fst snd] in H. apply Nat.eqb_eq in H. now subst.
  - intros H.
    assert (Hlen : (length predictions <= length y)%nat).
    { destruct (Nat.le_gt_cases (length predictions) (length y)) as [Hle | Hgt];
        [assumption |].
      destruct (nth_error predictions (length y)) as [p |] eqn:Hp;
        [| apply nth_error_None in Hp; lia].
      specialize (H _ _ Hp).
      assert (nth_error y (length y) = None) by (apply nth_error_None; lia).
      congruence. }
    replace (length predictions) with (length (combine predictions y))
      by (rewrite length_combine; lia).
    apply filter_length_all. intros [p l] Hin.
    apply in_combine_nth in Hin. destruct Hin as (i & Hp & Hy).
    specialize (H _ _ Hp). cbn [fst snd]. apply Nat.eqb_eq. congruence.
Qed.

Lemma agreements_none predictions y :
  agreements predictions y = 0%nat <->
  forall i p, nth_error predictions i = Some p -> nth_error y i <> Some (p + 1)%nat.
Proof.
  unfold agreements. rewrite filter_length_none. split.
  - intros H i p Hp Hy.
    specialize (H (p, (p + 1)%nat) (in_combine_nth_error _ _ _ _ _ Hp Hy)).
    cbn [fst snd] in H. rewrite Nat.eqb_refl in H. discriminate.
  - intros H [p l] Hin. apply in_combine_nth in Hin.
    destruct Hin as (i & Hp & Hy). cbn [fst snd].
    apply Nat.eqb_neq. intros ->. now apply (H _ _ Hp).
Qed.

End Scores.

(** X10.  For at least one prediction, [accuracyScore] is 1 exactly when
    every prediction has a label equal to the prediction plus one, and 0
    exactly when no prediction has; a prediction without label counts as
    wrong. *)
Theorem accuracyScore_extremes (predictions y : list nat) :
  predictions <> [] ->
  (accuracyScore predictions y = Fin 1 <->
   forall i p, nth_error predictions i = Some p ->
               nth_error y i = Some (p + 1)%nat) /\
  (accuracyScore predictions y = Fin 0 <->
   forall i p, nth_error predictions i = Some p ->
               nth_error y i <> Some (p + 1)%nat).
Proof.
  intros Hne. pose proof (INR_length_pos predictions Hne) as Hn.
  destruct (accuracyScore_ratio predictions y Hne) as [Hacc _].
  split.
  - rewrite <- agreements_all. split.
    + intros H. apply accuracyScore_Fin_inv in H; [| assumption].
      apply INR_eq. lra.
    + intros H. rewrite Hacc, H. f_equal. field. lra.
  - rewrite <- agreements_none. split.
    + intros H. apply accuracyScore_Fin_inv in H; [| assumption].
      apply INR_eq. cbn [INR]. lra.
    + intros H. rewrite Hacc, H. f_equal. cbn [INR]. field. lra.
Qed.

Lemma accuracyScore_extremes_witness :
  (accuracyScore [0; 1]%nat [1; 2]%nat = Fin 1 <->
   forall i p, nth_error [0; 1]%nat i = Some p ->
               nth_error [1; 2]%nat i = Some (p + 1)%nat) /\
  (accuracyScore [0; 1]%nat [1; 2]%nat = Fin 0 <->
   forall i p, nth_error [0; 1]%nat i = Some p ->
               nth_error [1; 2]%nat i <> Some (p + 1)%nat).
Proof. apply (accuracyScore_extremes [0; 1]%nat [1; 2]%nat). discriminate. Defined.

(** * The caller *)

Section Loader.

Variable parseFloat : string -> number.
Variable inherited : string -> bool.

(** ** The loops of [formatCsvData] *)

Lemma formatRow_last values : forall j numOfKeys formatedData st,
  (j + length values)%nat = numOfKeys ->
  formatRow parseFloat inherited values j numOfKeys formatedData st
  = match values with
    | [] => (formatedData, st)
    | _ :: _ => (formatedData ++ map parseFloat (removelast values),
                 labelStep inherited (last values EmptyString) st)
    end.
Proof.
  induction values as [| v rest IH]; intros j n fd st Hn; [reflexivity |].
  cbn [formatRow]. destruct rest as [| v' rest'].
  - cbn [length] in Hn. destruct (Nat.ltb_spec j (n - 1)) as [Hlt | _]; [lia |].
    cbn. now rewrite app_nil_r.
  - cbn [length] in Hn. destruct (Nat.ltb_spec j (n - 1)) as [_ | Hge]; [| lia].
    rewrite IH by (cbn [length]; lia).
    cbn [removelast last map]. now rewrite <- app_assoc.
Qed.

Lemma formatRows_loops data : forall output st,
  formatRows parseFloat inherited data output st
  = (output ++ map (fun row => map parseFloat (removelast row)) data,
     encodeLabels inherited (rowLabels data) st).
Proof.
  induction data as [| row data IH]; intros output st.
  - cbn. now rewrite app_nil_r.
  - cbn [formatRows]. rewrite (formatRow_last row 0 (length row) [] st) by reflexivity.
    destruct row as [| v row].
    + rewrite IH. cbn [map removelast rowLabels flat_map app]. now rewrite <- app_assoc.
    + rewrite IH. cbn [map rowLabels flat_map app]. rewrite <- app_assoc.
      unfold encodeLabels. cbn [fold_left app]. reflexivity.
Qed.

Lemma rowLabels_all data :
  (forall row, In row data -> row <> []) ->
  rowLabels data = map (fun row => last row EmptyString) data.
Proof.
  induction data as [| row data IH]; intros H; [reflexivity |].
  cbn [rowLabels flat_map map]. fold (rowLabels data).
  rewrite IH by (intros; apply H; now right).
  destruct row; [now elim (H [] (or_introl eq_refl)) | reflexivity].
Qed.

End Loader.

(** ** The label table *)

Section LabelTable.

Variable inherited : string -> bool.

Lemma own_get_In label o n : own_get label o = Some n -> In (label, n) o.
Proof.
  induction o as [| [l m] o IH]; cbn [own_get]; [discriminate |].
  destruct (String.eqb_spec label l) as [-> | _].
  - intros [= ->]. now left.
  - intros H. right. now apply IH.
Qed.

Lemma own_get_None label o : own_get label o = None <-> ~ In label (map fst o).
Proof.
  induction o as [| [l m] o IH]; cbn [own_get map fst In]; [intuition |].
  destruct (String.eqb_spec label l) as [-> | Hne].
  - split; [discriminate | intros H; elim H; now left].
  - rewrite IH. intuition congruence.
Qed.

Lemma own_get_app label o l n :
  own_get label (o ++ [(l, n)])
  = match own_get label o with
    | Some c => Some c
    | None => if String.eqb label l then Some n else None
    end.
Proof.
  induction o as [| [l' m] o IH]; cbn [app own_get]; [reflexivity |].
  now destruct (String.eqb label l').
Qed.

Lemma own_set_absent label n o :
  own_get label o = None -> own_set label n o = o ++ [(label, n)].
Proof.
  induction o as [| [l m] o IH]; cbn [own_get own_set app]; [reflexivity |].
  destruct (String.eqb label l); [discriminate |].
  intros H. now rewrite IH.
Qed.

Lemma encoded_code_range ls o arr label n :
  encoded inherited ls o arr -> own_get label o = Some n ->
  (1 <= n <= length o)%nat.
Proof.
  intros (Hcodes & _) H. apply own_get_In in H.
  apply (in_map snd) in H. cbn [snd] in H. rewrite Hcodes in H.
  apply in_seq in H. lia.
Qed.

Lemma encoded_length ls o arr :
  encoded inherited ls o arr -> (length o <= length ls)%nat /\ length arr = length ls.
Proof.
  intros (_ & Harr & Hnd & Hkeys). split.
  - rewrite <- (length_map fst o). apply NoDup_incl_length; [assumption |].
    intros l Hl. now apply Hkeys.
  - subst arr. apply length_map.
Qed.

(** One turn of the label loop. *)
Lemma labelStep_encoded ls o arr label :
  encoded inherited ls o arr ->
  exists o' c,
    labelStep inherited label (o, arr) = (o', arr ++ [c]) /\
    encoded inherited (ls ++ [label]) o' (arr ++ [c]) /\
    c = codeOf o' label /\
    (length o <= length o')%nat /\
    (inherited label = false ->
     (1 <= c <= length o + 1)%nat /\ length o' = Nat.max (length o) c).
Proof.
  intros Henc. pose proof Henc as (Hcodes & Harr & Hnd & Hkeys).
  unfold labelStep, labelsObj_get.
  destruct (own_get label o) as [n |] eqn:Hget.
  - (* the label has a code *)
    pose proof (encoded_code_range _ _ _ _ _ Henc Hget) as Hn.
    cbn [falsy]. destruct (Nat.eqb_spec n 0) as [-> | _]; [lia |].
    rewrite Hget. cbn [classCode].
    exists o, n. split; [reflexivity |]. split; [| split; [| split]].
    + split; [assumption |]. split; [| split; [assumption |]].
      * rewrite map_app. cbn [map]. unfold codeOf at 2. rewrite Hget. now subst arr.
      * intros l. rewrite in_app_iff. cbn [In]. rewrite Hkeys.
        assert (Hl : In label (map fst o)).
        { destruct (in_dec string_dec label (map fst o)) as [Hin | Hnot]; [assumption |].
          apply own_get_None in Hnot. congruence. }
        apply Hkeys in Hl. intuition (subst; auto).
    + unfold codeOf. now rewrite Hget.
    + lia.
    + intros _. split; lia.
  - destruct (inherited label) eqn:Hinh.
    + (* an inherited name: nothing is stored *)
      cbn [falsy]. rewrite Hget. cbn [classCode].
      exists o, 0%nat. split; [reflexivity |]. split; [| split; [| split]].
      * split; [assumption |]. split; [| split; [assumption |]].
        -- rewrite map_app. cbn [map]. unfold codeOf at 2. rewrite Hget. now subst arr.
        -- intros l. rewrite in_app_iff. cbn [In]. rewrite Hkeys.
           intuition (subst; auto; congruence).
      * unfold codeOf. now rewrite Hget.
      * lia.
      * discriminate.
    + (* a new label *)
      cbn [falsy]. destruct (encoded_length _ _ _ Henc) as [Hle Hlen].
      assert (Hnum : (if Nat.eqb (length arr) 0 then 1 else length o + 1)%nat
                     = (length o + 1)%nat).
      { destruct (Nat.eqb_spec (length arr) 0); lia. }
      rewrite Hnum, (own_set_absent _ _ _ Hget), own_get_app, Hget, String.eqb_refl.
      cbn [classCode].
      assert (Hnot : ~ In label (map fst o)) by now apply own_get_None.
      exists (o ++ [(label, (length o + 1)%nat)]), (length o + 1)%nat.
      split; [reflexivity |]. split; [| split; [| split]].
      * split; [| split; [| split]].
        -- rewrite map_app, length_app, Hcodes. cbn [map snd length].
           replace (length o + 1)%nat with (S (length o)) by lia.
           rewrite seq_S. reflexivity.
        -- rewrite map_app. cbn [map]. f_equal.
           ++ subst arr. apply map_ext_in. intros l Hl.
              unfold codeOf. rewrite own_get_app.
              destruct (own_get l o) eqn:E; [reflexivity |].
              destruct (String.eqb_spec l label) as [-> | _]; [| reflexivity].
              exfalso. apply own_get_None in E. apply E, Hkeys. now split.
           ++ unfold codeOf. now rewrite own_get_app, Hget, String.eqb_refl.
        -- rewrite map_app. cbn [map fst].
           apply NoDup_app; [assumption | repeat constructor; intros [] |].
           intros l Hl [<- | []]. contradiction.
        -- intros l. rewrite map_app, !in_app_iff. cbn [map fst In]. rewrite Hkeys.
           intuition (subst; auto).
      * unfold codeOf. now rewrite own_get_app, Hget, String.eqb_refl.
      * rewrite length_app. cbn [length]. lia.
      * intros _. rewrite length_app. cbn [length]. split; lia.
Qed.

Lemma encoded_nil : encoded inherited [] [] [].
Proof.
  split; [reflexivity |]. split; [reflexivity |]. split; [constructor |].
  intros l. cbn. intuition.
Qed.

(** The label loop keeps the table in order, and on labels free of
    inherited names it keeps the codes a contiguous range in
    first-appearance order. *)
Lemma encodeLabels_encoded labels : forall ls o arr,
  encoded inherited ls o arr ->
  encoded inherited (ls ++ labels)
    (fst (encodeLabels inherited labels (o, arr)))
    (snd (encodeLabels inherited labels (o, arr))) /\
  ((forall l, In l labels -> inherited l = false) ->
   labelRange (length o) arr -> firstAppearanceOrdered arr ->
   labelRange (length (fst (encodeLabels inherited labels (o, arr))))
              (snd (encodeLabels inherited labels (o, arr))) /\
   firstAppearanceOrdered (snd (encodeLabels inherited labels (o, arr)))).
Proof.
  induction labels as [| label labels IH]; intros ls o arr Henc.
  - cbn. rewrite app_nil_r. auto.
  - destruct (labelStep_encoded ls o arr label Henc)
      as (o' & c & Hstep & Henc' & _ & _ & Hc).
    unfold encodeLabels. cbn [fold_left]. rewrite Hstep.
    fold (encodeLabels inherited labels (o', arr ++ [c])).
    destruct (IH _ _ _ Henc') as [IH1 IH2].
    rewrite <- app_assoc in IH1. split; [exact IH1 |].
    intros Hinh Hr Hord.
    destruct Hc as [Hc Hlen]; [apply Hinh; now left |].
    destruct (valid_snoc _ _ c Hr Hord Hc) as [Hr' Hord'].
    rewrite <- Hlen in Hr'.
    apply IH2; auto. intros; apply Hinh; now right.
Qed.

Lemma encodeLabels_final labels :
  encoded inherited labels
    (fst (encodeLabels inherited labels ([], [])))
    (snd (encodeLabels inherited labels ([], []))) /\
  ((forall l, In l labels -> inherited l = false) ->
   labelRange (length (fst (encodeLabels inherited labels ([], []))))
              (snd (encodeLabels inherited labels ([], []))) /\
   firstAppearanceOrdered (snd (encodeLabels inherited labels ([], [])))).
Proof.
  destruct (encodeLabels_encoded labels [] [] [] encoded_nil) as [H1 H2].
  split; [exact H1 |]. intros Hinh. apply H2; auto.
  - intros l. cbn. lia.
  - intros i c c' Hi. destruct i; discriminate.
Qed.

Lemma encoded_distinct ls o arr :
  encoded inherited ls o arr ->
  (forall l, In l ls -> inherited l = false) ->
  length o = length (nodup string_dec ls).
Proof.
  intros (_ & _ & Hnd & Hkeys) Hinh.
  rewrite <- (length_map fst o). apply Nat.le_antisymm.
  - apply NoDup_incl_length; [assumption |].
    intros l Hl. apply nodup_In. now apply Hkeys.
  - apply NoDup_incl_length; [apply NoDup_nodup |].
    intros l Hl. apply nodup_In in Hl. apply Hkeys. auto.
Qed.

Lemma encoded_injective ls o arr l1 l2 :
  encoded inherited ls o arr ->
  In l1 ls -> In l2 ls -> inherited l1 = false -> inherited l2 = false ->
  codeOf o l1 = codeOf o l2 -> l1 = l2.
Proof.
  intros (Hcodes & _ & _ & Hkeys) H1 H2 Hi1 Hi2 Hc. unfold codeOf in Hc.
  destruct (own_get l1 o) as [c1 |] eqn:E1;
    [| apply own_get_None in E1; elim E1; now apply Hkeys].
  destruct (own_get l2 o) as [c2 |] eqn:E2;
    [| apply own_get_None in E2; elim E2; now apply Hkeys].
  subst c2. apply own_get_In in E1, E2.
  assert (Hnd : NoDup (map snd o)) by (rewrite Hcodes; apply seq_NoDup).
  clear - E1 E2 Hnd.
  induction o as [| [l c] o IH]; [contradiction |].
  cbn [map snd] in Hnd. inversion Hnd as [| ? ? Hnot Hnd']; subst.
  destruct E1 as [E1 | E1], E2 as [E2 | E2]; auto.
  - congruence.
  - elim Hnot. apply (in_map snd) in E2. cbn [snd] in E2. congruence.
  - elim Hnot. apply (in_map snd) in E1. cbn [snd] in E1. congruence.
Qed.

End LabelTable.

(** ** [runNaiveBayes] *)

Section Run.

Lemma fit_no_row y : fit [] y = TypeError.
Proof. unfold fit, formatData. now destruct (addCategories y 0 []). Qed.

Lemma runNaiveBayes_valid data labels K :
  data <> [] ->
  (forall row, In row data -> row <> []) ->
  length data = length labels ->
  labelRange K labels -> firstAppearanceOrdered labels ->
  exists r, runNaiveBayes data labels = Ok (Fin r) /\ 0 <= r <= 100.
Proof.
  intros Hne Hrows Hlen Hr Hord. unfold runNaiveBayes.
  rewrite (fit_of_formatData _ _ _ (formatData_valid data labels K Hne Hlen Hr Hord)).
  cbn [bind].
  rewrite (predict_trained _ _ (fittedModel_trained data labels) Hrows). cbn [bind].
  set (preds := map _ data).
  assert (Hp : preds <> []).
  { unfold preds. destruct data; [congruence | discriminate]. }
  destruct (accuracyScore_ratio preds labels Hp) as [-> Hb].
  eexists. split; [reflexivity |]. lra.
Qed.

Lemma runNaiveBayes_Ok_inv data labels v :
  runNaiveBayes data labels = Ok v ->
  (exists d, fit data labels = Ok d) /\
  data <> [] /\
  (forall row, In row data -> row <> []) /\
  exists r, v = Fin r /\ 0 <= r <= 100.
Proof.
  unfold runNaiveBayes.
  destruct (fit data labels) as [d |] eqn:Hfit; [| discriminate]. cbn [bind].
  destruct (predict d data) as [preds |] eqn:Hpred; [| discriminate]. cbn [bind].
  intros [= <-].
  assert (Hdata : data <> []) by (intros ->; rewrite fit_no_row in Hfit; discriminate).
  assert (Hrows : forall row, In row data -> row <> []).
  { intros row Hrow ->. unfold predict in Hpred.
    rewrite (mapM_TypeError (predictRow d) [] data Hrow eq_refl) in Hpred.
    discriminate. }
  split; [eauto |]. split; [assumption |]. split; [assumption |].
  assert (Hp : preds <> []).
  { rewrite (fit_Ok _ _ _ Hfit) in Hpred.
    rewrite (predict_trained _ _ (fittedModel_trained data labels) Hrows) in Hpred.
    injection Hpred as <-. destruct data; [congruence | discriminate]. }
  destruct (accuracyScore_ratio preds labels Hp) as [-> Hb].
  eexists. split; [reflexivity |]. lra.
Qed.

End Run.

(** X11.  For as many labels as rows and a first row with an attribute,
    [runNaiveBayes] returns exactly when the labels are a contiguous range
    1..K in first-appearance order and every row has an attribute; the
    number it prints is then a percentage between 0 and 100. *)
Theorem runNaiveBayes_returns_iff (data : list (list number)) (labels : list nat) :
  hd [] data <> [] ->
  length data = length labels ->
  ((exists v, runNaiveBayes data labels = Ok v) <->
   (exists K, labelRange K labels /\ firstAppearanceOrdered labels) /\
   (forall row, In row data -> row <> [])) /\
  (forall v, runNaiveBayes data labels = Ok v ->
     exists r, v = Fin r /\ 0 <= r <= 100).
Proof.
  intros Hhd Hlen. split; [split |].
  - intros [v Hv]. apply runNaiveBayes_Ok_inv in Hv.
    destruct Hv as ([d Hfit] & _ & Hrows & _). split; [| assumption].
    exists (list_max labels). now apply (fit_Ok_ordered data labels d).
  - intros [(K & Hr & Hord) Hrows].
    destruct (runNaiveBayes_valid data labels K) as (r & Hrun & _); eauto.
    intros ->. now apply Hhd.
  - intros v Hv. now apply runNaiveBayes_Ok_inv in Hv.
Qed.

Lemma runNaiveBayes_returns_iff_witness :
  ((exists v, runNaiveBayes [[Fin 1]; [Fin 2]; [Fin 3]] [1; 2; 1]%nat = Ok v) <->
   (exists K, labelRange K [1; 2; 1]%nat /\ firstAppearanceOrdered [1; 2; 1]%nat) /\
   (forall row, In row [[Fin 1]; [Fin 2]; [Fin 3]] -> row <> [])) /\
  (forall v, runNaiveBayes [[Fin 1]; [Fin 2]; [Fin 3]] [1; 2; 1]%nat = Ok v ->
     exists r, v = Fin r /\ 0 <= r <= 100).
Proof.
  apply (runNaiveBayes_returns_iff [[Fin 1]; [Fin 2]; [Fin 3]] [1; 2; 1]%nat).
  - discriminate.
  - reflexivity.
Defined.

(** ** [formatCsvData] *)

Section Csv.

Variable parseFloat : string -> number.
Variable inherited : string -> bool.

Lemma formatCsvData_run data :
  formatCsvData parseFloat inherited data
  = runNaiveBayes (map (fun row => map parseFloat (removelast row)) data)
      (snd (encodeLabels inherited (rowLabels data) ([], []))).
Proof.
  unfold formatCsvData. rewrite formatRows_loops. cbn [app].
  now destruct (encodeLabels inherited (rowLabels data) ([], [])).
Qed.

Lemma removelast_length {A : Type} (l : list A) :
  length (removelast l) = (length l - 1)%nat.
Proof.
  rewrite removelast_firstn_len, length_firstn. lia.
Qed.

Lemma formatted_rows_attributes data :
  (forall row, In row data -> (2 <= length row)%nat) ->
  forall r, In r (map (fun row => map parseFloat (removelast row)) data) -> r <> [].
Proof.
  intros H r Hr. apply in_map_iff in Hr. destruct Hr as (row & <- & Hrow).
  specialize (H row Hrow). intros E. apply (f_equal (@length _)) in E.
  rewrite length_map, removelast_length in E. cbn in E. lia.
Qed.

End Csv.

(** X12.  The loops of [formatCsvData] turn every parsed row into the
    feature row of [parseFloat] of all its values but the last, in order,
    and push one label code per row that has a value; when every row has a
    value, the code of row [i] is the code that [labelsObj] finally holds
    for the last value of that row, or 0 when that value is a name
    inherited from [Object.prototype]. *)
Theorem formatRows_output (parseFloat : string -> number)
  (inherited : string -> bool) (data : list (list string))
  (output : list (list number)) (o : labelsObject) (arr : list nat) :
  formatRows parseFloat inherited data [] ([], []) = (output, (o, arr)) ->
  output = map (fun row => map parseFloat (removelast row)) data /\
  length arr = length (rowLabels data) /\
  ((forall row, In row data -> row <> []) ->
   length arr = length data /\
   forall i row, nth_error data i = Some row ->
     nth_error arr i
     = Some (if inherited (last row EmptyString) then 0%nat
             else codeOf o (last row EmptyString))).
Proof.
  rewrite formatRows_loops. cbn [app]. intros [= <- Henc].
  destruct (encodeLabels_final inherited (rowLabels data)) as [He _].
  rewrite Henc in He. cbn [fst snd] in He.
  destruct (encoded_length _ _ _ _ He) as [_ Hlen].
  split; [reflexivity |]. split; [exact Hlen |].
  intros Hrows. rewrite (rowLabels_all data Hrows) in *.
  rewrite length_map in Hlen. split; [exact Hlen |].
  intros i row Hi. destruct He as (_ & -> & _ & Hkeys).
  rewrite map_map. rewrite (map_nth_error _ _ _ Hi). f_equal.
  destruct (inherited (last row EmptyString)) eqn:Hinh; [| reflexivity].
  unfold codeOf.
  destruct (own_get (last row EmptyString) o) eqn:E; [| reflexivity].
  apply own_get_In in E. apply (in_map fst) in E. apply Hkeys in E.
  cbn [fst] in E. destruct E. congruence.
Qed.

Lemma formatRows_output_witness :
  [[Fin 1; Fin 2]; [Fin 3; Fin 4]; [Fin (3 / 2); Fin (5 / 2)]]
  = map (fun row => map sampleParse (removelast row)) sampleCsv /\
  length [1; 2; 1]%nat = length (rowLabels sampleCsv) /\
  ((forall row, In row sampleCsv -> row <> []) ->
   length [1; 2; 1]%nat = length sampleCsv /\
   forall i row, nth_error sampleCsv i = Some row ->
     nth_error [1; 2; 1]%nat i
     = Some (if sampleInherited (last row EmptyString) then 0%nat
             else codeOf [("setosa", 1); ("virginica", 2)]%string%nat
                         (last row EmptyString))).
Proof.
  exact (formatRows_output sampleParse sampleInherited sampleCsv _ _ _ eq_refl).
Defined.

(** X13.  When no label is a name inherited from [Object.prototype], the
    label codes that [formatCsvData] builds are the contiguous range 1..K,
    K being the number of distinct labels, and they appear for the first
    time in increasing order: the precondition of [fit]. *)
Theorem formatRows_codes_valid (parseFloat : string -> number)
  (inherited : string -> bool) (data : list (list string))
  (output : list (list number)) (o : labelsObject) (arr : list nat) :
  formatRows parseFloat inherited data [] ([], []) = (output, (o, arr)) ->
  (forall l, In l (rowLabels data) -> inherited l = false) ->
  labelRange (length (nodup string_dec (rowLabels data))) arr /\
  firstAppearanceOrdered arr /\
  length o = length (nodup string_dec (rowLabels data)).
Proof.
  rewrite formatRows_loops. cbn [app]. intros [= _ Henc] Hinh.
  destruct (encodeLabels_final inherited (rowLabels data)) as [He Hv].
  destruct (Hv Hinh) as [Hr Hord].
  rewrite Henc in He, Hr, Hord. cbn [fst snd] in He, Hr, Hord.
  rewrite <- (encoded_distinct _ _ _ _ He Hinh). auto.
Qed.

Lemma formatRows_codes_valid_witness :
  labelRange (length (nodup string_dec (rowLabels sampleCsv))) [1; 2; 1]%nat /\
  firstAppearanceOrdered [1; 2; 1]%nat /\
  length [("setosa", 1); ("virginica", 2)]%string%nat
  = length (nodup string_dec (rowLabels sampleCsv)).
Proof.
  apply (formatRows_codes_valid sampleParse sampleInherited sampleCsv _ _ _ eq_refl).
  intros l [<- | [<- | [<- | []]]]; reflexivity.
Defined.

(** X14.  When every row has a value and no label is an inherited name,
    two rows get the same code exactly when they have the same label. *)
Theorem formatRows_codes_injective (parseFloat : string -> number)
  (inherited : string -> bool) (data : list (list string))
  (output : list (list number)) (o : labelsObject) (arr : list nat)
  (i j : nat) (rowi rowj : list string) (ci cj : nat) :
  formatRows parseFloat inherited data [] ([], []) = (output, (o, arr)) ->
  (forall row, In row data -> row <> []) ->
  (forall l, In l (rowLabels data) -> inherited l = false) ->
  nth_error data i = Some rowi -> nth_error data j = Some rowj ->
  nth_error arr i = Some ci -> nth_error arr j = Some cj ->
  (ci = cj <-> last rowi EmptyString = last rowj EmptyString).
Proof.
  rewrite formatRows_loops. cbn [app]. intros [= _ Henc] Hrows Hinh Hi Hj Hci Hcj.
  destruct (encodeLabels_final inherited (rowLabels data)) as [He _].
  rewrite Henc in He. cbn [fst snd] in He.
  rewrite (rowLabels_all data Hrows) in *.
  pose proof He as (_ & Harr & _).
  rewrite Harr, map_map in Hci, Hcj.
  rewrite (map_nth_error _ _ _ Hi) in Hci. rewrite (map_nth_error _ _ _ Hj) in Hcj.
  injection Hci as <-. injection Hcj as <-.
  assert (Hli : In (last rowi EmptyString) (map (fun row => last row EmptyString) data)).
  { apply in_map_iff. exists rowi. split; [reflexivity |]. eapply nth_error_In, Hi. }
  assert (Hlj : In (last rowj EmptyString) (map (fun row => last row EmptyString) data)).
  { apply in_map_iff. exists rowj. split; [reflexivity |]. eapply nth_error_In, Hj. }
  split.
  - intros Hc. apply (encoded_injective inherited _ _ _ _ _ He); auto.
  - intros ->. reflexivity.
Qed.

Lemma formatRows_codes_injective_witness :
  (1%nat = 1%nat <-> last ["1.0"; "2.0"; "setosa"]%string EmptyString
                     = last ["1.5"; "2.5"; "setosa"]%string EmptyString).
Proof.
  apply (formatRows_codes_injective sampleParse sampleInherited sampleCsv _ _ _
           0 2 _ _ 1 1 eq_refl).
  - intros row [<- | [<- | [<- | []]]]; discriminate.
  - intros l [<- | [<- | [<- | []]]]; reflexivity.
  - reflexivity.
  - reflexivity.
  - reflexivity.
  - reflexivity.
Defined.

(** X15.  When every row has at least two values and the label of some row
    is a name inherited from [Object.prototype] (such as [constructor]),
    the run ends in the [TypeError] that [fit] throws on that row. *)
Theorem formatCsvData_inherited_label (parseFloat : string -> number)
  (inherited : string -> bool) (data : list (list string)) (row : list string) :
  (forall r, In r data -> (2 <= length r)%nat) ->
  In row data ->
  inherited (last row EmptyString) = true ->
  formatCsvData parseFloat inherited data = TypeError.
Proof.
  intros Hlen Hrow Hinh. rewrite formatCsvData_run.
  assert (Hne : forall r, In r data -> r <> []).
  { intros r Hr ->. specialize (Hlen [] Hr). cbn in Hlen. lia. }
  rewrite (rowLabels_all data Hne).
  set (output := map (fun r => map parseFloat (removelast r)) data).
  set (ls := map (fun r => last r EmptyString) data).
  set (arr := snd (encodeLabels inherited ls ([], []))).
  assert (Harr : forall i r, nth_error data i = Some r ->
                   inherited (last r EmptyString) = true -> nth_error arr i = Some 0%nat).
  { intros i r Hi Hr.
    destruct (encodeLabels_final inherited ls) as [(_ & Ha & _ & Hkeys) _].
    fold arr in Ha. rewrite Ha. unfold ls at 2. rewrite map_map.
    rewrite (map_nth_error _ _ _ Hi). f_equal. unfold codeOf.
    destruct (own_get (last r EmptyString) _) eqn:E; [| reflexivity].
    apply own_get_In in E. apply (in_map fst) in E. apply Hkeys in E.
    cbn [fst] in E. destruct E. congruence. }
  apply In_nth_error in Hrow. destruct Hrow as [i Hi].
  unfold runNaiveBayes.
  destruct (fit output arr) as [d |] eqn:Hfit; [| reflexivity].
  exfalso.
  assert (Hhd : hd [] output <> []).
  { unfold output. destruct data as [| r0 data']; [destruct i; discriminate |].
    cbn [map hd]. apply (formatted_rows_attributes parseFloat (r0 :: data') Hlen).
    now left. }
  assert (Hi' : (i < length output)%nat).
  { unfold output. rewrite length_map. apply nth_error_Some. congruence. }
  destruct (fit_Ok_labels _ _ _ Hfit Hhd i Hi') as (k & Hk & Hk1).
  rewrite (Harr i row Hi Hinh) in Hk. injection Hk as <-. lia.
Qed.

Lemma formatCsvData_inherited_label_witness :
  formatCsvData sampleParse sampleInherited
    [["1.0"; "setosa"]; ["2.0"; "constructor"]]%string = TypeError.
Proof.
  apply (formatCsvData_inherited_label sampleParse sampleInherited
           [["1.0"; "setosa"]; ["2.0"; "constructor"]]%string
           ["2.0"; "constructor"]%string).
  - intros r [<- | [<- | []]]; cbn; lia.
  - right. now left.
  - reflexivity.
Defined.

(** X16.  For parsed rows that all have [n] values and labels free of
    inherited names, [formatCsvData] returns exactly when there is a row
    and [n] is at least 2 (one attribute and the label); what it prints is
    then a percentage between 0 and 100. *)
Theorem formatCsvData_returns_iff (parseFloat : string -> number)
  (inherited : string -> bool) (data : list (list string)) (n : nat) :
  (forall row, In row data -> length row = n) ->
  (forall l, In l (rowLabels data) -> inherited l = false) ->
  ((exists v, formatCsvData parseFloat inherited data = Ok v) <->
   data <> [] /\ (2 <= n)%nat) /\
  (forall v, formatCsvData parseFloat inherited data = Ok v ->
     exists r, v = Fin r /\ 0 <= r <= 100).
Proof.
  intros Hn Hinh. rewrite formatCsvData_run.
  set (output := map (fun r => map parseFloat (removelast r)) data).
  set (arr := snd (encodeLabels inherited (rowLabels data) ([], []))).
  split; [split |].
  - intros [v Hv]. apply runNaiveBayes_Ok_inv in Hv.
    destruct Hv as (_ & Hout & Hrows & _).
    assert (Hdata : data <> []) by (intros ->; now apply Hout).
    split; [assumption |].
    destruct data as [| row data']; [congruence |].
    specialize (Hrows (map parseFloat (removelast row)) (or_introl eq_refl)).
    specialize (Hn row (or_introl eq_refl)).
    destruct (Nat.le_gt_cases 2 n) as [Hle | Hgt]; [assumption |].
    elim Hrows. apply length_zero_iff_nil.
    rewrite length_map, removelast_length. lia.
  - intros [Hdata Hle].
    assert (Hlen2 : forall r, In r data -> (2 <= length r)%nat).
    { intros r Hr. rewrite (Hn r Hr). exact Hle. }
    assert (Hne : forall r, In r data -> r <> []).
    { intros r Hr ->. specialize (Hlen2 [] Hr). cbn in Hlen2. lia. }
    destruct (encodeLabels_final inherited (rowLabels data)) as [He Hv].
    destruct (Hv Hinh) as [Hr Hord]. fold arr in He, Hr, Hord.
    destruct (encoded_length _ _ _ _ He) as [_ Hlen].
    rewrite (rowLabels_all data Hne), length_map in Hlen.
    destruct (runNaiveBayes_valid output arr
                (length (fst (encodeLabels inherited (rowLabels data) ([], [])))))
      as (r & Hrun & _); eauto.
    + unfold output. destruct data; [congruence | discriminate].
    + apply (formatted_rows_attributes parseFloat data Hlen2).
    + unfold output. now rewrite length_map.
  - intros v Hv. now apply runNaiveBayes_Ok_inv in Hv.
Qed.

Lemma formatCsvData_returns_iff_witness :
  ((exists v, formatCsvData sampleParse sampleInherited sampleCsv = Ok v) <->
   sampleCsv <> [] /\ (2 <= 3)%nat) /\
  (forall v, formatCsvData sampleParse sampleInherited sampleCsv = Ok v ->
     exists r, v = Fin r /\ 0 <= r <= 100).
Proof.
  apply (formatCsvData_returns_iff sampleParse sampleInherited sampleCsv 3).
  - intros row [<- | [<- | [<- | []]]]; reflexivity.
  - intros l [<- | [<- | [<- | []]]]; reflexivity.
Defined.

(** * Rows of the wrong length *)

Section WrongLength.

Lemma pdf_NaN_mean_value xInput meanTraining stdTraining :
  ToNumber meanTraining = NaN -> pdf xInput meanTraining stdTraining = NaN.
Proof.
  intros H. unfold pdf. rewrite H. unfold sub. cbn [neg].
  rewrite add_NaN_r. cbn [Math_pow mul neg div Math_exp].
  apply mul_NaN_r.
Qed.

Lemma attributeMean_undefined vs : In JUndefined vs -> attributeMean vs = NaN.
Proof.
  intros H. unfold attributeMean. rewrite attributeSum_sum, sum_NaN; [reflexivity |].
  apply in_map_iff. now exists JUndefined.
Qed.

Lemma populationStdDev_NaN_mean vs :
  vs <> [] -> attributeMean vs = NaN -> populationStdDev vs = NaN.
Proof.
  intros Hne Hm. unfold populationStdDev, squaredDifferences. rewrite Hm.
  rewrite (fold_left_map_arg add
             (fun v => Math_pow (sub (ToNumber v) (ToNumber (JNum NaN))) 2)).
  rewrite fold_left_add_sum, sum_NaN; [reflexivity |].
  destruct vs as [| v vs]; [congruence |]. left.
  cbn [ToNumber]. unfold sub. cbn [neg]. now rewrite add_NaN_r.
Qed.

Lemma num_get_map_lt {A : Type} (f : A -> number) (l : list A) j a :
  nth_error l j = Some a -> num_get (map f l) j = JNum (f a).
Proof. intros H. unfold num_get. now rewrite (map_nth_error _ _ _ H). Qed.

Lemma num_get_ge a j : (length a <= j)%nat -> num_get a j = JUndefined.
Proof.
  intros H. unfold num_get.
  destruct (nth_error a j) eqn:E; [| reflexivity].
  assert (j < length a)%nat by (apply nth_error_Some; congruence). lia.
Qed.

Lemma partitionOf_nth_error x y c j :
  (j < length (hd [] x))%nat ->
  nth_error (partitionOf x y c) j = Some (column j (classRows c x y)).
Proof.
  intros Hj. unfold partitionOf. rewrite nth_error_map, nth_error_seq.
  destruct (Nat.ltb_spec j (length (hd [] x))); [reflexivity | lia].
Qed.

Lemma shortRow_fit : fit shortRowX shortRowY = Ok (fittedModel shortRowX shortRowY).
Proof.
  apply (fit_of_formatData shortRowX shortRowY
           (objOf 1 (fun c => unfitted (partitionOf shortRowX shortRowY c)))).
  reflexivity.
Qed.

End WrongLength.

(** X17.  A training row that lacks an attribute which the first row has
    turns the mean and the standard deviation of that attribute in the
    class of the row into [NaN], and [predict] then answers index 0 for
    every input row that has the attribute. *)
Theorem fit_short_row (x : list (list number)) (y : list nat) (d : data)
  (i j c : nat) (row : list number) (cat : category) :
  fit x y = Ok d ->
  obj_get c d = Some cat ->
  nth_error x i = Some row ->
  nth_error y i = Some c ->
  (length row <= j < length (hd [] x))%nat ->
  meanAt cat j = JNum NaN /\
  stDevAt cat j = JNum NaN /\
  (forall rows, (forall r, In r rows -> (j < length r)%nat) ->
     predict d rows = Ok (repeat 0%nat (length rows))).
Proof.
  intros Hfit Hget Hx Hy [Hshort Hj]. apply fit_Ok in Hfit. subst d.
  pose proof Hget as Hcat. apply fittedModel_get in Hcat. destruct Hcat as [_ Hcat].
  set (vs := column j (classRows c x y)).
  assert (Hin : In JUndefined vs).
  { unfold vs, column. apply in_map_iff. exists row. split.
    - now apply num_get_ge.
    - eapply classRows_In; eauto. }
  assert (Hmean : attributeMean vs = NaN) by now apply attributeMean_undefined.
  assert (Hm : meanAt cat j = JNum NaN).
  { subst cat. unfold meanAt, fittedCategory. cbn [mean].
    rewrite (num_get_map_lt _ _ _ _ (partitionOf_nth_error x y c j Hj)).
    fold vs. now rewrite Hmean. }
  split; [exact Hm |]. split.
  - subst cat. unfold stDevAt, fittedCategory. cbn [stDev].
    rewrite (num_get_map_lt _ _ _ _ (partitionOf_nth_error x y c j Hj)).
    fold vs. rewrite populationStdDev_NaN_mean; auto.
    intros E. rewrite E in Hin. contradiction.
  - intros rows Hrows.
    apply (predict_NaN_class _ c cat rows (fittedModel_trained x y) Hget).
    intros r Hr. specialize (Hrows r Hr). split.
    + intros ->. cbn in Hrows. lia.
    + apply (classValue_NaN cat j r); [| assumption].
      intros xj. apply pdf_NaN_mean_value. now rewrite Hm.
Qed.

Lemma fit_short_row_witness :
  meanAt (fittedCategory shortRowX shortRowY 1) 1 = JNum NaN /\
  stDevAt (fittedCategory shortRowX shortRowY 1) 1 = JNum NaN /\
  (forall rows, (forall r, In r rows -> (1 < length r)%nat) ->
     predict (fittedModel shortRowX shortRowY) rows = Ok (repeat 0%nat (length rows))).
Proof.
  apply (fit_short_row shortRowX shortRowY _ 1 1 1 [Fin 3] _ shortRow_fit
           eq_refl eq_refl eq_refl).
  cbn. lia.
Defined.

(** X18.  An input row with more attributes than the training rows reads
    [undefined] statistics: on a fitted model [predict] answers index 0
    for every such row. *)
Theorem predict_long_row (x : list (list number)) (y : list nat) (d : data)
  (rows : list (list number)) :
  fit x y = Ok d ->
  (forall row, In row rows -> (length (hd [] x) < length row)%nat) ->
  predict d rows = Ok (repeat 0%nat (length rows)).
Proof.
  intros Hfit Hrows.
  assert (Hne : forall row, In row rows -> row <> []).
  { intros row Hrow ->. specialize (Hrows [] Hrow). cbn in Hrows. lia. }
  apply fit_Ok in Hfit. subst d.
  destruct (numberOfClasses y) as [| K] eqn:HK.
  - unfold fittedModel. rewrite HK. cbn [objOf objFrom seq map].
    rewrite predict_trained; [| constructor | assumption].
    f_equal. now apply map_constant.
  - apply (predict_NaN_class _ 1%nat (fittedCategory x y 1) rows
             (fittedModel_trained x y)).
    + unfold fittedModel. apply obj_get_objOf. lia.
    + intros row Hrow. split; [now apply Hne |].
      apply (classValue_NaN _ (length (hd [] x)) row); [| now apply Hrows].
      intros xj. apply pdf_NaN_mean_value.
      unfold meanAt, fittedCategory. cbn [mean].
      rewrite num_get_ge; [reflexivity |].
      now rewrite length_map, partitionOf_length.
Qed.

Lemma predict_long_row_witness :
  predict sampleModel [[Fin 5; Fin 6]] = Ok (repeat 0%nat 1).
Proof.
  apply (predict_long_row sampleX sampleY sampleModel [[Fin 5; Fin 6]]
           sample_fit_model).
  intros row [<- | []]. cbn. lia.
Defined.
